(** * NoteApp core: a shallow embedding of the document/object model

  The development follows the C++ sources under [src/core]:
  [object.cpp], [textobject.cpp], [drawingobject.cpp], [page.cpp],
  [document.cpp] and [storage.cpp].  Qt value classes (QPoint, QRect,
  QVector, QMap, QJsonObject) are modelled by what the sources use of
  them; a C++ [int] is a [Z], wrapped to 32 bits in the geometry
  arithmetic, and a [double] is a binary64 primitive float. *)

From Stdlib Require Import ZArith String List Bool Lia Floats.
From stdpp Require Import gmap strings list fin_maps sorting.

Set Warnings "-register-all".
Local Open Scope Z_scope.

(** ** Qt value types *)

Module Qt.

(** Two's complement wrap-around of a 32-bit [int]. *)
Definition wrap (z : Z) : Z := (z + 2 ^ 31) mod 2 ^ 32 - 2 ^ 31.

Definition in_int_range (z : Z) : bool :=
  (- 2 ^ 31 <=? z) && (z <? 2 ^ 31).

(** [int] to [double]: exact for every 32-bit value. *)
Definition int_to_double (z : Z) : float :=
  if z <? 0 then PrimFloat.opp (PrimFloat.of_uint63 (Uint63.of_Z (- z)))
  else PrimFloat.of_uint63 (Uint63.of_Z z).

(** [static_cast<int>(double)]: truncation toward zero; the conversion
    is undefined (modelled by [None]) for NaN, infinities and values
    outside the range of [int]. *)
Definition double_to_int (f : float) : option Z :=
  match Prim2SF f with
  | S754_zero _ => Some 0
  | S754_finite s m e =>
      let mag := if 0 <=? e then Z.pos m * 2 ^ e else Z.pos m / 2 ^ (- e) in
      let v := if s then - mag else mag in
      if in_int_range v then Some v else None
  | _ => None
  end.

Record QPoint := mkPoint { px : Z; py : Z }.
Record QSize := mkSize { sw : Z; sh : Z }.

(** QRect stores its two corners, both inclusive. *)
Record QRect := mkRect { x1 : Z; y1 : Z; x2 : Z; y2 : Z }.

#[global] Instance QPoint_eq_dec : EqDecision QPoint.
Proof. solve_decision. Defined.
#[global] Instance QSize_eq_dec : EqDecision QSize.
Proof. solve_decision. Defined.
#[global] Instance QRect_eq_dec : EqDecision QRect.
Proof. solve_decision. Defined.

Definition point_sub (p q : QPoint) : QPoint :=
  mkPoint (wrap (px p - px q)) (wrap (py p - py q)).
Definition point_add (p q : QPoint) : QPoint :=
  mkPoint (wrap (px p + px q)) (wrap (py p + py q)).

(** [QRect(int left, int top, int width, int height)]. *)
Definition rect (x y w h : Z) : QRect :=
  mkRect x y (wrap (x + w - 1)) (wrap (y + h - 1)).
(** [QRect(const QPoint &topLeft, const QSize &size)]. *)
Definition rect_at (p : QPoint) (s : QSize) : QRect :=
  rect (px p) (py p) (sw s) (sh s).

Definition width (r : QRect) : Z := wrap (x2 r - x1 r + 1).
Definition height (r : QRect) : Z := wrap (y2 r - y1 r + 1).
Definition size (r : QRect) : QSize := mkSize (width r) (height r).
Definition topLeft (r : QRect) : QPoint := mkPoint (x1 r) (y1 r).

(** [QRect::center]: the sums are taken in 64 bits, the division by two
    truncates toward zero. *)
Definition center (r : QRect) : QPoint :=
  mkPoint (Z.quot (x1 r + x2 r) 2) (Z.quot (y1 r + y2 r) 2).

Definition translated (r : QRect) (d : QPoint) : QRect :=
  mkRect (wrap (x1 r + px d)) (wrap (y1 r + py d))
         (wrap (x2 r + px d)) (wrap (y2 r + py d)).

(** [QRect::contains(const QPoint &, bool proper = false)]. *)
Definition contains (r : QRect) (p : QPoint) : bool :=
  let '(l, rr) := if x2 r <? x1 r - 1 then (x2 r, x1 r) else (x1 r, x2 r) in
  let '(t, b) := if y2 r <? y1 r - 1 then (y2 r, y1 r) else (y1 r, y2 r) in
  negb ((px p <? l) || (rr <? px p)) && negb ((py p <? t) || (b <? py p)).

(** The corners of a rectangle are values of type [int]. *)
Definition int_corners (r : QRect) : Prop :=
  (- 2 ^ 31 <= x1 r < 2 ^ 31) /\ (- 2 ^ 31 <= y1 r < 2 ^ 31) /\
  (- 2 ^ 31 <= x2 r < 2 ^ 31) /\ (- 2 ^ 31 <= y2 r < 2 ^ 31).

End Qt.

(** ** QJsonValue / QJsonObject, as far as [toJson] and [fromJson] use them *)

Module Json.

Inductive t :=
| JNull
| JBool (b : bool)
| JInt (z : Z)
| JDouble (f : float)
| JString (s : string)
| JArray (items : list t)
| JObject (fields : list (string * t)).

Fixpoint lookup_field (k : string) (fs : list (string * t)) : t :=
  match fs with
  | [] => JNull
  | (k', v) :: rest => if String.eqb k k' then v else lookup_field k rest
  end.

Fixpoint set_field (k : string) (v : t) (fs : list (string * t))
  : list (string * t) :=
  match fs with
  | [] => [(k, v)]
  | (k', v') :: rest =>
      if String.eqb k k' then (k, v) :: rest else (k', v') :: set_field k v rest
  end.

(** [json[key]] read access: an absent key yields an undefined value, on
    which every conversion below returns its default. *)
Definition get (j : t) (k : string) : t :=
  match j with JObject fs => lookup_field k fs | _ => JNull end.

(** [json[key] = value]. *)
Definition set (j : t) (k : string) (v : t) : t :=
  match j with
  | JObject fs => JObject (set_field k v fs)
  | _ => JObject [(k, v)]
  end.

Definition toString (j : t) : string :=
  match j with JString s => s | _ => EmptyString end.
Definition toBool (j : t) : bool :=
  match j with JBool b => b | _ => false end.
(** The integers read back in this development are written from C++
    [int] fields, on which the range check of [QJsonValue::toInt] always
    passes; the check is not part of [toInt]. *)
Definition toInt (j : t) : Z :=
  match j with
  | JInt z => z
  | JDouble f =>
      match Qt.double_to_int f with
      | Some z => if PrimFloat.eqb (Qt.int_to_double z) f then z else 0
      | None => 0
      end
  | _ => 0
  end.
Definition toDouble (j : t) : float :=
  match j with
  | JInt z => Qt.int_to_double z
  | JDouble f => f
  | _ => 0%float
  end.
Definition toLongLong (j : t) : Z :=
  match j with JInt z => z | _ => 0 end.
Definition toArray (j : t) : list t :=
  match j with JArray l => l | _ => [] end.
Definition toObject (j : t) : t :=
  match j with JObject _ => j | _ => JObject [] end.

End Json.

(** ** Objects: [object.cpp], [textobject.cpp], [drawingobject.cpp] *)

Module Obj.
Import Qt.

Record QColor := mkColor { red : Z; green : Z; blue : Z; alpha : Z }.
Record QFont :=
  mkFont { family : string; pointSize : Z; bold : bool; italic : bool }.
Record QPen := mkPen {
  pen_color : QColor; pen_width : float;
  pen_style : Z; pen_cap : Z; pen_join : Z }.
Record QBrush := mkBrush { brush_style : Z }.

(** The sources build paths with [moveTo(QPoint)] and [lineTo(QPoint)]
    only. *)
Inductive PathElement := MoveTo (p : QPoint) | LineTo (p : QPoint).
Definition QPainterPath := list PathElement.

Definition black := mkColor 0 0 0 255.
Definition white := mkColor 255 255 255 255.
Definition transparent := mkColor 0 0 0 0.
(** [QPen()] and [QBrush()]. *)
Definition default_pen := mkPen black 1%float 1 16 64.
Definition default_brush := mkBrush 0.
(** [QFont(family, pointSize, weight)]: a point size of zero or less is
    replaced by 12. *)
Definition font (fam : string) (size : Z) (b : bool) : QFont :=
  mkFont fam (if size <=? 0 then 12 else size) b false.
Definition setItalic (i : bool) (f : QFont) : QFont :=
  mkFont (family f) (pointSize f) (bold f) i.

Inductive DrawingMode :=
| PenMode | HighlighterMode | EraserMode
| UnnamedMode (z : Z).  (* any other value cast from an int *)

Definition mode_to_int (m : DrawingMode) : Z :=
  match m with
  | PenMode => 0 | HighlighterMode => 1 | EraserMode => 2
  | UnnamedMode z => z
  end.
Definition mode_of_int (z : Z) : DrawingMode :=
  if z =? 0 then PenMode else if z =? 1 then HighlighterMode
  else if z =? 2 then EraserMode else UnnamedMode z.
Definition is_eraser (m : DrawingMode) : bool :=
  match m with EraserMode => true | _ => false end.

Record Stroke := mkStroke {
  path : QPainterPath; pen : QPen; brush : QBrush;
  mode : DrawingMode; timestamp : Z }.
(** [Stroke() : mode(PenMode), timestamp(0) {}]. *)
Definition empty_stroke := mkStroke [] default_pen default_brush PenMode 0.

Record TextData := mkText {
  m_content : string; m_markdownMode : bool; m_font : QFont;
  m_textColor : QColor; m_backgroundColor : QColor;
  m_alignment : Z; m_lineSpacing : Z; m_editing : bool }.

Record DrawingData := mkDrawing {
  m_currentMode : DrawingMode; m_currentPen : QPen; m_currentBrush : QBrush;
  m_strokes : list Stroke; m_selectedStrokes : list Z;
  m_currentStroke : Stroke; m_drawing : bool;
  m_smoothPoints : list QPoint }.

(** The class hierarchy as a tagged union over the common fields. *)
Inductive Payload := Text (t : TextData) | Drawing (d : DrawingData).

Record Object := mkObject {
  m_bounds : QRect; m_selected : bool; m_layer : Z; m_visible : bool;
  m_id : string; payload : Payload }.

(** What the sources take from Qt without the repository defining it. *)
Record QtLib := {
  colorName : QColor -> string;            (* QColor::name() *)
  colorFromName : string -> QColor;        (* QColor(const QString &) *)
  toSvgPath : QPainterPath -> string;
  fromSvgPath : string -> QPainterPath;
  applicationFont : QFont;                 (* QApplication::font() *)
  (* height of the laid-out QTextDocument for a text width *)
  documentHeight : TextData -> Z -> Z }.

Inductive Signal :=
| boundsChanged (r : QRect)
| selectionChanged (b : bool)
| layerChanged (l : Z)
| visibilityChanged (b : bool)
| contentChanged (s : string)
| strokeAdded (i : Z).

(** A method that mutates the object and emits signals. *)
Definition Method := Object -> Object * list Signal.

Definition with_bounds (r : QRect) (o : Object) : Object :=
  mkObject r (m_selected o) (m_layer o) (m_visible o) (m_id o) (payload o).
Definition with_selected (b : bool) (o : Object) : Object :=
  mkObject (m_bounds o) b (m_layer o) (m_visible o) (m_id o) (payload o).
Definition with_layer (l : Z) (o : Object) : Object :=
  mkObject (m_bounds o) (m_selected o) l (m_visible o) (m_id o) (payload o).
Definition with_visible (b : bool) (o : Object) : Object :=
  mkObject (m_bounds o) (m_selected o) (m_layer o) b (m_id o) (payload o).
Definition with_id (i : string) (o : Object) : Object :=
  mkObject (m_bounds o) (m_selected o) (m_layer o) (m_visible o) i (payload o).
Definition with_payload (p : Payload) (o : Object) : Object :=
  mkObject (m_bounds o) (m_selected o) (m_layer o) (m_visible o) (m_id o) p.

(** *** object.cpp *)

Definition setBounds (bounds : QRect) : Method := fun o =>
  if decide (m_bounds o <> bounds)
  then (with_bounds bounds o, [boundsChanged bounds])
  else (o, []).

Definition setSize (s : QSize) : Method := fun o =>
  setBounds (rect_at (topLeft (m_bounds o)) s) o.

Definition setSelected (selected : bool) : Method := fun o =>
  if decide (m_selected o <> selected)
  then (with_selected selected o, [selectionChanged selected])
  else (o, []).

Definition contains (o : Object) (point : QPoint) : bool :=
  Qt.contains (m_bounds o) point.

Definition setLayer (layer : Z) : Method := fun o =>
  if decide (m_layer o <> layer)
  then (with_layer layer o, [layerChanged layer])
  else (o, []).

Definition setVisible (visible : bool) : Method := fun o =>
  if decide (m_visible o <> visible)
  then (with_visible visible o, [visibilityChanged visible])
  else (o, []).

Definition moveBy (delta : QPoint) : Method := fun o =>
  setBounds (translated (m_bounds o) delta) o.

(** [Object::scale]; [None] when a [static_cast<int>] is undefined. *)
Definition scale (factor : float) (o : Object) : option (Object * list Signal) :=
  let center := Qt.center (m_bounds o) in
  match double_to_int (int_to_double (width (m_bounds o)) * factor)%float,
        double_to_int (int_to_double (height (m_bounds o)) * factor)%float with
  | Some w, Some h =>
      let newSize := mkSize w h in
      Some (setBounds
              (rect_at (point_sub center
                          (mkPoint (Z.quot (sw newSize) 2) (Z.quot (sh newSize) 2)))
                       newSize) o)
  | _, _ => None
  end.

(** [Object::Object]: [fresh] is the UUID drawn by [generateId]. *)
Definition Object_new (fresh : string) (p : Payload) : Object :=
  mkObject (rect 0 0 100 100) false 0 true fresh p.

Definition type (o : Object) : Z :=
  match payload o with Text _ => 0 | Drawing _ => 1 end.

Definition Object_toJson (o : Object) : Json.t :=
  let json := Json.JObject [] in
  let json := Json.set json "id" (Json.JString (m_id o)) in
  let json := Json.set json "type" (Json.JInt (type o)) in
  let json := Json.set json "bounds"
    (Json.JObject [("x"%string, Json.JInt (x1 (m_bounds o)));
                   ("y"%string, Json.JInt (y1 (m_bounds o)));
                   ("width"%string, Json.JInt (width (m_bounds o)));
                   ("height"%string, Json.JInt (height (m_bounds o)))]) in
  let json := Json.set json "layer" (Json.JInt (m_layer o)) in
  let json := Json.set json "visible" (Json.JBool (m_visible o)) in
  json.

Definition Object_fromJson (json : Json.t) (o : Object) : Object :=
  let boundsObj := Json.toObject (Json.get json "bounds") in
  mkObject
    (rect (Json.toInt (Json.get boundsObj "x"))
          (Json.toInt (Json.get boundsObj "y"))
          (Json.toInt (Json.get boundsObj "width"))
          (Json.toInt (Json.get boundsObj "height")))
    (m_selected o)
    (Json.toInt (Json.get json "layer"))
    (Json.toBool (Json.get json "visible"))
    (Json.toString (Json.get json "id"))
    (payload o).

(** *** textobject.cpp *)

Section WithQt.
Context (qt : QtLib).

Definition text_of (o : Object) : option TextData :=
  match payload o with Text t => Some t | Drawing _ => None end.

(** [TextObject::updateDocumentSize]: the object's height follows the
    height of the laid-out document. *)
Definition updateDocumentSize : Method := fun o =>
  match payload o with
  | Text t =>
      let contentHeight := documentHeight qt t (width (m_bounds o)) in
      if decide (contentHeight <> height (m_bounds o))
      then setSize (mkSize (width (m_bounds o)) contentHeight) o
      else (o, [])
  | Drawing _ => (o, [])
  end.

(** [TextObject::setupDocument] rebuilds the QTextDocument (not part of the
    model) and then adjusts the size. *)
Definition setupDocument : Method := updateDocumentSize.

Definition with_content (content : string) (t : TextData) : TextData :=
  mkText content (m_markdownMode t) (m_font t) (m_textColor t)
         (m_backgroundColor t) (m_alignment t) (m_lineSpacing t) (m_editing t).

Definition setContent (content : string) : Method := fun o =>
  match payload o with
  | Text t =>
      if decide (m_content t <> content)
      then
        let '(o', sigs) := setupDocument (with_payload (Text (with_content content t)) o) in
        (o', sigs ++ [contentChanged content])
      else (o, [])
  | Drawing _ => (o, [])
  end.

(** [TextObject::TextObject]. *)
Definition TextObject_new (fresh : string) : Object :=
  fst (setupDocument
         (Object_new fresh
            (Text (mkText EmptyString true (applicationFont qt) black transparent
                          33 (* Qt::AlignLeft | Qt::AlignTop *) 0 false)))).

Definition TextObject_toJson (o : Object) (t : TextData) : Json.t :=
  let json := Object_toJson o in
  let json := Json.set json "content" (Json.JString (m_content t)) in
  let json := Json.set json "markdownMode" (Json.JBool (m_markdownMode t)) in
  let json := Json.set json "font"
    (Json.JObject [("family"%string, Json.JString (family (m_font t)));
                   ("size"%string, Json.JInt (pointSize (m_font t)));
                   ("bold"%string, Json.JBool (bold (m_font t)));
                   ("italic"%string, Json.JBool (italic (m_font t)))]) in
  let json := Json.set json "textColor" (Json.JString (colorName qt (m_textColor t))) in
  let json := Json.set json "backgroundColor"
    (Json.JString (colorName qt (m_backgroundColor t))) in
  let json := Json.set json "alignment" (Json.JInt (m_alignment t)) in
  let json := Json.set json "lineSpacing" (Json.JInt (m_lineSpacing t)) in
  json.

Definition TextObject_fromJson (json : Json.t) (o : Object) (t : TextData) : Object :=
  let o := Object_fromJson json o in
  let fontObj := Json.toObject (Json.get json "font") in
  let f := setItalic (Json.toBool (Json.get fontObj "italic"))
             (font (Json.toString (Json.get fontObj "family"))
                   (Json.toInt (Json.get fontObj "size"))
                   (Json.toBool (Json.get fontObj "bold"))) in
  let t' := mkText (Json.toString (Json.get json "content"))
                   (Json.toBool (Json.get json "markdownMode"))
                   f
                   (colorFromName qt (Json.toString (Json.get json "textColor")))
                   (colorFromName qt (Json.toString (Json.get json "backgroundColor")))
                   (Json.toInt (Json.get json "alignment"))
                   (Json.toInt (Json.get json "lineSpacing"))
                   (m_editing t) in
  fst (setupDocument (with_payload (Text t') o)).

(** *** drawingobject.cpp *)

Definition SMOOTH_WINDOW_SIZE : Z := 3.

Definition setupDefaultPen (m : DrawingMode) (current : QPen) : QPen :=
  match m with
  | PenMode => mkPen black 2%float 1 32 128
  | HighlighterMode => mkPen (mkColor 255 255 0 128) 10%float 1 32 128
  | EraserMode => mkPen white 20%float 1 32 128
  | UnnamedMode _ => current
  end.

(** [DrawingObject::DrawingObject]. *)
Definition DrawingObject_new (fresh : string) : Object :=
  Object_new fresh
    (Drawing (mkDrawing PenMode (setupDefaultPen PenMode default_pen) (mkBrush 0)
                        [] [] empty_stroke false [])).

Definition penToJson (p : QPen) : Json.t :=
  Json.JObject [("color"%string, Json.JString (colorName qt (pen_color p)));
                ("width"%string, Json.JDouble (pen_width p));
                ("style"%string, Json.JInt (pen_style p));
                ("capStyle"%string, Json.JInt (pen_cap p));
                ("joinStyle"%string, Json.JInt (pen_join p))].

Definition penFromJson (penObj : Json.t) : QPen :=
  mkPen (colorFromName qt (Json.toString (Json.get penObj "color")))
        (Json.toDouble (Json.get penObj "width"))
        (Json.toInt (Json.get penObj "style"))
        (Json.toInt (Json.get penObj "capStyle"))
        (Json.toInt (Json.get penObj "joinStyle")).

Definition strokeToJson (s : Stroke) : Json.t :=
  let json := Json.JObject [] in
  let json := Json.set json "mode" (Json.JInt (mode_to_int (mode s))) in
  let json := Json.set json "timestamp" (Json.JInt (timestamp s)) in
  let json := Json.set json "path" (Json.JString (toSvgPath qt (path s))) in
  let json := Json.set json "pen" (penToJson (pen s)) in
  json.

Definition strokeFromJson (json : Json.t) : Stroke :=
  mkStroke (fromSvgPath qt (Json.toString (Json.get json "path")))
           (penFromJson (Json.toObject (Json.get json "pen")))
           (brush empty_stroke)
           (mode_of_int (Json.toInt (Json.get json "mode")))
           (Json.toLongLong (Json.get json "timestamp")).

Definition DrawingObject_toJson (o : Object) (d : DrawingData) : Json.t :=
  let json := Object_toJson o in
  let json := Json.set json "strokes" (Json.JArray (map strokeToJson (m_strokes d))) in
  let json := Json.set json "currentMode" (Json.JInt (mode_to_int (m_currentMode d))) in
  let json := Json.set json "currentPen" (penToJson (m_currentPen d)) in
  json.

Definition DrawingObject_fromJson (json : Json.t) (o : Object) (d : DrawingData)
  : Object :=
  let o := Object_fromJson json o in
  let d' := mkDrawing (mode_of_int (Json.toInt (Json.get json "currentMode")))
                      (penFromJson (Json.toObject (Json.get json "currentPen")))
                      (m_currentBrush d)
                      (map strokeFromJson (Json.toArray (Json.get json "strokes")))
                      (m_selectedStrokes d) (m_currentStroke d) (m_drawing d)
                      (m_smoothPoints d) in
  with_payload (Drawing d') o.

(** Virtual dispatch of [toJson], [fromJson] and [clone]. *)
Definition toJson (o : Object) : Json.t :=
  match payload o with
  | Text t => TextObject_toJson o t
  | Drawing d => DrawingObject_toJson o d
  end.

Definition fromJson (json : Json.t) (o : Object) : Object :=
  match payload o with
  | Text t => TextObject_fromJson json o t
  | Drawing d => DrawingObject_fromJson json o d
  end.

(** [TextObject::clone] and [DrawingObject::clone]: a default-constructed
    object of the same class (whose constructor draws the UUID [fresh])
    reads back the original's JSON. *)
Definition clone (fresh : string) (o : Object) : Object :=
  match payload o with
  | Text _ => fromJson (toJson o) (TextObject_new fresh)
  | Drawing _ => fromJson (toJson o) (DrawingObject_new fresh)
  end.

End WithQt.

(** *** Live stroke capture *)

Definition with_capture (stroke : Stroke) (drawing : bool)
  (smoothPoints : list QPoint) (d : DrawingData) : DrawingData :=
  mkDrawing (m_currentMode d) (m_currentPen d) (m_currentBrush d)
            (m_strokes d) (m_selectedStrokes d) stroke drawing smoothPoints.

Definition with_path (p : QPainterPath) (s : Stroke) : Stroke :=
  mkStroke p (pen s) (brush s) (mode s) (timestamp s).

(** [now] is [QDateTime::currentMSecsSinceEpoch()]. *)
Definition startStroke (now : Z) (point : QPoint) (d : DrawingData) : DrawingData :=
  if m_drawing d then d
  else with_capture
         (mkStroke [MoveTo point] (m_currentPen d) (m_currentBrush d)
                   (m_currentMode d) now)
         true [point] d.

Definition smoothPoint (d : DrawingData) (point : QPoint) : QPoint :=
  let size := Z.of_nat (length (m_smoothPoints d)) in
  if size <? SMOOTH_WINDOW_SIZE then point
  else
    let window :=
      drop (Z.to_nat (Z.max 0 (size - SMOOTH_WINDOW_SIZE))) (m_smoothPoints d) in
    let sum := fold_left point_add window (mkPoint 0 0) in
    let count := Z.of_nat (length window) in
    mkPoint (Z.quot (px sum) count) (Z.quot (py sum) count).

(** The current position of a path is the end point of its last
    element. *)
Definition element_point (e : PathElement) : QPoint :=
  match e with MoveTo p => p | LineTo p => p end.
Definition currentPosition (p : QPainterPath) : QPoint :=
  match last p with Some e => element_point e | None => mkPoint 0 0 end.

(** [QPainterPath::lineTo]: a path without elements first gets its start
    at the origin; a line to the current position adds no element.  The
    coordinates come from a [QPoint], on which the comparison of
    [QPointF] is exact. *)
Definition lineTo (point : QPoint) (p : QPainterPath) : QPainterPath :=
  let p := match p with [] => [MoveTo (mkPoint 0 0)] | _ => p end in
  if decide (point = currentPosition p) then p else p ++ [LineTo point].

Definition addPointToStroke (point : QPoint) (d : DrawingData) : DrawingData :=
  if negb (m_drawing d) then d
  else
    let smoothedPoint := smoothPoint d point in
    let d := with_capture (m_currentStroke d) (m_drawing d)
                          (m_smoothPoints d ++ [smoothedPoint]) d in
    if is_eraser (m_currentMode d) then d
    else with_capture
           (with_path (lineTo smoothedPoint (path (m_currentStroke d)))
                      (m_currentStroke d))
           (m_drawing d) (m_smoothPoints d) d.

Definition addStroke (s : Stroke) (d : DrawingData) : DrawingData * list Signal :=
  (mkDrawing (m_currentMode d) (m_currentPen d) (m_currentBrush d)
             (m_strokes d ++ [s]) (m_selectedStrokes d)
             (m_currentStroke d) (m_drawing d) (m_smoothPoints d),
   [strokeAdded (Z.of_nat (length (m_strokes d)))]).

(** [path.length() > 0]: some segment joins two different points. *)
Fixpoint has_length (pos : QPoint) (p : QPainterPath) : bool :=
  match p with
  | [] => false
  | MoveTo q :: rest => has_length q rest
  | LineTo q :: rest => negb (bool_decide (q = pos)) || has_length q rest
  end.

Definition finishStroke (d : DrawingData) : DrawingData * list Signal :=
  if negb (m_drawing d) then (d, [])
  else
    let '(d', sigs) :=
      if has_length (mkPoint 0 0) (path (m_currentStroke d))
      then addStroke (m_currentStroke d) d else (d, []) in
    (with_capture empty_stroke false [] d', sigs).

Definition cancelStroke (d : DrawingData) : DrawingData :=
  if negb (m_drawing d) then d else with_capture empty_stroke false [] d.

(** The points a capture session draws: [startStroke start] followed by
    one [addPointToStroke] per incoming point. *)
Definition capture (now : Z) (start : QPoint) (incoming : list QPoint)
  (d : DrawingData) : DrawingData :=
  fold_left (fun d p => addPointToStroke p d) incoming (startStroke now start d).

End Obj.

(** ** QVector operations used by the containers *)

Module QVector.
Section Ops.
Context {A : Type} `{EqDecision A}.

Fixpoint indexOf_from (i : Z) (x : A) (l : list A) : Z :=
  match l with
  | [] => -1
  | y :: rest => if decide (y = x) then i else indexOf_from (i + 1) x rest
  end.

(** First index holding [x], or [-1]. *)
Definition indexOf (x : A) (l : list A) : Z := indexOf_from 0 x l.

Definition size (l : list A) : Z := Z.of_nat (length l).

(** [v[i]] / [v.at(i)] for an index that the caller has checked. *)
Definition at_ (l : list A) (i : Z) : option A :=
  if i <? 0 then None else l !! Z.to_nat i.

Definition removeAt (i : Z) (l : list A) : list A :=
  if i <? 0 then l else delete (Z.to_nat i) l.

Definition insert_at (i : Z) (x : A) (l : list A) : list A :=
  take (Z.to_nat i) l ++ x :: drop (Z.to_nat i) l.

(** [v.move(from, to)]: the element at [from] is taken out and put back
    at index [to]. *)
Definition move (from to : Z) (l : list A) : list A :=
  match at_ l from with
  | Some x => if from =? to then l else insert_at to x (removeAt from l)
  | None => l
  end.

End Ops.
End QVector.

(** ** Stroke editing: [drawingobject.cpp] *)

Module Drawing.
Import Obj.

(** The signals of these methods ([strokeRemoved],
    [strokeSelectionChanged], [drawingModeChanged]) have no receiver in
    the core and are left out. *)
Definition with_strokes (strokes : list Stroke) (selected : list Z)
  (d : DrawingData) : DrawingData :=
  mkDrawing (m_currentMode d) (m_currentPen d) (m_currentBrush d)
            strokes selected (m_currentStroke d) (m_drawing d) (m_smoothPoints d).

Definition in_range (index : Z) (d : DrawingData) : bool :=
  (0 <=? index) && (index <? QVector.size (m_strokes d)).

Definition removeStroke (index : Z) (d : DrawingData) : DrawingData :=
  if in_range index d then
    with_strokes (QVector.removeAt index (m_strokes d))
                 (filter (fun i => i <> index) (m_selectedStrokes d)) d
  else d.

Definition clearStrokes (d : DrawingData) : DrawingData := with_strokes [] [] d.

Definition selectStroke (index : Z) (d : DrawingData) : DrawingData :=
  if in_range index d && negb (bool_decide (index ∈ m_selectedStrokes d)) then
    with_strokes (m_strokes d) (m_selectedStrokes d ++ [index]) d
  else d.

Definition deselectStroke (index : Z) (d : DrawingData) : DrawingData :=
  with_strokes (m_strokes d) (filter (fun i => i <> index) (m_selectedStrokes d)) d.

Definition clearStrokeSelection (d : DrawingData) : DrawingData :=
  with_strokes (m_strokes d) [] d.

(** [std::sort] with [std::greater<int>]: integers with equal keys are
    equal, so the standard's contract fixes the result. *)
Definition descending (a b : Z) : Prop := b <= a.
#[global] Instance descending_dec a b : Decision (descending a b).
Proof. unfold descending. apply _. Defined.

Definition sort_descending (l : list Z) : list Z := merge_sort descending l.

Definition deleteSelectedStrokes (d : DrawingData) : DrawingData :=
  let sortedSelection := sort_descending (m_selectedStrokes d) in
  fold_left (fun d index => removeStroke index d) sortedSelection d.

Definition duplicateSelectedStrokes (d : DrawingData) : DrawingData :=
  let newStrokes :=
    omap (fun index => if in_range index d then QVector.at_ (m_strokes d) index
                       else None)
         (m_selectedStrokes d) in
  fold_left (fun d s => (addStroke s d).1) newStrokes d.

Definition setCurrentMode (m : DrawingMode) (d : DrawingData) : DrawingData :=
  if bool_decide (mode_to_int (m_currentMode d) = mode_to_int m) then d
  else mkDrawing m (setupDefaultPen m (m_currentPen d)) (m_currentBrush d)
                 (m_strokes d) (m_selectedStrokes d) (m_currentStroke d)
                 (m_drawing d) (m_smoothPoints d).

End Drawing.

(** ** Pages: [page.cpp] *)

Module Page.
Import Qt.

(** The address a [std::shared_ptr<Object>] holds; equality of shared
    pointers is equality of addresses. *)
Abbreviation ObjPtr := nat.

(** A page together with the objects its pointers refer to.  The caller
    keeps pointers to the same objects, so the objects live in a store
    and [m_objects] holds addresses.  [connections] lists the objects
    whose signals are connected to the page's slots, once per [connect]
    call.  Title, id, size and background colour play no role in the
    object operations and are left out, as are the page's own outgoing
    signals. *)
Record Page := mkPage {
  store : gmap nat Obj.Object;
  m_objects : list ObjPtr;
  connections : list ObjPtr }.

Definition with_objects (l : list ObjPtr) (p : Page) : Page :=
  mkPage (store p) l (connections p).

Definition layer_of (p : Page) (a : ObjPtr) : Z :=
  match store p !! a with Some o => Obj.m_layer o | None => 0 end.
Definition isVisible (p : Page) (a : ObjPtr) : bool :=
  match store p !! a with Some o => Obj.m_visible o | None => false end.
Definition contains (p : Page) (a : ObjPtr) (point : QPoint) : bool :=
  match store p !! a with Some o => Obj.contains o point | None => false end.

(** The test of [Page::objectAt] on one object. *)
Definition hit (p : Page) (point : QPoint) (a : ObjPtr) : bool :=
  isVisible p a && contains p a point.

(** The layers met when iterating over the page's objects. *)
Definition layers (p : Page) : list Z := map (layer_of p) (m_objects p).

Section WithSort.
(** [std::sort(first, last, comp)] of the C++ standard library. *)
Context (std_sort : (ObjPtr -> ObjPtr -> bool) -> list ObjPtr -> list ObjPtr).

Definition sortObjectsByLayer (p : Page) : Page :=
  with_objects
    (std_sort (fun a b => layer_of p a <? layer_of p b) (m_objects p)) p.

Definition onObjectLayerChanged (newLayer : Z) (p : Page) : Page :=
  sortObjectsByLayer p.

(** The slot a signal of a connected object runs. *)
Definition slot (s : Obj.Signal) (p : Page) : Page :=
  match s with
  | Obj.layerChanged l => onObjectLayerChanged l p
  | _ => p  (* the other slots only re-emit page signals *)
  end.

(** Calling a mutating method through the pointer [a]: the object in the
    store changes and each emitted signal runs the page's slot once per
    connection. *)
Definition call (a : ObjPtr) (m : Obj.Method) (p : Page) : Page :=
  match store p !! a with
  | None => p
  | Some o =>
      let '(o', sigs) := m o in
      let p' := mkPage (<[a := o']> (store p)) (m_objects p) (connections p) in
      let n := length (filter (fun c => c = a) (connections p)) in
      fold_left (fun p s => Nat.iter n (slot s) p) sigs p'
  end.

Definition connectObjectSignals (a : ObjPtr) (p : Page) : Page :=
  mkPage (store p) (m_objects p) (a :: connections p).

(** [disconnect] removes every connection between the object and the
    page's slots. *)
Definition disconnectObjectSignals (a : ObjPtr) (p : Page) : Page :=
  mkPage (store p) (m_objects p) (filter (fun c => c <> a) (connections p)).

(** A null [shared_ptr] is [None]. *)
Definition addObject (object : option ObjPtr) (p : Page) : Page :=
  match object with
  | None => p
  | Some a =>
      let p := with_objects (m_objects p ++ [a]) p in
      let p := connectObjectSignals a p in
      sortObjectsByLayer p
  end.

Definition removeObject (object : option ObjPtr) (p : Page) : Page :=
  match object with
  | None => p
  | Some a =>
      let index := QVector.indexOf a (m_objects p) in
      if 0 <=? index then
        let p := disconnectObjectSignals a p in
        with_objects (QVector.removeAt index (m_objects p)) p
      else p
  end.

Definition removeObjectAt (index : Z) (p : Page) : Page :=
  if (0 <=? index) && (index <? QVector.size (m_objects p)) then
    match QVector.at_ (m_objects p) index with
    | Some a =>
        let p := disconnectObjectSignals a p in
        with_objects (QVector.removeAt index (m_objects p)) p
    | None => p
    end
  else p.

(** The loop of [Page::objectAt], visiting indices [i-1], ..., [0]. *)
Fixpoint objectAt_from (p : Page) (point : QPoint) (i : nat) : option ObjPtr :=
  match i with
  | O => None
  | S j =>
      match m_objects p !! j with
      | Some a =>
          if hit p point a then Some a
          else objectAt_from p point j
      | None => objectAt_from p point j
      end
  end.

Definition objectAt (p : Page) (point : QPoint) : option ObjPtr :=
  objectAt_from p point (length (m_objects p)).

Definition bringToFront (object : option ObjPtr) (p : Page) : Page :=
  match object with
  | None => p
  | Some a =>
      let index := QVector.indexOf a (m_objects p) in
      if 0 <=? index then
        let p := with_objects
                   (QVector.move index (QVector.size (m_objects p) - 1) (m_objects p)) p in
        call a (Obj.setLayer (QVector.size (m_objects p) - 1)) p
      else p
  end.

Definition sendToBack (object : option ObjPtr) (p : Page) : Page :=
  match object with
  | None => p
  | Some a =>
      let index := QVector.indexOf a (m_objects p) in
      if 0 <=? index then
        let p := with_objects (QVector.move index 0 (m_objects p)) p in
        call a (Obj.setLayer 0) p
      else p
  end.

Definition bringForward (object : option ObjPtr) (p : Page) : Page :=
  match object with
  | None => p
  | Some a =>
      let index := QVector.indexOf a (m_objects p) in
      if (0 <=? index) && (index <? QVector.size (m_objects p) - 1) then
        let p := with_objects (QVector.move index (index + 1) (m_objects p)) p in
        call a (Obj.setLayer (index + 1)) p
      else p
  end.

Definition sendBackward (object : option ObjPtr) (p : Page) : Page :=
  match object with
  | None => p
  | Some a =>
      let index := QVector.indexOf a (m_objects p) in
      if 0 <? index then
        let p := with_objects (QVector.move index (index - 1) (m_objects p)) p in
        call a (Obj.setLayer (index - 1)) p
      else p
  end.

Definition setObjectLayer (object : option ObjPtr) (layer : Z) (p : Page) : Page :=
  match object with
  | None => p
  | Some a => sortObjectsByLayer (call a (Obj.setLayer layer) p)
  end.

(** The mutations of the z-order interface, as a command language. *)
Inductive Mutation :=
| AddObject (a : ObjPtr)
| RemoveObject (a : ObjPtr)
| BringToFront (a : ObjPtr)
| SendToBack (a : ObjPtr)
| BringForward (a : ObjPtr)
| SendBackward (a : ObjPtr)
| SetObjectLayer (a : ObjPtr) (layer : Z).

Definition apply (m : Mutation) (p : Page) : Page :=
  match m with
  | AddObject a => addObject (Some a) p
  | RemoveObject a => removeObject (Some a) p
  | BringToFront a => bringToFront (Some a) p
  | SendToBack a => sendToBack (Some a) p
  | BringForward a => bringForward (Some a) p
  | SendBackward a => sendBackward (Some a) p
  | SetObjectLayer a l => setObjectLayer (Some a) l p
  end.

Definition run (ms : list Mutation) (p : Page) : Page :=
  fold_left (fun p m => apply m p) ms p.

End WithSort.

(** What the C++ standard promises of [std::sort] for a comparison that
    orders by a key: the result is a permutation of the input in
    non-descending key order.  The order of equal keys is unspecified. *)
Class StdSort (std_sort : (ObjPtr -> ObjPtr -> bool) -> list ObjPtr -> list ObjPtr)
  : Prop := {
  std_sort_perm : forall cmp (key : ObjPtr -> Z) l,
    (forall a b, cmp a b = (key a <? key b)) ->
    std_sort cmp l ≡ₚ l;
  std_sort_sorted : forall cmp (key : ObjPtr -> Z) l,
    (forall a b, cmp a b = (key a <? key b)) ->
    StronglySorted (fun a b => key a <= key b) (std_sort cmp l) }.

(** Insertion sort, the algorithm library implementations run on short
    ranges; one instance of the contract. *)
Fixpoint insert_sorted (cmp : ObjPtr -> ObjPtr -> bool) (x : ObjPtr)
  (l : list ObjPtr) : list ObjPtr :=
  match l with
  | [] => [x]
  | y :: rest => if cmp x y then x :: l else y :: insert_sorted cmp x rest
  end.

Definition insertion_sort (cmp : ObjPtr -> ObjPtr -> bool) (l : list ObjPtr)
  : list ObjPtr :=
  fold_left (fun acc x => insert_sorted cmp x acc) l [].

(** The same on the reversed range: equal keys come out in the opposite
    order, which the contract allows as well. *)
Definition reversing_sort (cmp : ObjPtr -> ObjPtr -> bool) (l : list ObjPtr)
  : list ObjPtr :=
  insertion_sort cmp (rev l).

(** The page is in layer order. *)
Definition layer_sorted (p : Page) : Prop :=
  StronglySorted Z.le (layers p).

(** *** Selection and bulk operations *)

Section Bulk.
Context (std_sort : (ObjPtr -> ObjPtr -> bool) -> list ObjPtr -> list ObjPtr).

Definition isSelected (p : Page) (a : ObjPtr) : bool :=
  match store p !! a with Some o => Obj.m_selected o | None => false end.

Definition selectedObjects (p : Page) : list ObjPtr :=
  filter (fun a => isSelected p a = true) (m_objects p).

Definition selectObject (object : option ObjPtr) (p : Page) : Page :=
  match object with
  | Some a => call std_sort a (Obj.setSelected true) p
  | None => p
  end.

Definition deselectObject (object : option ObjPtr) (p : Page) : Page :=
  match object with
  | Some a => call std_sort a (Obj.setSelected false) p
  | None => p
  end.

Definition clearSelection (p : Page) : Page :=
  fold_left (fun p a => call std_sort a (Obj.setSelected false) p) (m_objects p) p.

Definition selectAll (p : Page) : Page :=
  fold_left (fun p a => if isVisible p a
                        then call std_sort a (Obj.setSelected true) p else p)
            (m_objects p) p.

Definition moveSelectedObjects (delta : QPoint) (p : Page) : Page :=
  fold_left (fun p a => if isSelected p a
                        then call std_sort a (Obj.moveBy delta) p else p)
            (m_objects p) p.

(** The loop of [Page::deleteSelectedObjects], visiting indices [i-1],
    ..., [0]. *)
Fixpoint deleteSelected_from (p : Page) (i : nat) : Page :=
  match i with
  | O => p
  | S j =>
      let p :=
        match m_objects p !! j with
        | Some a => if isSelected p a then removeObjectAt (Z.of_nat j) p else p
        | None => p
        end in
      deleteSelected_from p j
  end.

Definition deleteSelectedObjects (p : Page) : Page :=
  deleteSelected_from p (length (m_objects p)).

Definition clearObjects (p : Page) : Page :=
  let p := fold_left (fun p a => disconnectObjectSignals a p) (m_objects p) p in
  with_objects [] p.

End Bulk.

End Page.

(** ** Documents: [document.cpp] *)

Module Document.

(** The address a [std::shared_ptr<Page>] holds. *)
Abbreviation PagePtr := nat.

(** What the document and the storage layer read of a page object. *)
Record PageObj := mkPageObj { page_title : string; page_id : string }.

(** Timestamps are milliseconds since the epoch; the [now] arguments
    below stand for [QDateTime::currentDateTime()] as read during the
    call.  The document's outgoing signals are left out. *)
Record Document := mkDocument {
  m_title : string; m_id : string; m_description : string;
  m_createdDate : Z; m_modifiedDate : Z;
  m_pages : list PagePtr; m_currentPage : option PagePtr;
  m_tags : list string;
  m_links : gmap string (list string);  (* QMap<QString, QStringList> *)
  m_modified : bool }.

Definition with_pages (l : list PagePtr) (d : Document) : Document :=
  mkDocument (m_title d) (m_id d) (m_description d) (m_createdDate d)
             (m_modifiedDate d) l (m_currentPage d) (m_tags d) (m_links d)
             (m_modified d).
Definition with_links (m : gmap string (list string)) (d : Document) : Document :=
  mkDocument (m_title d) (m_id d) (m_description d) (m_createdDate d)
             (m_modifiedDate d) (m_pages d) (m_currentPage d) (m_tags d) m
             (m_modified d).

Definition setModified (modified : bool) (d : Document) : Document :=
  if decide (m_modified d <> modified)
  then mkDocument (m_title d) (m_id d) (m_description d) (m_createdDate d)
                  (m_modifiedDate d) (m_pages d) (m_currentPage d) (m_tags d)
                  (m_links d) modified
  else d.

Definition updateModifiedDate (now : Z) (d : Document) : Document :=
  mkDocument (m_title d) (m_id d) (m_description d) (m_createdDate d)
             now (m_pages d) (m_currentPage d) (m_tags d) (m_links d)
             (m_modified d).

Definition markAsModified (now : Z) (d : Document) : Document :=
  setModified true (updateModifiedDate now d).

Definition setCurrentPage (page : option PagePtr) (d : Document) : Document :=
  if decide (m_currentPage d <> page)
  then mkDocument (m_title d) (m_id d) (m_description d) (m_createdDate d)
                  (m_modifiedDate d) (m_pages d) page (m_tags d) (m_links d)
                  (m_modified d)
  else d.

Definition pageAt (index : Z) (d : Document) : option PagePtr :=
  if (0 <=? index) && (index <? QVector.size (m_pages d))
  then QVector.at_ (m_pages d) index
  else None.

Definition setCurrentPageAt (index : Z) (d : Document) : Document :=
  setCurrentPage (pageAt index d) d.

Definition addPage (now : Z) (page : option PagePtr) (d : Document) : Document :=
  match page with
  | None => d
  | Some a =>
      let d := with_pages (m_pages d ++ [a]) d in
      let d := match m_currentPage d with
               | None => setCurrentPage (Some a) d
               | Some _ => d
               end in
      markAsModified now d
  end.

Definition removePage (now : Z) (page : option PagePtr) (d : Document) : Document :=
  match page with
  | None => d
  | Some a =>
      let index := QVector.indexOf a (m_pages d) in
      if 0 <=? index then
        let d := with_pages (QVector.removeAt index (m_pages d)) d in
        let d := if decide (m_currentPage d = Some a) then
                   match m_pages d with
                   | [] => setCurrentPage None d
                   | _ => setCurrentPageAt (Z.max 0 (index - 1)) d
                   end
                 else d in
        markAsModified now d
      else d
  end.

Definition removePageAt (now : Z) (index : Z) (d : Document) : Document :=
  if (0 <=? index) && (index <? QVector.size (m_pages d))
  then removePage now (QVector.at_ (m_pages d) index) d
  else d.

(** [make_shared<Page>(title)] puts a page with the UUID [page_uuid] at
    the address [ptr] of the page heap. *)
Definition createNewPage (now : Z) (title : string) (ptr : PagePtr)
  (page_uuid : string) (heap : gmap nat PageObj) (d : Document)
  : gmap nat PageObj * Document :=
  let page := mkPageObj (if String.eqb title EmptyString then "Untitled Page" else title)
                        page_uuid in
  (<[ptr := page]> heap, addPage now (Some ptr) d).

(** The constructor [Document::Document] that takes a title. *)
Definition Document_titled (title : string) (now : Z) (doc_uuid : string)
  (ptr : PagePtr) (page_uuid : string) (heap : gmap nat PageObj)
  : gmap nat PageObj * Document :=
  createNewPage now "Page 1" ptr page_uuid heap
    (mkDocument title doc_uuid EmptyString now now [] None [] ∅ false).

(** The default constructor [Document::Document]. *)
Definition Document_new := Document_titled "Untitled Document".

(** *** The link table *)

(** [QMap::operator[]]: a missing key is inserted with an empty list. *)
Definition links_ref (k : string) (m : gmap string (list string))
  : gmap string (list string) :=
  match m !! k with Some _ => m | None => <[k := []]> m end.

Definition string_le (a b : string) : Prop := String.leb a b = true.
#[global] Instance string_le_dec a b : Decision (string_le a b).
Proof. unfold string_le. apply _. Defined.

(** The table is visited in ascending key order. *)
Definition getBacklinks (pageId : string) (d : Document) : list string :=
  merge_sort string_le
    (map fst (filter (fun kv : string * list string => pageId ∈ kv.2)
               (map_to_list (m_links d)))).

Definition addLink (now : Z) (fromPageId toPageId : string) (d : Document)
  : Document :=
  let links := links_ref fromPageId (m_links d) in
  let targets := default [] (links !! fromPageId) in
  if decide (toPageId ∈ targets) then with_links links d
  else markAsModified now
         (with_links (<[fromPageId := targets ++ [toPageId]]> links) d).

Definition removeLink (now : Z) (fromPageId toPageId : string) (d : Document)
  : Document :=
  let links := links_ref fromPageId (m_links d) in
  let targets := default [] (links !! fromPageId) in
  let kept := filter (fun t => t <> toPageId) targets in
  let d := with_links (<[fromPageId := kept]> links) d in
  if 0 <? Z.of_nat (length targets) - Z.of_nat (length kept)
  then markAsModified now d else d.

(** *** Page structure and tags *)

Definition with_tags (tags : list string) (d : Document) : Document :=
  mkDocument (m_title d) (m_id d) (m_description d) (m_createdDate d)
             (m_modifiedDate d) (m_pages d) (m_currentPage d) tags (m_links d)
             (m_modified d).

Definition setTitle (now : Z) (title : string) (d : Document) : Document :=
  if decide (m_title d <> title)
  then markAsModified now
         (mkDocument title (m_id d) (m_description d) (m_createdDate d)
                     (m_modifiedDate d) (m_pages d) (m_currentPage d) (m_tags d)
                     (m_links d) (m_modified d))
  else d.

Definition setDescription (now : Z) (description : string) (d : Document)
  : Document :=
  if decide (m_description d <> description)
  then markAsModified now
         (mkDocument (m_title d) (m_id d) description (m_createdDate d)
                     (m_modifiedDate d) (m_pages d) (m_currentPage d) (m_tags d)
                     (m_links d) (m_modified d))
  else d.

(** [qBound(min, value, max)]. *)
Definition qBound (lo v hi : Z) : Z := Z.max lo (Z.min hi v).

Definition insertPage (now : Z) (index : Z) (page : option PagePtr) (d : Document)
  : Document :=
  match page with
  | None => d
  | Some a =>
      let index := qBound 0 index (QVector.size (m_pages d)) in
      let d := with_pages (QVector.insert_at index a (m_pages d)) d in
      let d := match m_currentPage d with
               | None => setCurrentPage (Some a) d
               | Some _ => d
               end in
      markAsModified now d
  end.

Definition clearPages (now : Z) (d : Document) : Document :=
  markAsModified now (setCurrentPage None (with_pages [] d)).

(** The first page of the collection that carries the id. *)
Fixpoint find_page (heap : gmap nat PageObj) (id : string) (ps : list PagePtr)
  : option PagePtr :=
  match ps with
  | [] => None
  | a :: rest =>
      match heap !! a with
      | Some pg => if String.eqb (page_id pg) id then Some a
                   else find_page heap id rest
      | None => find_page heap id rest
      end
  end.

Definition pageById (heap : gmap nat PageObj) (id : string) (d : Document)
  : option PagePtr :=
  find_page heap id (m_pages d).

Definition pageIndex (page : PagePtr) (d : Document) : Z :=
  QVector.indexOf page (m_pages d).

Definition movePage (now : Z) (fromIndex toIndex : Z) (d : Document) : Document :=
  if (0 <=? fromIndex) && (fromIndex <? QVector.size (m_pages d)) &&
     (0 <=? toIndex) && (toIndex <? QVector.size (m_pages d)) &&
     negb (fromIndex =? toIndex)
  then markAsModified now
         (with_pages (QVector.move fromIndex toIndex (m_pages d)) d)
  else d.

Definition setTags (now : Z) (tags : list string) (d : Document) : Document :=
  if decide (m_tags d <> tags) then markAsModified now (with_tags tags d) else d.

Definition addTag (now : Z) (tag : string) (d : Document) : Document :=
  if decide (tag ∈ m_tags d) then d
  else markAsModified now (with_tags (m_tags d ++ [tag]) d).

Definition removeTag (now : Z) (tag : string) (d : Document) : Document :=
  let kept := filter (fun t => t <> tag) (m_tags d) in
  if 0 <? Z.of_nat (length (m_tags d)) - Z.of_nat (length kept)
  then markAsModified now (with_tags kept d)
  else with_tags kept d.

Definition hasTag (tag : string) (d : Document) : bool :=
  bool_decide (tag ∈ m_tags d).

(** The structural operations on the page collection, as a command
    language. *)
Inductive PageCommand :=
| AddPage (a : PagePtr)
| InsertPage (index : Z) (a : PagePtr)
| RemovePage (a : PagePtr)
| RemovePageAt (index : Z)
| MovePage (fromIndex toIndex : Z)
| ClearPages.

Definition perform (now : Z) (c : PageCommand) (d : Document) : Document :=
  match c with
  | AddPage a => addPage now (Some a) d
  | InsertPage i a => insertPage now i (Some a) d
  | RemovePage a => removePage now (Some a) d
  | RemovePageAt i => removePageAt now i d
  | MovePage f t => movePage now f t d
  | ClearPages => clearPages now d
  end.

Definition perform_all (now : Z) (cs : list PageCommand) (d : Document)
  : Document :=
  fold_left (fun d c => perform now c d) cs d.

End Document.

(** ** Storage: [storage.cpp] *)

Module Storage.
Import Document.

Record DocRow := mkDocRow {
  row_title : string; row_description : string;
  row_created_date : Z; row_modified_date : Z;
  row_tags : string; row_data : string }.

Record PageRow := mkPageRow {
  row_document_id : string; row_page_title : string; row_page_data : string }.

(** The [documents] and [pages] tables, keyed by their primary key. *)
Record Tables := mkTables {
  documents : gmap string DocRow;
  pages : gmap string PageRow }.

(** The SQL connection: the committed tables, the working copy of the
    open transaction if there is one, and the outcome of the coming
    write statements, [COMMIT] included ([true]: the statement fails). *)
Record Database := mkDatabase {
  committed : Tables;
  pending : option Tables;
  faults : list bool }.

(** [QSqlDatabase::transaction]: there are no nested transactions. *)
Definition transaction (db : Database) : bool * Database :=
  match pending db with
  | None => (true, mkDatabase (committed db) (Some (committed db)) (faults db))
  | Some _ => (false, db)
  end.

(** [QSqlDatabase::commit] runs the statement [COMMIT], which takes its
    outcome from the script like every other statement.  A [COMMIT] that
    fails leaves the committed tables as they are; the transaction is
    taken to stay open, as SQLite keeps it when the database is busy. *)
Definition commit (db : Database) : bool * Database :=
  match pending db with
  | Some t =>
      match faults db with
      | true :: rest => (false, mkDatabase (committed db) (Some t) rest)
      | _ => (true, mkDatabase t None (tail (faults db)))
      end
  | None => (false, db)
  end.

Definition rollback (db : Database) : bool * Database :=
  match pending db with
  | Some _ => (true, mkDatabase (committed db) None (faults db))
  | None => (false, db)
  end.

(** [QSqlQuery::exec] of a write statement: inside a transaction it
    changes the working copy, outside it is committed at once; a failing
    statement changes nothing. *)
Definition exec (stmt : Tables -> Tables) (db : Database) : bool * Database :=
  match faults db with
  | true :: rest => (false, mkDatabase (committed db) (pending db) rest)
  | _ =>
      match pending db with
      | Some t => (true, mkDatabase (committed db) (Some (stmt t)) (tail (faults db)))
      | None => (true, mkDatabase (stmt (committed db)) None (tail (faults db)))
      end
  end.

Inductive Signal :=
| documentSaved (documentId : string)
| databaseError (error : string).

Record Storage := mkStorage {
  m_database : Database;
  m_initialized : bool;
  emitted : list Signal }.

Definition with_database (db : Database) (s : Storage) : Storage :=
  mkStorage db (m_initialized s) (emitted s).
Definition emit (sig : Signal) (s : Storage) : Storage :=
  mkStorage (m_database s) (m_initialized s) (emitted s ++ [sig]).

Definition beginTransaction (s : Storage) : bool * Storage :=
  let '(ok, db) := transaction (m_database s) in (ok, with_database db s).
Definition commitTransaction (s : Storage) : bool * Storage :=
  let '(ok, db) := commit (m_database s) in (ok, with_database db s).
Definition rollbackTransaction (s : Storage) : bool * Storage :=
  let '(ok, db) := rollback (m_database s) in (ok, with_database db s).

Section WithSerializer.
(** The page objects the document's pointers refer to, and the compact
    JSON serializers [documentToBlob] and [pageToBlob]. *)
Context (heap : gmap nat PageObj).
Context (documentToBlob : Document -> string) (pageToBlob : PageObj -> string).

(** [INSERT OR REPLACE INTO pages (id, document_id, title, data)]. *)
Definition upsert_page (documentId : string) (page : PageObj) (t : Tables) : Tables :=
  mkTables (documents t)
           (<[page_id page := mkPageRow documentId (page_title page) (pageToBlob page)]>
              (pages t)).

(** [INSERT OR REPLACE INTO documents (...)]. *)
Definition upsert_document (d : Document) (t : Tables) : Tables :=
  mkTables
    (<[m_id d := mkDocRow (m_title d) (m_description d) (m_createdDate d)
                          (m_modifiedDate d) (String.concat "," (m_tags d))
                          (documentToBlob d)]> (documents t))
    (pages t).

Definition savePage (documentId : string) (page : option PagePtr) (s : Storage)
  : bool * Storage :=
  if negb (m_initialized s) then (false, s)
  else
    match page ≫= (fun a => heap !! a) with
    | None => (false, s)
    | Some pg =>
        let '(ok, db) := exec (upsert_page documentId pg) (m_database s) in
        let s := with_database db s in
        if ok then (true, s)
        else (false, emit (databaseError "Failed to save page") s)
    end.

(** The loop over [document->pages()], left at the first failure. *)
Fixpoint savePages (documentId : string) (ps : list PagePtr) (s : Storage)
  : bool * Storage :=
  match ps with
  | [] => (true, s)
  | a :: rest =>
      let '(ok, s) := savePage documentId (Some a) s in
      if ok then savePages documentId rest s else (false, s)
  end.

Definition saveDocument (document : option Document) (s : Storage)
  : bool * Storage :=
  match document with
  | None => (false, s)
  | Some d =>
      if negb (m_initialized s) then (false, s)
      else
        let s := snd (beginTransaction s) in
        let '(ok, db) := exec (upsert_document d) (m_database s) in
        let s := with_database db s in
        if negb ok then
          let s := snd (rollbackTransaction s) in
          (false, emit (databaseError "Failed to save document") s)
        else
          let '(ok, s) := savePages (m_id d) (m_pages d) s in
          if negb ok then (false, snd (rollbackTransaction s))
          else
            let s := snd (commitTransaction s) in
            (true, emit (documentSaved (m_id d)) s)
  end.

End WithSerializer.

(** *** Reading and deleting *)

(** The tables a statement of this connection reads: the working copy
    of the open transaction if there is one. *)
Definition visible (db : Database) : Tables :=
  match pending db with Some t => t | None => committed db end.

(** [DELETE FROM pages WHERE document_id = ?]. *)
Definition delete_pages_of (documentId : string) (t : Tables) : Tables :=
  mkTables (documents t)
           (filter (fun kv : string * PageRow => row_document_id kv.2 <> documentId)
                   (pages t)).

(** [DELETE FROM documents WHERE id = ?]. *)
Definition delete_document_row (documentId : string) (t : Tables) : Tables :=
  mkTables (delete documentId (documents t)) (pages t).

(** [DELETE FROM pages WHERE id = ?]. *)
Definition delete_page_row (pageId : string) (t : Tables) : Tables :=
  mkTables (documents t) (delete pageId (pages t)).

(** The [documentDeleted] signal is not recorded. *)
Definition deleteDocument (documentId : string) (s : Storage) : bool * Storage :=
  if negb (m_initialized s) || String.eqb documentId EmptyString then (false, s)
  else
    let s := snd (beginTransaction s) in
    let '(ok, db) := exec (delete_pages_of documentId) (m_database s) in
    let s := with_database db s in
    if negb ok then
      let s := snd (rollbackTransaction s) in
      (false, emit (databaseError "Failed to delete document pages") s)
    else
      let '(ok, db) := exec (delete_document_row documentId) (m_database s) in
      let s := with_database db s in
      if negb ok then
        let s := snd (rollbackTransaction s) in
        (false, emit (databaseError "Failed to delete document") s)
      else (true, snd (commitTransaction s)).

Definition deletePage (pageId : string) (s : Storage) : bool * Storage :=
  if negb (m_initialized s) || String.eqb pageId EmptyString then (false, s)
  else
    let '(ok, db) := exec (delete_page_row pageId) (m_database s) in
    let s := with_database db s in
    if ok then (true, s)
    else (false, emit (databaseError "Failed to delete page") s).


Definition getPageCount (fails : bool) (s : Storage) : Z :=
  if negb (m_initialized s) then 0
  else if fails then 0
  else Z.of_nat (size (pages (visible (m_database s)))).

Section WithParser.
(** [documentFromBlob]: the JSON parser followed by
    [Document::fromJson]; null for a blob that is not JSON. *)
Context (documentFromBlob : string -> option Document).

Definition loadDocument (fails : bool) (documentId : string) (s : Storage)
  : option Document * Storage :=
  if negb (m_initialized s) || String.eqb documentId EmptyString then (None, s)
  else
    match (if fails then None
           else documents (visible (m_database s)) !! documentId) with
    | None => (None, emit (databaseError "Failed to load document") s)
    | Some row => (documentFromBlob (row_data row), s)
    end.

End WithParser.

(** The rows a reader of the store sees once no transaction is open. *)
Definition stored (s : Storage) : Tables := committed (m_database s).

End Storage.

(** ** Reference behaviour and sample inputs *)

Module Samples.
Import Qt.

(** A freshly constructed drawing object: bounds (0, 0, 100, 100),
    layer 0, visible. *)
Definition fresh_drawing (id : string) : Obj.Object := Obj.DrawingObject_new id.

Definition on_layer (l : Z) (o : Obj.Object) : Obj.Object := Obj.with_layer l o.

(** The drawing state of a fresh drawing object. *)
Definition fresh_canvas : Obj.DrawingData :=
  Obj.mkDrawing Obj.PenMode (Obj.setupDefaultPen Obj.PenMode Obj.default_pen)
                (Obj.mkBrush 0) [] [] Obj.empty_stroke false [].

(** The moving average as the specification words it: an incoming point
    is replaced by the mean of the last three raw points (the incoming
    one included) once three raw points have been seen, and passes
    through before.  [raw] lists the raw points seen so far, the
    incoming point last. *)
Definition mean (pts : list QPoint) : QPoint :=
  let sum := fold_left point_add pts (mkPoint 0 0) in
  let count := Z.of_nat (length pts) in
  mkPoint (Z.quot (px sum) count) (Z.quot (py sum) count).

Definition raw_moving_average (raw : list QPoint) : option QPoint :=
  if Z.of_nat (length raw) <? Obj.SMOOTH_WINDOW_SIZE then last raw
  else Some (mean (drop (length raw - 3)%nat raw)).

(** A pen that rests at the origin and then moves away. *)
Definition pen_start : QPoint := mkPoint 0 0.
Definition pen_moves : list QPoint :=
  [mkPoint 0 0; mkPoint 0 0; mkPoint 30 30; mkPoint 60 60].

(** Three objects as a caller creates them, held at the addresses 1, 2
    and 3, and a page that contains none of them yet. *)
Definition studio : gmap nat Obj.Object :=
  <[1%nat := fresh_drawing "A"]>
    (<[2%nat := fresh_drawing "B"]> (<[3%nat := fresh_drawing "C"]> ∅)).

Definition blank_page : Page.Page := Page.mkPage studio [] [].

(** Two objects are put on the layers 1 and 5; the lower one is then
    brought forward. *)
Definition layer_script : list Page.Mutation :=
  [Page.AddObject 1; Page.SetObjectLayer 1 1;
   Page.AddObject 2; Page.SetObjectLayer 2 5;
   Page.BringForward 1].

(** The page the script leaves behind: B, on layer 5, is met before A,
    on layer 1. *)
Definition page_after_script : Page.Page :=
  Page.mkPage
    (<[2%nat := on_layer 5 (fresh_drawing "B")]>
       (<[1%nat := on_layer 1 (fresh_drawing "A")]> studio))
    [2; 1]%nat [2; 1]%nat.

(** A page showing the three objects in the order A, B, C, all on the
    default layer 0, as it is after three calls of [addObject]. *)
Definition page_abc : Page.Page :=
  Page.mkPage studio [1; 2; 3]%nat [3; 2; 1]%nat.

(** The same three objects with their layers equal to their positions. *)
Definition page_indexed : Page.Page :=
  Page.mkPage
    (<[3%nat := on_layer 2 (fresh_drawing "C")]>
       (<[2%nat := on_layer 1 (fresh_drawing "B")]> studio))
    [1; 2; 3]%nat [3; 2; 1]%nat.

(** A point inside the bounds of every fresh object. *)
Definition hit_point : QPoint := mkPoint 50 50.

(** A new document (its first page at the address 10) to which a
    second page, at the address 11, has been added: the pages are 10, 11
    and the current page is 10. *)
Definition two_pages : Document.Document :=
  Document.addPage 1 (Some 11%nat)
    (Document.Document_new 0 "doc" 10%nat "page-1" ∅).2.

(** The rule for the current page as the specification words it: when
    the current page, at index [i], is removed, the current page becomes
    the page previously at index [i - 1], or null when no page is
    left. *)
Definition selects_previous_page (before after : Document.Document)
  (removed : nat) : Prop :=
  Document.m_currentPage before = Some removed ->
  Document.m_currentPage after =
    match Document.m_pages after with
    | [] => None
    | _ => Document.pageAt
             (QVector.indexOf removed (Document.m_pages before) - 1) before
    end.

(** The strokes of a drawing whose index is not selected; [k] is the
    index of the first stroke of the list. *)
Fixpoint unselected_from (k : Z) (selected : list Z) (strokes : list Obj.Stroke)
  : list Obj.Stroke :=
  match strokes with
  | [] => []
  | s :: rest =>
      if decide (k ∈ selected) then unselected_from (k + 1) selected rest
      else s :: unselected_from (k + 1) selected rest
  end.

Definition unselected_strokes (d : Obj.DrawingData) : list Obj.Stroke :=
  unselected_from 0 (Obj.m_selectedStrokes d) (Obj.m_strokes d).

(** The selection of strokes names each stroke once and only strokes
    that exist. *)
Definition valid_selection (d : Obj.DrawingData) : Prop :=
  NoDup (Obj.m_selectedStrokes d) /\
  forall i, i ∈ Obj.m_selectedStrokes d -> Drawing.in_range i d = true.

(** A drawing with three strokes, told apart by their timestamps, of
    which the strokes 0 and 2 are selected. *)
Definition three_strokes : Obj.DrawingData :=
  Drawing.with_strokes
    [Obj.mkStroke [] Obj.default_pen Obj.default_brush Obj.PenMode 100;
     Obj.mkStroke [] Obj.default_pen Obj.default_brush Obj.PenMode 101;
     Obj.mkStroke [] Obj.default_pen Obj.default_brush Obj.PenMode 102]
    [2; 0] fresh_canvas.

(** The drawing state of a fresh drawing object switched to the
    eraser. *)
Definition eraser_canvas : Obj.DrawingData :=
  Drawing.setCurrentMode Obj.EraserMode fresh_canvas.

(** Stand-ins for the functions taken from Qt, to run the model on
    sample objects: every colour is written as black, every path as the
    empty path. *)
Definition plain_qt : Obj.QtLib :=
  {| Obj.colorName := fun _ => "#000000"%string;
     Obj.colorFromName := fun _ => Obj.black;
     Obj.toSvgPath := fun _ => EmptyString;
     Obj.fromSvgPath := fun _ => [];
     Obj.applicationFont := Obj.font "Sans" 12 false;
     Obj.documentHeight := fun _ _ => 0%Z |}.

(** The current page is one of the document's pages, and there is none
    only when the document has no page. *)
Definition current_page_valid (d : Document.Document) : Prop :=
  match Document.m_currentPage d with
  | None => Document.m_pages d = []
  | Some a => a ∈ Document.m_pages d
  end.

(** An editing session on the page collection of [two_pages]. *)
Definition page_session : list Document.PageCommand :=
  [Document.InsertPage 0 12%nat; Document.MovePage 0 2;
   Document.RemovePage 10%nat; Document.RemovePageAt 5;
   Document.ClearPages; Document.AddPage 13%nat].

(** The page objects behind the pointers of [two_pages], an open store
    without rows in which no statement fails, and the same store when
    its second write statement fails. *)
Definition two_pages_heap : gmap nat Document.PageObj :=
  <[10%nat := Document.mkPageObj "Page 1" "page-1"]>
    (<[11%nat := Document.mkPageObj "Page 2" "page-2"]> ∅).

Definition empty_store : Storage.Storage :=
  Storage.mkStorage (Storage.mkDatabase (Storage.mkTables ∅ ∅) None []) true [].

Definition faulty_store : Storage.Storage :=
  Storage.mkStorage
    (Storage.mkDatabase (Storage.mkTables ∅ ∅) None [false; true]) true [].

(** An open store without rows in which the three writes of a save of
    [two_pages] go through and the [COMMIT] that follows fails. *)
Definition busy_store : Storage.Storage :=
  Storage.mkStorage
    (Storage.mkDatabase (Storage.mkTables ∅ ∅) None [false; false; false; true])
    true [].

(** Stand-ins for the JSON serializers: a document is written as its
    title, a page as its id. *)
Definition title_blob (d : Document.Document) : string := Document.m_title d.
Definition id_blob (pg : Document.PageObj) : string := Document.page_id pg.

(** [two_pages] saved in the empty store. *)
Definition saved_store : Storage.Storage :=
  (Storage.saveDocument two_pages_heap title_blob id_blob (Some two_pages)
     empty_store).2.

End Samples.

(** * Properties *)

(** ** Objects *)

Section ObjectFacts.
Import Qt Obj.
Context (qt : QtLib).

Lemma setBounds_id r o : m_id (setBounds r o).1 = m_id o.
Proof. unfold setBounds. by case_decide. Qed.

Lemma setBounds_payload r o : payload (setBounds r o).1 = payload o.
Proof. unfold setBounds. by case_decide. Qed.

Lemma setBounds_layer r o : m_layer (setBounds r o).1 = m_layer o.
Proof. unfold setBounds. by case_decide. Qed.

Lemma setBounds_visible r o : m_visible (setBounds r o).1 = m_visible o.
Proof. unfold setBounds. by case_decide. Qed.

Lemma setBounds_bounds r o : m_bounds (setBounds r o).1 = r.
Proof.
  unfold setBounds. case_decide as H; [done|].
  simpl. destruct (decide (m_bounds o = r)); [done | contradiction].
Qed.

Lemma setupDocument_id o : m_id (setupDocument qt o).1 = m_id o.
Proof.
  unfold setupDocument, updateDocumentSize, setSize.
  destruct (payload o); [|done]. case_decide; [apply setBounds_id | done].
Qed.

Lemma setupDocument_payload o : payload (setupDocument qt o).1 = payload o.
Proof.
  unfold setupDocument, updateDocumentSize, setSize.
  destruct (payload o) eqn:E; [|done].
  case_decide; [by rewrite setBounds_payload | done].
Qed.

Lemma setupDocument_layer o : m_layer (setupDocument qt o).1 = m_layer o.
Proof.
  unfold setupDocument, updateDocumentSize, setSize.
  destruct (payload o); [|done]. case_decide; [apply setBounds_layer | done].
Qed.

Lemma setupDocument_visible o : m_visible (setupDocument qt o).1 = m_visible o.
Proof.
  unfold setupDocument, updateDocumentSize, setSize.
  destruct (payload o); [|done]. case_decide; [apply setBounds_visible | done].
Qed.

Lemma TextObject_new_payload fresh :
  exists t, payload (TextObject_new qt fresh) = Text t.
Proof. unfold TextObject_new. rewrite setupDocument_payload. simpl. eauto. Qed.

(** The constructor draws a fresh id ... *)
Lemma TextObject_new_id fresh : m_id (TextObject_new qt fresh) = fresh.
Proof. unfold TextObject_new. by rewrite setupDocument_id. Qed.

Lemma DrawingObject_new_id fresh : m_id (DrawingObject_new fresh) = fresh.
Proof. reflexivity. Qed.

(** ... and [fromJson] replaces it by the id stored in the JSON object. *)
Lemma fromJson_id json o :
  m_id (fromJson qt json o) = Json.toString (Json.get json "id").
Proof.
  unfold fromJson. destruct (payload o).
  - unfold TextObject_fromJson. by rewrite setupDocument_id.
  - reflexivity.
Qed.

Lemma toJson_id o : Json.toString (Json.get (toJson qt o) "id") = m_id o.
Proof. unfold toJson. by destruct (payload o). Qed.

Lemma toJson_layer o : Json.toInt (Json.get (toJson qt o) "layer") = m_layer o.
Proof. unfold toJson. by destruct (payload o). Qed.

Lemma toJson_visible o :
  Json.toBool (Json.get (toJson qt o) "visible") = m_visible o.
Proof. unfold toJson. by destruct (payload o). Qed.

Lemma fromJson_layer json o :
  m_layer (fromJson qt json o) = Json.toInt (Json.get json "layer").
Proof.
  unfold fromJson. destruct (payload o).
  - unfold TextObject_fromJson. by rewrite setupDocument_layer.
  - reflexivity.
Qed.

Lemma fromJson_visible json o :
  m_visible (fromJson qt json o) = Json.toBool (Json.get json "visible").
Proof.
  unfold fromJson. destruct (payload o).
  - unfold TextObject_fromJson. by rewrite setupDocument_visible.
  - reflexivity.
Qed.

(** Layer and visibility do survive cloning. *)
Lemma clone_layer fresh o : m_layer (clone qt fresh o) = m_layer o.
Proof.
  unfold clone. destruct (payload o) eqn:E;
    by rewrite fromJson_layer, toJson_layer.
Qed.

Lemma clone_visible fresh o : m_visible (clone qt fresh o) = m_visible o.
Proof.
  unfold clone. destruct (payload o) eqn:E;
    by rewrite fromJson_visible, toJson_visible.
Qed.

(** The text of a text object survives cloning. *)
Lemma clone_content fresh o t :
  payload o = Text t ->
  exists t', payload (clone qt fresh o) = Text t' /\ m_content t' = m_content t.
Proof.
  intros E. unfold clone. rewrite E.
  destruct (TextObject_new_payload fresh) as [t0 E0].
  unfold fromJson. rewrite E0. unfold TextObject_fromJson.
  rewrite setupDocument_payload. simpl. eexists. split; [reflexivity|].
  simpl. unfold toJson. by rewrite E.
Qed.

(** C1 (as the code behaves): [clone] returns an object that carries the
    id of the original, for text and drawing objects alike: the UUID the
    constructor draws for the copy is overwritten when the copy reads the
    original's JSON, whose "id" field is the original's id. *)
Theorem clone_keeps_id (fresh : string) (o : Object) :
  m_id (clone qt fresh o) = m_id o.
Proof.
  unfold clone. destruct (payload o) eqn:E;
    by rewrite fromJson_id, toJson_id.
Qed.

End ObjectFacts.

Section GeometryFacts.
Import Qt Obj.
Local Open Scope Z_scope.

Lemma wrap_small z : - 2 ^ 31 <= z < 2 ^ 31 -> wrap z = z.
Proof.
  intros H. unfold wrap. rewrite Z.mod_small; lia.
Qed.

(** Where the centre lands when a rectangle of width [w] is placed with
    its left edge at [cx - w / 2], as [Object::scale] does: one unit to
    the left of [cx] whenever [w] is even and [cx] is positive. *)
Lemma recentred_left_edge cx w :
  0 <= w < 2 ^ 30 -> - 2 ^ 30 <= cx < 2 ^ 30 ->
  Z.quot (wrap (cx - Z.quot w 2) + wrap (wrap (cx - Z.quot w 2) + w - 1)) 2
  = if Z.even w && (0 <? cx) then cx - 1 else cx.
Proof.
  intros Hw Hc.
  assert (Hq : 0 <= Z.quot w 2 <= w) by (split; [apply Z.quot_pos | apply Z.quot_le_upper_bound]; lia).
  assert (H2 : w = 2 * Z.quot w 2 + Z.rem w 2) by (apply Z.quot_rem'; lia).
  assert (Hr : 0 <= Z.rem w 2 < 2) by (apply Z.rem_bound_pos; lia).
  rewrite (wrap_small (cx - Z.quot w 2)) by lia.
  rewrite wrap_small by lia.
  destruct (Z.even w) eqn:Ev.
  - apply Zeven_bool_iff in Ev. rewrite Zeven_ex_iff in Ev. destruct Ev as [k ->].
    replace (Z.quot (2 * k) 2) with k in *
      by (symmetry; rewrite Z.mul_comm; apply Z.quot_mul; lia).
    replace (cx - k + (cx - k + 2 * k - 1)) with (2 * cx - 1) by lia.
    simpl. destruct (0 <? cx) eqn:Ec.
    + apply Z.ltb_lt in Ec. symmetry. apply Z.quot_unique with (r := 1); lia.
    + apply Z.ltb_ge in Ec.
      replace (2 * cx - 1) with (- (2 * (- cx) + 1)) by lia.
      rewrite Z.quot_opp_l by lia.
      replace (Z.quot (2 * - cx + 1) 2) with (- cx); [lia|].
      apply Z.quot_unique with (r := 1); lia.
  - assert (Z.odd w = true) as Od by (rewrite <- Z.negb_even, Ev; done).
    apply Zodd_bool_iff in Od. rewrite Zodd_ex_iff in Od. destruct Od as [k ->].
    assert (Z.quot (2 * k + 1) 2 = k) as ->
      by (symmetry; apply Z.quot_unique with (r := 1); lia).
    simpl. replace (cx - k + (cx - k + (2 * k + 1) - 1)) with (cx * 2) by lia.
    apply Z.quot_mul; lia.
Qed.

(** [Object::scale] in general: the stored size is the truncated product,
    and each centre coordinate is kept when the new extent is odd or the
    coordinate is not positive, and drops by one otherwise. *)
Lemma scale_centre (f : float) (o : Object) (w h : Z) :
  double_to_int (int_to_double (width (m_bounds o)) * f)%float = Some w ->
  double_to_int (int_to_double (height (m_bounds o)) * f)%float = Some h ->
  0 <= w < 2 ^ 30 -> 0 <= h < 2 ^ 30 ->
  - 2 ^ 30 <= px (Qt.center (m_bounds o)) < 2 ^ 30 ->
  - 2 ^ 30 <= py (Qt.center (m_bounds o)) < 2 ^ 30 ->
  exists o' sigs, scale f o = Some (o', sigs) /\
    Qt.center (m_bounds o') =
      mkPoint
        (let cx := px (Qt.center (m_bounds o)) in
         if Z.even w && (0 <? cx) then cx - 1 else cx)
        (let cy := py (Qt.center (m_bounds o)) in
         if Z.even h && (0 <? cy) then cy - 1 else cy).
Proof.
  intros Ew Eh Hw Hh Hx Hy. unfold scale. rewrite Ew, Eh.
  destruct (setBounds _ o) as [o' sigs] eqn:E.
  exists o', sigs. split; [done|].
  pose proof (setBounds_bounds
    (rect_at (point_sub (Qt.center (m_bounds o))
                (mkPoint (Z.quot (sw (mkSize w h)) 2) (Z.quot (sh (mkSize w h)) 2)))
             (mkSize w h)) o) as Hb.
  rewrite E in Hb. simpl in Hb. rewrite Hb.
  unfold Qt.center at 1. unfold rect_at, rect, point_sub. simpl.
  f_equal; by apply recentred_left_edge.
Qed.

(** C6 (as the code behaves): scaling a freshly constructed object by the
    factor 1.0 keeps its size of 100 by 100 but moves it: the bounds go
    from (0, 0, 100, 100) to (-1, -1, 100, 100) and the centre from
    (49, 49) to (48, 48). *)
Theorem scale_by_one_moves_centre :
  let o := Samples.fresh_drawing "o" in
  Qt.center (m_bounds o) = mkPoint 49 49 /\
  (m_bounds ∘ fst) <$> scale 1%float o = Some (rect (-1) (-1) 100 100) /\
  Qt.center (rect (-1) (-1) 100 100) = mkPoint 48 48.
Proof. vm_compute. auto. Qed.

(** The new size is the product truncated toward zero, with no clamping:
    shrinking by the factor -0.375 stores a width and height of -37. *)
Lemma scale_negative_factor_not_clamped :
  (Qt.size ∘ m_bounds ∘ fst) <$> scale (-0.375)%float (Samples.fresh_drawing "o")
  = Some (mkSize (-37) (-37)).
Proof. vm_compute. reflexivity. Qed.

End GeometryFacts.

Section SmoothingFacts.
Import Qt Obj.

(** Below the window size the raw point passes through. *)
Lemma smoothPoint_passthrough d point :
  (length (m_smoothPoints d) < 3)%nat -> smoothPoint d point = point.
Proof.
  intros H. unfold smoothPoint, SMOOTH_WINDOW_SIZE.
  destruct (Z.ltb_spec (Z.of_nat (length (m_smoothPoints d))) 3); [done | lia].
Qed.

(** Once the window is full the result does not depend on the incoming
    point at all. *)
Lemma smoothPoint_ignores_point d p q :
  (3 <= length (m_smoothPoints d))%nat -> smoothPoint d p = smoothPoint d q.
Proof.
  intros H. unfold smoothPoint, SMOOTH_WINDOW_SIZE.
  destruct (Z.ltb_spec (Z.of_nat (length (m_smoothPoints d))) 3); [lia | done].
Qed.

(** C8 (as the code behaves): for a pen that rests at the origin for
    three points and then moves to (30, 30) and (60, 60), the points that
    replace the incoming ones are all the origin, whereas the mean of the
    last three raw points is (10, 10) for the fourth and (30, 30) for the
    fifth point: the window holds the already smoothed points and never
    the incoming one.  Every line of the stroke then leads to the
    position the path is at, so the path stays at its first element and
    [finishStroke] stores no stroke. *)
Theorem smoothing_averages_smoothed_points :
  let d := capture 0 Samples.pen_start Samples.pen_moves Samples.fresh_canvas in
  m_smoothPoints d
  = [mkPoint 0 0; mkPoint 0 0; mkPoint 0 0; mkPoint 0 0; mkPoint 0 0]
  /\ path (m_currentStroke d) = [MoveTo (mkPoint 0 0)]
  /\ m_strokes (finishStroke d).1 = []
  /\ Samples.raw_moving_average (Samples.pen_start :: take 3 Samples.pen_moves)
     = Some (mkPoint 10 10)
  /\ Samples.raw_moving_average (Samples.pen_start :: Samples.pen_moves)
     = Some (mkPoint 30 30).
Proof. vm_compute. auto. Qed.

End SmoothingFacts.

(** ** Sorting *)

Section SortFacts.
Import Page.

Lemma insert_sorted_perm cmp x l : insert_sorted cmp x l ≡ₚ x :: l.
Proof.
  induction l as [|y l IH]; simpl; [done|].
  destruct (cmp x y); [done|]. rewrite IH. apply Permutation_swap.
Qed.

Lemma fold_insert_perm cmp l acc :
  fold_left (fun acc x => insert_sorted cmp x acc) l acc ≡ₚ acc ++ l.
Proof.
  revert acc. induction l as [|x l IH]; intros acc; simpl.
  - by rewrite app_nil_r.
  - rewrite IH, insert_sorted_perm. simpl. apply Permutation_middle.
Qed.

Lemma insert_sorted_sorted cmp (key : nat -> Z) x l :
  (forall a b, cmp a b = (key a <? key b)) ->
  StronglySorted (fun a b => key a <= key b) l ->
  StronglySorted (fun a b => key a <= key b) (insert_sorted cmp x l).
Proof.
  intros Hc. induction 1 as [|y l Hl IH Hy]; simpl.
  - repeat constructor.
  - rewrite Hc. destruct (Z.ltb_spec (key x) (key y)) as [Hlt|Hge].
    + constructor; [by constructor|].
      constructor; [lia|]. eapply Forall_impl; [exact Hy|]. simpl. intros. lia.
    + constructor; [done|].
      rewrite (insert_sorted_perm cmp x l). by constructor.
Qed.

Lemma fold_insert_sorted cmp (key : nat -> Z) l acc :
  (forall a b, cmp a b = (key a <? key b)) ->
  StronglySorted (fun a b => key a <= key b) acc ->
  StronglySorted (fun a b => key a <= key b)
    (fold_left (fun acc x => insert_sorted cmp x acc) l acc).
Proof.
  intros Hc. revert acc. induction l as [|x l IH]; intros acc Hacc; simpl; [done|].
  apply IH. by apply insert_sorted_sorted.
Qed.

(** Insertion sort meets the contract of [std::sort]. *)
#[global] Instance insertion_sort_StdSort : StdSort insertion_sort.
Proof.
  split.
  - intros cmp key l _. unfold insertion_sort. by rewrite fold_insert_perm.
  - intros cmp key l Hc. unfold insertion_sort.
    apply fold_insert_sorted; [done | constructor].
Qed.

#[global] Instance reversing_sort_StdSort : StdSort reversing_sort.
Proof.
  split.
  - intros cmp key l Hc. unfold reversing_sort.
    rewrite (std_sort_perm (std_sort := insertion_sort) cmp key (rev l) Hc).
    apply Permutation_sym, Permutation_rev.
  - intros cmp key l Hc. unfold reversing_sort. by apply std_sort_sorted.
Qed.

Lemma strictly_sorted_key_inj (key : nat -> Z) l x y :
  StronglySorted (fun a b => key a < key b) l ->
  x ∈ l -> y ∈ l -> key x = key y -> x = y.
Proof.
  induction 1 as [|z l Hl IH Hz]; intros Hx Hy E.
  - by apply elem_of_nil in Hx.
  - rewrite Forall_forall in Hz.
    apply elem_of_cons in Hx as [->|Hx]; apply elem_of_cons in Hy as [->|Hy];
      [done | | | by apply IH].
    + specialize (Hz _ Hy). lia.
    + specialize (Hz _ Hx). lia.
Qed.

Lemma strictly_sorted_weaken (key : nat -> Z) l :
  StronglySorted (fun a b => key a < key b) l ->
  StronglySorted (fun a b => key a <= key b) l.
Proof.
  induction 1 as [|z l Hl IH Hz]; constructor; [done|].
  eapply Forall_impl; [exact Hz|]. simpl. intros. lia.
Qed.

(** With pairwise different keys the contract leaves one possible
    result. *)
Lemma std_sort_unique std_sort `{!StdSort std_sort} cmp (key : nat -> Z) l l' :
  (forall a b, cmp a b = (key a <? key b)) ->
  l' ≡ₚ l ->
  StronglySorted (fun a b => key a < key b) l' ->
  std_sort cmp l = l'.
Proof.
  intros Hc Hp Hs.
  apply (StronglySorted_unique_strong (fun a b => key a <= key b)).
  - intros x1 x2 H1 H2 Hle Hge.
    apply (strictly_sorted_key_inj key l'); [done | | done | lia].
    by rewrite Hp, <- (std_sort_perm cmp key l Hc).
  - by apply std_sort_sorted.
  - by apply strictly_sorted_weaken.
  - by rewrite (std_sort_perm cmp key l Hc).
Qed.

(** In a sorted list the greatest key sits at the end. *)
Lemma sorted_last_max (key : nat -> Z) l z x :
  StronglySorted (fun a b => key a <= key b) (l ++ [z]) ->
  x ∈ l ++ [z] -> key x <= key z.
Proof.
  intros Hs Hx. apply elem_of_app in Hx as [Hx|Hx].
  - apply (StronglySorted_app_1_elem_of (fun a b => key a <= key b) l [z]);
      [done | done | by left].
  - apply list_elem_of_singleton in Hx as ->. lia.
Qed.

End SortFacts.

(** ** Pages *)

Section PageFacts.
Import Qt Page.
Context (std_sort : (nat -> nat -> bool) -> list nat -> list nat).
Context `{!StdSort std_sort}.

Lemma layers_sort p :
  layers (sortObjectsByLayer std_sort p)
  = map (layer_of p)
        (std_sort (fun a b => layer_of p a <? layer_of p b) (m_objects p)).
Proof. reflexivity. Qed.

(** [sortObjectsByLayer] establishes the layer order. *)
Lemma sortObjectsByLayer_sorted p : layer_sorted (sortObjectsByLayer std_sort p).
Proof.
  unfold layer_sorted. rewrite layers_sort.
  pose proof (std_sort_sorted (fun a b => layer_of p a <? layer_of p b)
                (layer_of p) (m_objects p) (fun _ _ => eq_refl)) as Hs.
  induction Hs as [|x l Hl IH Hx]; simpl; constructor; [done|].
  rewrite Forall_map. exact Hx.
Qed.

(** The operations that end in a re-sort leave the page in layer
    order. *)
Lemma addObject_sorted a p : layer_sorted (addObject std_sort (Some a) p).
Proof. apply sortObjectsByLayer_sorted. Qed.

Lemma setObjectLayer_sorted a l p :
  layer_sorted (setObjectLayer std_sort (Some a) l p).
Proof. apply sortObjectsByLayer_sorted. Qed.

Lemma sorted_delete (l : list Z) i :
  StronglySorted Z.le l -> StronglySorted Z.le (delete i l).
Proof.
  intros H. revert i. induction H as [|x l Hl IH Hx]; intros [|i]; simpl;
    [constructor | constructor | done |].
  constructor; [apply IH|].
  rewrite Forall_forall in Hx |- *. intros y Hy.
  by apply Hx, (list_subseteq_delete i l).
Qed.

(** Taking an object out keeps the layer order. *)
Lemma removeObject_sorted a p :
  layer_sorted p -> layer_sorted (removeObject (Some a) p).
Proof.
  intros Hs. unfold removeObject.
  destruct (Z.leb_spec 0 (QVector.indexOf a (m_objects p))) as [Hi|]; [|done].
  unfold layer_sorted, layers, QVector.removeAt. simpl.
  destruct (Z.ltb_spec (QVector.indexOf a (m_objects p)) 0); [lia|].
  change (map (layer_of _) ?l) with (layer_of p <$> l).
  rewrite list_fmap_delete. by apply sorted_delete.
Qed.

(** *** Hit testing *)

Lemma objectAt_from_Some p point i a :
  objectAt_from p point i = Some a ->
  exists j, (j < i)%nat /\ m_objects p !! j = Some a /\ hit p point a = true /\
    forall k b, (j < k < i)%nat -> m_objects p !! k = Some b -> hit p point b = false.
Proof.
  induction i as [|i IH]; simpl; [done|].
  destruct (m_objects p !! i) as [c|] eqn:Ei.
  - destruct (hit p point c) eqn:Eh.
    + intros [= ->]. exists i. repeat split; [lia | done | done |]. intros; lia.
    + intros H. destruct (IH H) as (j & Hj & Hl & Hh & Hrest).
      exists j. repeat split; [lia | done | done |].
      intros k b Hk Hb. destruct (decide (k = i)) as [->|Hne].
      * rewrite Ei in Hb. by injection Hb as <-.
      * apply (Hrest k b); [lia | done].
  - intros H. destruct (IH H) as (j & Hj & Hl & Hh & Hrest).
    exists j. repeat split; [lia | done | done |].
    intros k b Hk Hb. destruct (decide (k = i)) as [->|Hne]; [congruence|].
    apply (Hrest k b); [lia | done].
Qed.

Lemma objectAt_from_None p point i :
  objectAt_from p point i = None ->
  forall k b, (k < i)%nat -> m_objects p !! k = Some b -> hit p point b = false.
Proof.
  induction i as [|i IH]; simpl; [intros; lia|].
  destruct (m_objects p !! i) as [c|] eqn:Ei.
  - destruct (hit p point c) eqn:Eh; [done|].
    intros H k b Hk Hb. destruct (decide (k = i)) as [->|Hne].
    + rewrite Ei in Hb. by injection Hb as <-.
    + apply (IH H k b); [lia | done].
  - intros H k b Hk Hb. destruct (decide (k = i)) as [->|Hne]; [congruence|].
    apply (IH H k b); [lia | done].
Qed.

(** [objectAt] answers with a visible object of the page whose bounds
    contain the point: the last such object in iteration order. *)
Lemma objectAt_Some p point a :
  objectAt p point = Some a ->
  exists j, m_objects p !! j = Some a /\
    isVisible p a = true /\ contains p a point = true /\
    forall k b, (j < k)%nat -> m_objects p !! k = Some b -> hit p point b = false.
Proof.
  intros H. apply objectAt_from_Some in H as (j & Hj & Hl & Hh & Hrest).
  unfold hit in Hh. apply andb_true_iff in Hh as [Hv Hc].
  exists j. repeat split; [done..|].
  intros k b Hk Hb. apply (Hrest k b); [|done].
  split; [done|]. by apply lookup_lt_Some in Hb.
Qed.

(** It answers null exactly when no visible object contains the point. *)
Lemma objectAt_None p point :
  objectAt p point = None <->
  forall b, b ∈ m_objects p -> hit p point b = false.
Proof.
  split.
  - intros H b Hb. apply list_elem_of_lookup in Hb as [k Hk].
    apply (objectAt_from_None p point _ H k b); [|done].
    by apply lookup_lt_Some in Hk.
  - intros H. destruct (objectAt p point) as [a|] eqn:E; [|done].
    apply objectAt_Some in E as (j & Hl & Hv & Hc & _).
    assert (hit p point a = false) as Hf
      by (apply H, list_elem_of_lookup; eauto).
    unfold hit in Hf. by rewrite Hv, Hc in Hf.
Qed.

Lemma sorted_lookup_le (l : list Z) i j x y :
  StronglySorted Z.le l -> (i <= j)%nat ->
  l !! i = Some x -> l !! j = Some y -> x <= y.
Proof.
  intros Hs. revert i j. induction Hs as [|z l Hl IH Hz]; intros i j Hij Hi Hj.
  - done.
  - destruct i as [|i], j as [|j]; simpl in *.
    + simplify_eq. lia.
    + simplify_eq. rewrite Forall_forall in Hz. apply Hz.
      by eapply list_elem_of_lookup_2.
    + lia.
    + apply (IH i j); [lia | done | done].
Qed.

(** On a page in layer order the answer is a topmost hit. *)
Lemma objectAt_topmost p point a b :
  layer_sorted p -> objectAt p point = Some a ->
  b ∈ m_objects p -> hit p point b = true ->
  layer_of p b <= layer_of p a.
Proof.
  intros Hs Ha Hb Hh.
  apply objectAt_Some in Ha as (j & Hj & _ & _ & Hrest).
  apply list_elem_of_lookup in Hb as [k Hk].
  destruct (decide (k <= j)%nat) as [Hle|Hgt].
  - apply (sorted_lookup_le (layers p) k j); [done | done | |];
      unfold layers; rewrite list_lookup_fmap; [by rewrite Hk | by rewrite Hj].
  - rewrite (Hrest k b) in Hh; [done | lia | done].
Qed.

(** *** Z-order *)

(** At the boundary the two neighbour moves change nothing. *)
Lemma bringForward_last_noop p a :
  QVector.indexOf a (m_objects p) = QVector.size (m_objects p) - 1 ->
  bringForward std_sort (Some a) p = p.
Proof.
  intros H. unfold bringForward. rewrite H.
  destruct (Z.ltb_spec (QVector.size (m_objects p) - 1)
                       (QVector.size (m_objects p) - 1)); [lia|].
  by rewrite andb_false_r.
Qed.

Lemma sendBackward_first_noop p a :
  QVector.indexOf a (m_objects p) = 0 ->
  sendBackward std_sort (Some a) p = p.
Proof. intros H. unfold sendBackward. by rewrite H. Qed.

(** Whatever object carries the single greatest key ends up last. *)
Lemma std_sort_greatest_last cmp (key : nat -> Z) l top :
  (forall a b, cmp a b = (key a <? key b)) ->
  top ∈ l -> (forall x, x ∈ l -> x <> top -> key x < key top) ->
  last (std_sort cmp l) = Some top.
Proof.
  intros Hc Ht Hmax.
  pose proof (std_sort_perm cmp key l Hc) as Hp.
  pose proof (std_sort_sorted cmp key l Hc) as Hs.
  destruct (std_sort cmp l) as [|x s] using rev_ind.
  - rewrite <- Hp in Ht. by apply elem_of_nil in Ht.
  - rewrite last_snoc. f_equal.
    destruct (decide (x = top)) as [|Hne]; [done|]. exfalso.
    assert (x ∈ l) as Hx by (rewrite <- Hp; apply elem_of_app; right; by left).
    assert (key top <= key x) as Hle
      by (apply (sorted_last_max key s x top Hs); rewrite Hp; done).
    specialize (Hmax x Hx Hne). lia.
Qed.

Ltac sort_is P l' :=
  match goal with
  | |- context [std_sort ?cmp ?l] =>
      rewrite (std_sort_unique std_sort cmp (layer_of P) l l');
      [ | intros; reflexivity
        | first [reflexivity | apply perm_swap]
        | repeat constructor; vm_compute; reflexivity ]
  end.

(** The script of mutations ends, for every conforming [std::sort], in
    the page [page_after_script]. *)
Lemma layer_script_result :
  run std_sort Samples.layer_script Samples.blank_page = Samples.page_after_script.
Proof.
  unfold Samples.layer_script, run. cbn [fold_left]. cbv beta iota delta [apply].
  pose (A1 := Samples.on_layer 1 (Samples.fresh_drawing "A")).
  pose (P1 := mkPage Samples.studio [1%nat] [1%nat]).
  pose (P2 := mkPage (<[1%nat := A1]> Samples.studio) [1%nat] [1%nat]).
  pose (P3 := mkPage (store P2) [2; 1]%nat [2; 1]%nat).
  pose (P4 := mkPage (<[2%nat := Samples.on_layer 5 (Samples.fresh_drawing "B")]> (store P2))
                     [1; 2]%nat [2; 1]%nat).
  assert (addObject std_sort (Some 1%nat) Samples.blank_page = P1) as ->.
  { vm_compute. sort_is P1 [1%nat]. reflexivity. }
  assert (setObjectLayer std_sort (Some 1%nat) 1 P1 = P2) as ->.
  { vm_compute. sort_is P2 [1%nat]. sort_is P2 [1%nat]. reflexivity. }
  assert (addObject std_sort (Some 2%nat) P2 = P3) as ->.
  { vm_compute. sort_is P3 [2; 1]%nat. reflexivity. }
  assert (setObjectLayer std_sort (Some 2%nat) 5 P3 = P4) as ->.
  { vm_compute. sort_is P4 [1; 2]%nat. sort_is P4 [1; 2]%nat. reflexivity. }
  vm_compute. reflexivity.
Qed.

(** C3 (as the code behaves): with A on layer 1 and B on layer 5,
    [bringForward(A)] moves A behind B and leaves its layer at 1, since
    [setLayer(1)] changes nothing and so triggers no re-sort: iterating
    the page then yields the layers 5, 1.  This holds for every
    [std::sort] that meets the standard's contract. *)
Theorem bringForward_breaks_layer_order :
  layers (run std_sort Samples.layer_script Samples.blank_page) = [5; 1].
Proof. rewrite layer_script_result. vm_compute. reflexivity. Qed.

(** C4 (as the code behaves): on the page left by the script, A (layer 1)
    and B (layer 5) are both visible and both contain the point
    (50, 50); [objectAt] visits the collection from its end and answers
    with A, the object on the lower layer. *)
Theorem objectAt_returns_lower_layer :
  let p := run std_sort Samples.layer_script Samples.blank_page in
  objectAt p Samples.hit_point = Some 1%nat /\ layer_of p 1%nat = 1 /\
  hit p Samples.hit_point 2%nat = true /\ layer_of p 2%nat = 5.
Proof. rewrite layer_script_result. vm_compute. auto. Qed.

(** C5 (as the code behaves): on a page showing A, B, C, all on layer
    0, [bringForward(A)] first swaps A with B and then sets A's layer to
    1; the layer change re-sorts the page, which puts A last, behind C
    as well.  [sendBackward(C)] swaps C with B, sets C's layer to 1 and
    the re-sort puts C last again.  Neither ends as a swap of
    neighbours, whatever conforming [std::sort] is used. *)
Theorem neighbour_moves_are_resorted :
  let forward := bringForward std_sort (Some 1%nat) Samples.page_abc in
  let backward := sendBackward std_sort (Some 3%nat) Samples.page_abc in
  last (m_objects forward) = Some 1%nat /\
  m_objects forward <> [2; 1; 3]%nat /\
  last (m_objects backward) = Some 3%nat /\
  m_objects backward <> [1; 3; 2]%nat.
Proof.
  pose (A1 := Samples.on_layer 1 (Samples.fresh_drawing "A")).
  pose (C1 := Samples.on_layer 1 (Samples.fresh_drawing "C")).
  pose (Q1 := mkPage (<[1%nat := A1]> Samples.studio) [2; 1; 3]%nat [3; 2; 1]%nat).
  pose (Q3 := mkPage (<[3%nat := C1]> Samples.studio) [1; 3; 2]%nat [3; 2; 1]%nat).
  assert (bringForward std_sort (Some 1%nat) Samples.page_abc
          = sortObjectsByLayer std_sort Q1) as E1 by (vm_compute; reflexivity).
  assert (sendBackward std_sort (Some 3%nat) Samples.page_abc
          = sortObjectsByLayer std_sort Q3) as E3 by (vm_compute; reflexivity).
  assert (last (m_objects (sortObjectsByLayer std_sort Q1)) = Some 1%nat) as L1.
  { apply (std_sort_greatest_last _ (layer_of Q1));
      [done | apply elem_of_cons; right; by left |].
    intros x Hx Hne.
    apply elem_of_cons in Hx as [->|Hx]; [vm_compute; reflexivity|].
    apply elem_of_cons in Hx as [->|Hx]; [done|].
    apply list_elem_of_singleton in Hx as ->. vm_compute; reflexivity. }
  assert (last (m_objects (sortObjectsByLayer std_sort Q3)) = Some 3%nat) as L3.
  { apply (std_sort_greatest_last _ (layer_of Q3));
      [done | apply elem_of_cons; right; by left |].
    intros x Hx Hne.
    apply elem_of_cons in Hx as [->|Hx]; [vm_compute; reflexivity|].
    apply elem_of_cons in Hx as [->|Hx]; [done|].
    apply list_elem_of_singleton in Hx as ->. vm_compute; reflexivity. }
  cbv zeta. rewrite E1, E3. repeat split; [done | | done |].
  - intros E. rewrite E in L1. discriminate.
  - intros E. rewrite E in L3. discriminate.
Qed.

End PageFacts.

(** The sample pages arise from the page interface itself. *)
Lemma page_abc_reachable :
  Page.run Page.insertion_sort
    [Page.AddObject 1; Page.AddObject 2; Page.AddObject 3] Samples.blank_page
  = Samples.page_abc.
Proof. vm_compute. reflexivity. Qed.

(** Where every layer equals the object's position and the sort keeps
    equal keys in place, [bringForward] does end as the swap of two
    neighbours. *)
Lemma bringForward_swaps_on_indexed_page :
  let p := Page.bringForward Page.insertion_sort (Some 1%nat) Samples.page_indexed in
  Page.m_objects p = [2; 1; 3]%nat /\ Page.layers p = [1; 1; 2].
Proof. vm_compute. auto. Qed.

(** The order among equal layers is the sort's choice: with the
    reversing sort, two objects added on the default layer are met in the
    opposite order of their insertion. *)
Lemma equal_layers_may_swap :
  Page.m_objects
    (Page.run Page.reversing_sort [Page.AddObject 1; Page.AddObject 2]
       Samples.blank_page)
  = [2; 1]%nat.
Proof. vm_compute. reflexivity. Qed.

Lemma bringForward_breaks_layer_order_witness :
  Page.layers (Page.run Page.insertion_sort Samples.layer_script Samples.blank_page)
  = [5; 1].
Proof. exact (bringForward_breaks_layer_order Page.insertion_sort). Defined.

Lemma objectAt_returns_lower_layer_witness :
  Page.objectAt (Page.run Page.insertion_sort Samples.layer_script Samples.blank_page)
    Samples.hit_point = Some 1%nat.
Proof.
  exact (proj1 (objectAt_returns_lower_layer Page.insertion_sort)).
Defined.

Lemma neighbour_moves_are_resorted_witness :
  last (Page.m_objects
          (Page.bringForward Page.insertion_sort (Some 1%nat) Samples.page_abc))
  = Some 1%nat.
Proof.
  exact (proj1 (neighbour_moves_are_resorted Page.insertion_sort)).
Defined.

(** ** Documents *)

Section VectorFacts.
Context {A : Type} `{EqDecision A}.

Lemma indexOf_from_spec (k : Z) (x : A) (l : list A) :
  (QVector.indexOf_from k x l = -1 /\ x ∉ l) \/
  (exists n : nat, QVector.indexOf_from k x l = k + Z.of_nat n /\
     l !! n = Some x /\ forall m, (m < n)%nat -> l !! m <> Some x).
Proof.
  revert k. induction l as [|y l IH]; intros k; simpl.
  - left. split; [done | apply not_elem_of_nil].
  - destruct (decide (y = x)) as [->|Hne].
    + right. exists 0%nat. split; [lia|]. split; [done|]. intros; lia.
    + destruct (IH (k + 1)) as [[E Hn]|(n & E & Hl & Hm)].
      * left. split; [done|]. rewrite not_elem_of_cons. auto.
      * right. exists (S n). split; [lia|]. split; [done|].
        intros [|m] Hlt; simpl; [congruence | apply Hm; lia].
Qed.

(** A non-negative [indexOf] is the first position of the element. *)
Lemma indexOf_found (x : A) (l : list A) :
  0 <= QVector.indexOf x l ->
  exists n : nat, QVector.indexOf x l = Z.of_nat n /\ l !! n = Some x.
Proof.
  unfold QVector.indexOf. intros H.
  destruct (indexOf_from_spec 0 x l) as [[E _]|(n & E & Hl & _)]; [lia|].
  exists n. split; [lia | done].
Qed.

Lemma indexOf_absent (x : A) (l : list A) :
  QVector.indexOf x l < 0 -> x ∉ l.
Proof.
  unfold QVector.indexOf. intros H.
  destruct (indexOf_from_spec 0 x l) as [[_ Hn]|(n & E & _)]; [done | lia].
Qed.

Lemma removeAt_nat (n : nat) (l : list A) :
  QVector.removeAt (Z.of_nat n) l = delete n l.
Proof.
  unfold QVector.removeAt. destruct (Z.ltb_spec (Z.of_nat n) 0); [lia|].
  by rewrite Nat2Z.id.
Qed.

End VectorFacts.

Section DocumentFacts.
Import Document.

Lemma markAsModified_pages now d : m_pages (markAsModified now d) = m_pages d.
Proof. unfold markAsModified, setModified. by case_decide. Qed.

Lemma markAsModified_current now d :
  m_currentPage (markAsModified now d) = m_currentPage d.
Proof. unfold markAsModified, setModified. by case_decide. Qed.

Lemma markAsModified_links now d : m_links (markAsModified now d) = m_links d.
Proof. unfold markAsModified, setModified. by case_decide. Qed.

Lemma markAsModified_modified now d : m_modified (markAsModified now d) = true.
Proof.
  unfold markAsModified, setModified. case_decide as H; [done|].
  simpl in *. by destruct (m_modified d).
Qed.

Lemma setCurrentPage_current page d : m_currentPage (setCurrentPage page d) = page.
Proof.
  unfold setCurrentPage. case_decide as H; [done|].
  destruct (decide (m_currentPage d = page)); [done | contradiction].
Qed.

Lemma setCurrentPage_pages page d : m_pages (setCurrentPage page d) = m_pages d.
Proof. unfold setCurrentPage. by case_decide. Qed.

Lemma pageAt_nat (n : nat) d :
  (n < length (m_pages d))%nat -> pageAt (Z.of_nat n) d = m_pages d !! n.
Proof.
  intros H. unfold pageAt, QVector.size, QVector.at_.
  destruct (Z.leb_spec 0 (Z.of_nat n)); [|lia].
  destruct (Z.ltb_spec (Z.of_nat n) (Z.of_nat (length (m_pages d)))); [|lia].
  destruct (Z.ltb_spec (Z.of_nat n) 0); [lia|]. by rewrite Nat2Z.id.
Qed.

(** C7 (amended): when the current page is a member of the collection,
    with first index [i], removing it leaves no current page if the
    collection becomes empty; otherwise the current page becomes the page
    previously at index [i - 1] if [i >= 1], and the page previously at
    index 1, which is the new first page, if [i = 0].  Removing any other
    page leaves the current page as it is. *)
Theorem removePage_current_page (now : Z) (d : Document) (a : nat) :
  let d' := removePage now (Some a) d in
  let i := QVector.indexOf a (m_pages d) in
  (m_currentPage d = Some a -> 0 <= i ->
     m_currentPage d' =
       match m_pages d' with
       | [] => None
       | _ => if 0 <? i then m_pages d !! Z.to_nat (i - 1) else m_pages d !! 1%nat
       end) /\
  (m_currentPage d <> Some a -> m_currentPage d' = m_currentPage d).
Proof.
  cbv zeta. split.
  - intros Hcur Hi.
    destruct (indexOf_found a (m_pages d) Hi) as (n & En & Hn).
    unfold removePage. rewrite En.
    destruct (Z.leb_spec 0 (Z.of_nat n)); [|lia].
    rewrite markAsModified_pages, markAsModified_current.
    rewrite removeAt_nat.
    set (d1 := with_pages (delete n (m_pages d)) d).
    assert (m_currentPage d1 = Some a) as Hc1 by done.
    destruct (decide (m_currentPage d1 = Some a)); [|contradiction].
    destruct (m_pages d1) as [|q rest] eqn:Eq.
    + by rewrite setCurrentPage_current, setCurrentPage_pages, Eq.
    + unfold setCurrentPageAt.
      rewrite setCurrentPage_current, setCurrentPage_pages, Eq.
      assert (m_pages d1 = delete n (m_pages d)) as Hp1 by done.
      assert (length (m_pages d1) = S (length rest)) as Hlen by (by rewrite Eq).
      apply lookup_lt_Some in Hn as Hlt.
      assert (length (m_pages d) = S (length (m_pages d1))) as Hlen'.
      { rewrite Hp1, length_delete by eauto. lia. }
      destruct n as [|n].
      * replace (Z.max 0 (Z.of_nat 0 - 1)) with (Z.of_nat 0) by lia.
        rewrite pageAt_nat by lia. simpl.
        clear. by destruct (m_pages d) as [|x l].
      * replace (Z.max 0 (Z.of_nat (S n) - 1)) with (Z.of_nat n) by lia.
        rewrite pageAt_nat by lia.
        destruct (Z.ltb_spec 0 (Z.of_nat (S n))); [|lia].
        replace (Z.to_nat (Z.of_nat (S n) - 1)) with n by lia.
        rewrite Hp1. apply list_lookup_delete_lt. lia.
  - intros Hne. unfold removePage.
    destruct (0 <=? QVector.indexOf a (m_pages d)); [|done].
    rewrite markAsModified_current.
    set (d1 := with_pages _ d).
    assert (m_currentPage d1 = m_currentPage d) as Hc1 by done.
    destruct (decide (m_currentPage d1 = Some a)) as [E|_]; [congruence | done].
Qed.

(** C7 (as stated): with the pages 10, 11 and the current page 10,
    removing page 10 makes page 11 current, although index 0 has no
    previous page. *)
Lemma removePage_first_selects_next :
  ~ Samples.selects_previous_page Samples.two_pages
      (removePage 2 (Some 10%nat) Samples.two_pages) 10%nat.
Proof.
  unfold Samples.selects_previous_page. intros H.
  specialize (H eq_refl). vm_compute in H. discriminate H.
Qed.

Lemma removePage_current_page_witness :
  m_currentPage (removePage 2 (Some 10%nat) Samples.two_pages) = Some 11%nat
  /\ m_currentPage (removePage 2 (Some 11%nat) Samples.two_pages) = Some 10%nat.
Proof.
  split.
  - exact (proj1 (removePage_current_page 2 Samples.two_pages 10%nat)
             eq_refl ltac:(vm_compute; discriminate)).
  - exact (proj2 (removePage_current_page 2 Samples.two_pages 11%nat)
             ltac:(vm_compute; discriminate)).
Defined.

(** *** The link table *)

Lemma links_ref_lookup k (m : gmap string (list string)) :
  links_ref k m !! k = Some (default [] (m !! k)).
Proof.
  unfold links_ref. destruct (m !! k) as [l|] eqn:E; simpl; [done|].
  apply lookup_insert_eq.
Qed.

Lemma links_ref_present k l (m : gmap string (list string)) :
  m !! k = Some l -> links_ref k m = m.
Proof. intros E. unfold links_ref. by rewrite E. Qed.

(** A page is a backlink of [pageId] exactly when its target list
    contains [pageId]. *)
Lemma getBacklinks_spec pageId d a :
  a ∈ getBacklinks pageId d <->
  exists targets, m_links d !! a = Some targets /\ pageId ∈ targets.
Proof.
  unfold getBacklinks. rewrite merge_sort_Permutation.
  rewrite list_elem_of_fmap. split.
  - intros ([k l] & -> & H). apply list_elem_of_filter in H as [Hin Hm].
    apply elem_of_map_to_list in Hm. exists l. simpl in *. done.
  - intros (l & Hl & Hin). exists (a, l). split; [done|].
    apply list_elem_of_filter. split; [done|]. by apply elem_of_map_to_list.
Qed.

Lemma with_links_same d : with_links (m_links d) d = d.
Proof. by destruct d. Qed.

Lemma addLink_lookup now a b d :
  exists targets, m_links (addLink now a b d) !! a = Some targets /\ b ∈ targets.
Proof.
  unfold addLink. case_decide as H.
  - rewrite links_ref_lookup in H. simpl in H.
    eexists. split; [apply links_ref_lookup | exact H].
  - rewrite markAsModified_links. simpl. eexists.
    split; [apply lookup_insert_eq|]. apply elem_of_app. right. by left.
Qed.

(** C9: after [addLink(a, b)] the backlinks of [b] include [a]; after
    [removeLink(a, b)] they do not; and a second [addLink(a, b)] changes
    nothing, so that the link table is the one a single call leaves. *)
Theorem backlinks_follow_links (now now' : Z) (a b : string) (d : Document) :
  (a ∈ getBacklinks b (addLink now a b d)) /\
  (a ∉ getBacklinks b (removeLink now a b d)) /\
  addLink now' a b (addLink now a b d) = addLink now a b d.
Proof.
  repeat split.
  - apply getBacklinks_spec, addLink_lookup.
  - rewrite getBacklinks_spec. intros (l & Hl & Hin).
    unfold removeLink in Hl.
    assert (forall d0 : Document,
              m_links (if 0 <? Z.of_nat (length (default [] (links_ref a (m_links d) !! a)))
                              - Z.of_nat (length (filter (fun t => t <> b)
                                     (default [] (links_ref a (m_links d) !! a))))
                       then markAsModified now d0 else d0) = m_links d0) as Hsame.
    { intros d0. destruct (0 <? _); [apply markAsModified_links | done]. }
    rewrite Hsame in Hl. simpl in Hl. rewrite lookup_insert_eq in Hl.
    injection Hl as <-. apply list_elem_of_filter in Hin as [Hne _]. done.
  - destruct (addLink_lookup now a b d) as (l & Hl & Hin).
    unfold addLink at 1. rewrite (links_ref_present a l _ Hl), Hl. simpl.
    destruct (decide (b ∈ l)); [|contradiction]. apply with_links_same.
Qed.

(** C10: the constructor creates one page object, titled Page 1 and
    carrying the new page id, at the address [ptr] of the page heap and
    leaves the other page objects as they are; the fresh document holds
    exactly this page, at index 0 and under its id; that page is the
    current page; and the modified flag is already set. *)
Theorem new_document_is_modified (title : string) (now : Z) (doc_uuid : string)
  (ptr : nat) (page_uuid : string) (heap : gmap nat PageObj) :
  let r := Document_titled title now doc_uuid ptr page_uuid heap in
  let d := r.2 in
  m_pages d = [ptr] /\ m_currentPage d = Some ptr /\ m_modified d = true /\
  r.1 !! ptr = Some (mkPageObj "Page 1" page_uuid) /\
  (forall a, a <> ptr -> r.1 !! a = heap !! a) /\
  pageAt 0 d = Some ptr /\
  pageById r.1 page_uuid d = Some ptr.
Proof.
  cbv zeta. unfold Document_titled, createNewPage. cbn [fst snd].
  assert (m_pages (addPage now (Some ptr)
                     (mkDocument title doc_uuid EmptyString now now [] None [] ∅ false))
          = [ptr]) as Hp.
  { unfold addPage. by rewrite markAsModified_pages. }
  split; [exact Hp|]. split; [|split; [|split; [|split; [|split]]]].
  - unfold addPage. by rewrite markAsModified_current.
  - unfold addPage. by rewrite markAsModified_modified.
  - by rewrite lookup_insert_eq.
  - intros a Ha. by rewrite lookup_insert_ne.
  - unfold pageAt. rewrite Hp. reflexivity.
  - unfold pageById. rewrite Hp. simpl. rewrite lookup_insert_eq. simpl.
    by rewrite String.eqb_refl.
Qed.

End DocumentFacts.

(** ** Storage *)

Section StorageFacts.
Import Document Storage.
Context (heap : gmap nat PageObj).
Context (documentToBlob : Document -> string) (pageToBlob : PageObj -> string).

(** Inside a transaction a statement leaves the committed tables alone
    and the transaction open; it fails exactly when the next fault is
    set, and uses up one fault entry either way. *)
Lemma exec_in_transaction stmt db t :
  pending db = Some t ->
  let '(ok, db') := exec stmt db in
  committed db' = committed db /\ is_Some (pending db') /\
  faults db' = tail (faults db) /\
  ok = negb (default false (head (faults db))).
Proof.
  intros Hp. unfold exec. rewrite Hp.
  destruct (faults db) as [|[|] rest]; simpl; eauto.
Qed.

Lemma savePages_in_transaction documentId ps s t :
  pending (m_database s) = Some t ->
  let '(ok, s') := savePages heap pageToBlob documentId ps s in
  committed (m_database s') = committed (m_database s) /\
  is_Some (pending (m_database s')) /\
  (ok = true ->
   faults (m_database s') = drop (length ps) (faults (m_database s)) /\
   forall n, (n < length ps)%nat -> faults (m_database s) !! n <> Some true).
Proof.
  revert s t. induction ps as [|a ps IH]; intros s t Hp; simpl.
  - rewrite Hp. split; [done|]. split; [eauto|]. intros _. split; [done|].
    intros; lia.
  - unfold savePage. destruct (m_initialized s); simpl;
      [|rewrite Hp; split; [done|]; split; [eauto | done]].
    destruct (heap !! a) as [pg|]; simpl;
      [|rewrite Hp; split; [done|]; split; [eauto | done]].
    pose proof (exec_in_transaction (upsert_page pageToBlob documentId pg)
                  (m_database s) t Hp) as He.
    destruct (exec _ (m_database s)) as [ok db] eqn:Ex.
    destruct He as (Hc & [t' Hp'] & Hf & Hok).
    destruct ok.
    + specialize (IH (with_database db s) t' Hp').
      destruct (savePages _ _ _ ps _) as [ok' s'].
      destruct IH as (Hc' & Hp'' & Hrest). simpl in *.
      split; [congruence|]. split; [done|].
      intros Hok'. destruct (Hrest Hok') as [Hd Hno]. split.
      * rewrite Hd, Hf.
        destruct (faults (m_database s)); simpl; [by rewrite !drop_nil | done].
      * intros [|n] Hn.
        -- destruct (faults (m_database s)) as [|[|] ?]; simpl in *; congruence.
        -- specialize (Hno n ltac:(lia)).
           rewrite Hf in Hno. by destruct (faults (m_database s)).
    + simpl. split; [done|]. split; [by rewrite Hp' | done].
Qed.

(** C2: on an open store, if the write of the document row (statement 0)
    or of one of the page rows (statements 1, 2, ...) fails,
    [saveDocument] reports failure, the transaction is rolled back (none
    is left open) and the store holds exactly the rows it held before the
    call. *)
Theorem saveDocument_failure_rolls_back (d : Document) (s : Storage) (n : nat) :
  m_initialized s = true ->
  (n <= length (m_pages d))%nat ->
  faults (m_database s) !! n = Some true ->
  let '(ok, s') := saveDocument heap documentToBlob pageToBlob (Some d) s in
  ok = false /\
  committed (m_database s') = committed (m_database s) /\
  pending (m_database s') = None.
Proof.
  intros Hi Hn Hf. unfold saveDocument. rewrite Hi. simpl negb. cbv iota.
  set (s1 := (beginTransaction s).2).
  assert (exists t, pending (m_database s1) = Some t) as [t1 Hp1].
  { unfold s1, beginTransaction, transaction.
    destruct (pending (m_database s)) as [t|] eqn:Hp; simpl; [|by eauto].
    rewrite Hp. eauto. }
  assert (committed (m_database s1) = committed (m_database s)) as Hc1.
  { unfold s1, beginTransaction, transaction.
    by destruct (pending (m_database s)). }
  assert (faults (m_database s1) = faults (m_database s)) as Hf1.
  { unfold s1, beginTransaction, transaction.
    by destruct (pending (m_database s)). }
  rewrite <- Hf1 in Hf. rewrite <- Hc1. clearbody s1.
  pose proof (exec_in_transaction (upsert_document documentToBlob d)
                (m_database s1) _ Hp1) as He.
  destruct (exec _ (m_database s1)) as [ok db] eqn:Ex.
  destruct He as (Hc & [t' Hp'] & Hfl & Hok).
  destruct ok; simpl negb; cbv iota.
  - pose proof (savePages_in_transaction (m_id d) (m_pages d)
                  (with_database db s1) t' Hp') as Hs.
    destruct (savePages _ _ _ _ _) as [ok' s2].
    destruct Hs as (Hc2 & [t2 Hp2] & Hrest).
    destruct ok'; simpl negb; cbv iota.
    + exfalso. destruct (Hrest eq_refl) as [_ Hno].
      simpl in Hno, Hfl. rewrite Hfl in Hno.
      destruct n as [|n].
      * destruct (faults (m_database s1)) as [|[|] ?]; simpl in *; congruence.
      * apply (Hno n); [lia|].
        destruct (faults (m_database s1)); simpl in *; congruence.
    + unfold rollbackTransaction, rollback. rewrite Hp2. simpl.
      split; [done|]. split; [|done]. simpl in Hc2. rewrite Hc2. exact Hc.
  - unfold rollbackTransaction, rollback. simpl. rewrite Hp'. simpl.
    split; [done|]. split; [|done]. exact Hc.
Qed.

(** When no statement fails on such a store, the save succeeds and the
    document row is stored. *)
Lemma saveDocument_success (d : Document) (s : Storage) :
  m_initialized s = true ->
  pending (m_database s) = None ->
  faults (m_database s) = [] ->
  Forall (fun a => is_Some (heap !! a)) (m_pages d) ->
  let '(ok, s') := saveDocument heap documentToBlob pageToBlob (Some d) s in
  ok = true /\ pending (m_database s') = None /\
  is_Some (documents (committed (m_database s')) !! m_id d).
Proof.
  intros Hi Hp Hf Hall. unfold saveDocument. rewrite Hi. simpl negb. cbv iota.
  unfold beginTransaction, transaction. rewrite Hp. simpl snd.
  unfold exec at 1. simpl. rewrite Hf. simpl.
  set (t1 := upsert_document documentToBlob d (committed (m_database s))).
  assert (forall ps t s0,
            Forall (fun a => is_Some (heap !! a)) ps ->
            m_initialized s0 = true ->
            m_database s0 = mkDatabase (committed (m_database s)) (Some t) [] ->
            documents t = documents t1 ->
            exists t' s',
              savePages heap pageToBlob (m_id d) ps s0 = (true, s') /\
              m_initialized s' = true /\
              m_database s' = mkDatabase (committed (m_database s)) (Some t') [] /\
              documents t' = documents t1) as Hloop.
  { induction ps as [|a ps IH]; intros t s0 Hps Hi0 Hdb Hdoc; simpl.
    - by exists t, s0.
    - inversion Hps as [|? ? [pg Hpg] Hps']; subst.
      unfold savePage. rewrite Hi0. simpl. rewrite Hpg. simpl.
      unfold exec. rewrite Hdb. simpl.
      apply (IH (upsert_page pageToBlob (m_id d) pg t)); done. }
  destruct (Hloop (m_pages d) t1
              (with_database (mkDatabase (committed (m_database s)) (Some t1) [])
                 (with_database
                    (mkDatabase (committed (m_database s))
                       (Some (committed (m_database s))) (faults (m_database s))) s))
              Hall Hi eq_refl eq_refl) as (t' & s' & Hsave & Hi' & Hdb' & Hdoc').
  rewrite Hf in Hsave. rewrite Hsave. simpl negb. cbv iota.
  unfold commitTransaction, commit. rewrite Hdb'. simpl.
  repeat split. rewrite Hdoc'. unfold t1. simpl. rewrite lookup_insert_eq. eauto.
Qed.

End StorageFacts.

Lemma saveDocument_failure_rolls_back_witness :
  let s := Storage.mkStorage
             (Storage.mkDatabase (Storage.mkTables ∅ ∅) None [false; true]) true [] in
  let heap : gmap nat Document.PageObj :=
    <[10%nat := Document.mkPageObj "Page 1" "page-1"]> ∅ in
  let '(ok, s') :=
    Storage.saveDocument heap (fun _ => "{}") (fun _ => "{}")
      (Some (Document.Document_new 0 "doc" 10%nat "page-1" ∅).2) s in
  ok = false /\
  Storage.committed (Storage.m_database s') = Storage.mkTables ∅ ∅ /\
  Storage.pending (Storage.m_database s') = None.
Proof.
  exact (saveDocument_failure_rolls_back
           (<[10%nat := Document.mkPageObj "Page 1" "page-1"]> ∅)
           (fun _ => "{}") (fun _ => "{}")
           (Document.Document_new 0 "doc" 10%nat "page-1" ∅).2
           (Storage.mkStorage
              (Storage.mkDatabase (Storage.mkTables ∅ ∅) None [false; true]) true [])
           1%nat eq_refl ltac:(vm_compute; lia) eq_refl).
Defined.

(** * Further properties of the model *)

Section FilterFacts.
Context {A : Type} (P Q : A -> Prop) `{!forall x, Decision (P x), !forall x, Decision (Q x)}.

Lemma filter_ext_in (l : list A) :
  (forall x, x ∈ l -> (P x <-> Q x)) -> filter P l = filter Q l.
Proof.
  induction l as [|a l IH]; intros Hl; [done|].
  rewrite !filter_cons.
  assert (filter P l = filter Q l) as -> by (apply IH; intros; apply Hl; by right).
  pose proof (Hl a (list_elem_of_here _ _)) as Ha.
  destruct (decide (P a)) as [Hp|Hp]; destruct (decide (Q a)) as [Hq|Hq];
    try done; exfalso; tauto.
Qed.

Lemma filter_keep_all (l : list A) : (forall x, x ∈ l -> P x) -> filter P l = l.
Proof.
  induction l as [|a l IH]; intros Hl; [done|].
  rewrite filter_cons_True by (apply Hl; by left).
  f_equal. apply IH. intros; apply Hl; by right.
Qed.

Lemma filter_drop_all (l : list A) : (forall x, x ∈ l -> ~ P x) -> filter P l = [].
Proof.
  induction l as [|a l IH]; intros Hl; [done|].
  rewrite filter_cons_False by (apply Hl; by left).
  apply IH. intros; apply Hl; by right.
Qed.

End FilterFacts.

(** ** Geometry and serialization of objects *)

Section MoreObjectFacts.
Import Qt Obj.
Local Open Scope Z_scope.
Context (qt : QtLib).

Lemma wrap_divide z : (2 ^ 32 | wrap z - z).
Proof.
  unfold wrap. exists (- ((z + 2 ^ 31) / 2 ^ 32)).
  pose proof (Z_div_mod_eq_full (z + 2 ^ 31) (2 ^ 32)). lia.
Qed.

Lemma wrap_congr a b : (2 ^ 32 | a - b) -> wrap a = wrap b.
Proof.
  intros [k Hk]. unfold wrap.
  replace (a + 2 ^ 31) with (b + 2 ^ 31 + k * 2 ^ 32) by lia.
  by rewrite Z_mod_plus_full.
Qed.

Lemma wrap_range z : - 2 ^ 31 <= wrap z < 2 ^ 31.
Proof.
  unfold wrap. pose proof (Z.mod_pos_bound (z + 2 ^ 31) (2 ^ 32)). lia.
Qed.

Lemma extent_translated a b d :
  wrap (wrap (b + d) - wrap (a + d) + 1) = wrap (b - a + 1).
Proof.
  apply wrap_congr.
  destruct (wrap_divide (b + d)) as [k Hk].
  destruct (wrap_divide (a + d)) as [k' Hk'].
  exists (k - k'). lia.
Qed.

(** X1: [moveBy] never changes an object's width or height, whatever the
    offset (32-bit wrap-around included), nor its id, layer, visibility,
    selection or content. *)
Theorem moveBy_keeps_size (delta : QPoint) (o : Object) :
  let o' := (moveBy delta o).1 in
  width (m_bounds o') = width (m_bounds o) /\
  height (m_bounds o') = height (m_bounds o) /\
  m_id o' = m_id o /\ m_layer o' = m_layer o /\ m_visible o' = m_visible o /\
  m_selected o' = m_selected o /\ payload o' = payload o.
Proof.
  cbv zeta. unfold moveBy.
  rewrite setBounds_id, setBounds_layer, setBounds_visible, setBounds_payload.
  rewrite setBounds_bounds.
  repeat split; try (unfold setBounds; by case_decide).
  - unfold width, translated. simpl. apply extent_translated.
  - unfold height, translated. simpl. apply extent_translated.
Qed.

Lemma back_and_forth x d :
  - 2 ^ 31 <= x < 2 ^ 31 -> wrap (wrap (x + d) + wrap (0 - d)) = x.
Proof.
  intros Hx. rewrite <- (wrap_small x Hx) at 2. apply wrap_congr.
  destruct (wrap_divide (x + d)) as [k Hk].
  destruct (wrap_divide (0 - d)) as [k' Hk'].
  exists (k + k'). lia.
Qed.

(** X2: moving an object by an offset and then by the opposite offset
    puts its bounds back where they were. *)
Theorem moveBy_and_back (delta : QPoint) (o : Object) :
  int_corners (m_bounds o) ->
  m_bounds (moveBy (point_sub (mkPoint 0 0) delta) (moveBy delta o).1).1
  = m_bounds o.
Proof.
  intros (Hx1 & Hy1 & Hx2 & Hy2). unfold moveBy.
  rewrite !setBounds_bounds. unfold translated, point_sub. simpl.
  rewrite !back_and_forth by done. by destruct (m_bounds o).
Qed.

Lemma toJson_bounds o :
  Json.toObject (Json.get (toJson qt o) "bounds")
  = Json.JObject [("x"%string, Json.JInt (x1 (m_bounds o)));
                  ("y"%string, Json.JInt (y1 (m_bounds o)));
                  ("width"%string, Json.JInt (width (m_bounds o)));
                  ("height"%string, Json.JInt (height (m_bounds o)))].
Proof. unfold toJson. by destruct (payload o). Qed.

Lemma far_corner a b :
  - 2 ^ 31 <= b < 2 ^ 31 -> wrap (a + wrap (b - a + 1) - 1) = b.
Proof.
  intros Hb. rewrite <- (wrap_small b Hb) at 2. apply wrap_congr.
  destruct (wrap_divide (b - a + 1)) as [k Hk]. exists k. lia.
Qed.

(** X3: reading back the JSON of an object restores its id, layer and
    visibility, and, for a drawing object, its bounds; the selection flag
    is not part of the JSON and stays as it is in the object that
    reads. *)
Theorem fromJson_toJson_common (o target : Object) :
  int_corners (m_bounds o) ->
  let o' := fromJson qt (toJson qt o) target in
  m_id o' = m_id o /\ m_layer o' = m_layer o /\ m_visible o' = m_visible o /\
  (forall d, payload target = Drawing d ->
     m_bounds o' = m_bounds o /\ m_selected o' = m_selected target).
Proof.
  intros (Hx1 & Hy1 & Hx2 & Hy2). cbv zeta.
  rewrite fromJson_id, toJson_id, fromJson_layer, toJson_layer,
          fromJson_visible, toJson_visible.
  repeat split; intros; unfold fromJson; rewrite H; simpl.
  - unfold Object_fromJson. rewrite toJson_bounds. simpl.
    unfold rect, width, height. rewrite !far_corner by done.
    by destruct (m_bounds o).
  - done.
Qed.

End MoreObjectFacts.

Lemma moveBy_and_back_witness :
  Obj.m_bounds
    (Obj.moveBy (Qt.point_sub (Qt.mkPoint 0 0) (Qt.mkPoint 20 (-7)))
       (Obj.moveBy (Qt.mkPoint 20 (-7)) (Samples.fresh_drawing "o")).1).1
  = Obj.m_bounds (Samples.fresh_drawing "o").
Proof.
  apply moveBy_and_back. vm_compute. repeat split; discriminate.
Defined.

Lemma fromJson_toJson_common_witness :
  let o := (Obj.moveBy (Qt.mkPoint 20 (-7)) (Samples.fresh_drawing "o")).1 in
  let target := Samples.fresh_drawing "t" in
  let o' := Obj.fromJson Samples.plain_qt (Obj.toJson Samples.plain_qt o) target in
  Obj.m_id o' = Obj.m_id o /\ Obj.m_layer o' = Obj.m_layer o /\
  Obj.m_visible o' = Obj.m_visible o /\
  (forall d, Obj.payload target = Obj.Drawing d ->
     Obj.m_bounds o' = Obj.m_bounds o /\ Obj.m_selected o' = Obj.m_selected target).
Proof.
  apply (fromJson_toJson_common Samples.plain_qt). vm_compute.
  repeat split; discriminate.
Defined.

(** ** Strokes *)

Section StrokeFacts.
Import Qt Obj Drawing.
Local Open Scope Z_scope.

Lemma addPointToStroke_eraser point d :
  is_eraser (m_currentMode d) = true ->
  let d' := addPointToStroke point d in
  m_strokes d' = m_strokes d /\ m_currentMode d' = m_currentMode d /\
  m_drawing d' = m_drawing d /\
  path (m_currentStroke d') = path (m_currentStroke d).
Proof.
  intros He. cbv zeta. unfold addPointToStroke.
  destruct (m_drawing d) eqn:Hd; simpl; [by rewrite He | by rewrite Hd].
Qed.

Lemma capture_eraser now start pts d :
  m_drawing d = false -> is_eraser (m_currentMode d) = true ->
  let d' := capture now start pts d in
  m_strokes d' = m_strokes d /\ m_drawing d' = true /\
  path (m_currentStroke d') = [MoveTo start].
Proof.
  intros Hd He. cbv zeta. unfold capture.
  assert (forall d0,
            m_strokes d0 = m_strokes d -> is_eraser (m_currentMode d0) = true ->
            m_drawing d0 = true -> path (m_currentStroke d0) = [MoveTo start] ->
            let d' := fold_left (fun d p => addPointToStroke p d) pts d0 in
            m_strokes d' = m_strokes d /\ m_drawing d' = true /\
            path (m_currentStroke d') = [MoveTo start]) as Hloop.
  { induction pts as [|p pts IH]; intros d0 Hs Hm Hdr Hp; simpl; [done|].
    destruct (addPointToStroke_eraser p d0 Hm) as (Hs' & Hm' & Hdr' & Hp').
    apply IH; congruence. }
  apply Hloop; unfold startStroke; rewrite Hd; done.
Qed.

(** X4: a capture session in eraser mode, however the pen moves, neither
    removes nor adds a stroke: after [finishStroke] the strokes are those
    from before [startStroke], and the object is idle again. *)
Theorem eraser_session_changes_no_stroke
  (now : Z) (start : QPoint) (pts : list QPoint) (d : DrawingData) :
  m_drawing d = false -> is_eraser (m_currentMode d) = true ->
  let d' := (finishStroke (capture now start pts d)).1 in
  m_strokes d' = m_strokes d /\ m_drawing d' = false /\ m_smoothPoints d' = [].
Proof.
  intros Hd He. cbv zeta.
  destruct (capture_eraser now start pts d Hd He) as (Hs & Hdr & Hp).
  unfold finishStroke. rewrite Hdr, Hp. simpl. done.
Qed.

Lemma eraser_session_changes_no_stroke_witness :
  m_strokes
    (finishStroke (capture 0 Samples.pen_start Samples.pen_moves
                     Samples.eraser_canvas)).1 = [].
Proof.
  exact (proj1 (eraser_session_changes_no_stroke 0 Samples.pen_start
                  Samples.pen_moves Samples.eraser_canvas eq_refl eq_refl)).
Defined.

Lemma in_range_spec i d :
  in_range i d = true <-> 0 <= i < Z.of_nat (length (m_strokes d)).
Proof.
  unfold in_range, QVector.size. rewrite andb_true_iff, Z.leb_le, Z.ltb_lt. done.
Qed.

(** X5: the stroke selection stays a list of distinct indices of
    existing strokes under [selectStroke], [deselectStroke],
    [clearStrokeSelection] and [addStroke]; [selectStroke] with an index
    out of range or already selected changes nothing. *)
Theorem stroke_selection_stays_valid (index : Z) (s : Stroke) (d : DrawingData) :
  Samples.valid_selection d ->
  Samples.valid_selection (selectStroke index d) /\
  Samples.valid_selection (deselectStroke index d) /\
  Samples.valid_selection (clearStrokeSelection d) /\
  Samples.valid_selection (addStroke s d).1 /\
  (in_range index d = false \/ index ∈ m_selectedStrokes d ->
   selectStroke index d = d).
Proof.
  intros [Hnd Hin]. repeat split.
  - unfold selectStroke.
    destruct (in_range index d) eqn:Hr; simpl; [|done].
    destruct (bool_decide (index ∈ m_selectedStrokes d)) eqn:Hm; simpl; [done|].
    apply bool_decide_eq_false in Hm.
    apply NoDup_app. repeat split; [done | | apply NoDup_singleton].
    intros x Hx Hx'. apply list_elem_of_singleton in Hx' as ->. done.
  - intros i Hi. unfold selectStroke in *.
    destruct (in_range index d) eqn:Hr; simpl in *; [|by apply Hin].
    destruct (bool_decide (index ∈ m_selectedStrokes d)); simpl in *; [by apply Hin|].
    apply elem_of_app in Hi as [Hi|Hi].
    + apply Hin in Hi. exact Hi.
    + apply list_elem_of_singleton in Hi as ->. exact Hr.
  - simpl. by apply NoDup_filter.
  - intros i Hi. simpl in Hi. apply list_elem_of_filter in Hi as [_ Hi].
    apply Hin in Hi. exact Hi.
  - simpl. apply NoDup_nil_2.
  - intros i Hi. simpl in Hi. by apply elem_of_nil in Hi.
  - simpl. done.
  - intros i Hi. simpl in Hi. apply Hin in Hi.
    apply in_range_spec in Hi. apply in_range_spec. simpl.
    rewrite length_app. simpl. lia.
  - intros [Hr|Hm]; unfold selectStroke.
    + by rewrite Hr.
    + rewrite (bool_decide_eq_true_2 _ Hm). by rewrite andb_false_r.
Qed.

Lemma stroke_selection_stays_valid_witness :
  Samples.valid_selection (selectStroke 1 Samples.three_strokes).
Proof.
  refine (proj1 (stroke_selection_stays_valid 1 empty_stroke Samples.three_strokes _)).
  split.
  - apply NoDup_cons. split; [|apply NoDup_singleton].
    intros H%list_elem_of_singleton. discriminate.
  - intros i Hi. repeat (apply elem_of_cons in Hi as [->|Hi]); try done.
    by apply elem_of_nil in Hi.
Defined.

(** X6: [removeStroke] takes the removed index out of the selection but
    does not renumber the rest: a selected index above the removed one
    stays selected although the stroke it named has moved down by one. *)
Theorem removeStroke_leaves_stale_selection (i j : Z) (d : DrawingData) :
  in_range i d = true -> in_range j d = true -> i < j ->
  j ∈ m_selectedStrokes d ->
  let d' := removeStroke i d in
  (i ∉ m_selectedStrokes d') /\
  j ∈ m_selectedStrokes d' /\
  QVector.at_ (m_strokes d') (j - 1) = QVector.at_ (m_strokes d) j.
Proof.
  intros Hi Hj Hlt Hsel. cbv zeta. unfold removeStroke. rewrite Hi. simpl.
  apply in_range_spec in Hi, Hj. split; [|split].
  - intros Hin. apply list_elem_of_filter in Hin as [Hne _]. by apply Hne.
  - apply list_elem_of_filter. split; [lia | done].
  - unfold QVector.at_, QVector.removeAt.
    destruct (Z.ltb_spec (j - 1) 0); [lia|].
    destruct (Z.ltb_spec j 0); [lia|].
    destruct (Z.ltb_spec i 0); [lia|].
    rewrite list_lookup_delete_ge by lia. f_equal. lia.
Qed.

Lemma removeStroke_leaves_stale_selection_witness :
  (1 ∉ m_selectedStrokes (removeStroke 1 Samples.three_strokes)) /\
  2 ∈ m_selectedStrokes (removeStroke 1 Samples.three_strokes) /\
  QVector.at_ (m_strokes (removeStroke 1 Samples.three_strokes)) (2 - 1)
  = QVector.at_ (m_strokes Samples.three_strokes) 2.
Proof.
  exact (removeStroke_leaves_stale_selection 1 2 Samples.three_strokes
           eq_refl eq_refl ltac:(lia) ltac:(by left)).
Defined.

Lemma unselected_none k L (l : list Stroke) :
  (forall y, y ∈ L -> y < k) -> Samples.unselected_from k L l = l.
Proof.
  revert k. induction l as [|s l IH]; intros k HL; simpl; [done|].
  destruct (decide (k ∈ L)) as [Hk|_]; [apply HL in Hk; lia|].
  f_equal. apply IH. intros y Hy. apply HL in Hy. lia.
Qed.

Lemma unselected_delete k (n : nat) L (l : list Stroke) :
  (n < length l)%nat -> (forall y, y ∈ L -> y < k + Z.of_nat n) ->
  Samples.unselected_from k L (delete n l)
  = Samples.unselected_from k ((k + Z.of_nat n) :: L) l.
Proof.
  revert k n. induction l as [|s l IH]; intros k n Hn HL; simpl in *; [lia|].
  destruct n as [|n]; simpl.
  - destruct (decide (k ∈ (k + Z.of_nat 0) :: L)) as [_|Hk].
    + rewrite !unselected_none; [done | |].
      * intros y Hy. apply elem_of_cons in Hy as [->|Hy]; [lia|].
        apply HL in Hy. lia.
      * intros y Hy. apply HL in Hy. lia.
    + exfalso. apply Hk. replace (k + Z.of_nat 0) with k by lia. by left.
  - assert (k ∈ (k + Z.of_nat (S n)) :: L <-> k ∈ L) as Hiff.
    { rewrite elem_of_cons. split; [intros [?|?]; [lia | done] | by right]. }
    replace (k + Z.of_nat (S n)) with (k + 1 + Z.of_nat n) in * by lia.
    destruct (decide (k ∈ L)) as [Hk|Hk];
      destruct (decide (k ∈ (k + 1 + Z.of_nat n) :: L)) as [Hk'|Hk'];
      try (exfalso; tauto).
    + apply IH; [lia|]. intros y Hy. apply HL in Hy. lia.
    + f_equal. apply IH; [lia|]. intros y Hy. apply HL in Hy. lia.
Qed.

Lemma unselected_same_members k L1 L2 (l : list Stroke) :
  (forall y, y ∈ L1 <-> y ∈ L2) ->
  Samples.unselected_from k L1 l = Samples.unselected_from k L2 l.
Proof.
  intros H. revert k. induction l as [|s l IH]; intros k; simpl; [done|].
  destruct (decide (k ∈ L1)) as [H1|H1]; destruct (decide (k ∈ L2)) as [H2|H2];
    try (exfalso; apply H in H1 || apply H in H2; tauto); by rewrite IH.
Qed.

Lemma removeStroke_sequence L d :
  StronglySorted (fun a b => b < a) L ->
  (forall y, y ∈ L -> in_range y d = true) ->
  let d' := fold_left (fun d index => removeStroke index d) L d in
  m_strokes d' = Samples.unselected_from 0 L (m_strokes d) /\
  m_selectedStrokes d' = filter (fun i => i ∉ L) (m_selectedStrokes d).
Proof.
  intros Hs. revert d. induction Hs as [|x L HL IH Hx]; intros d Hr; simpl.
  - split; [by rewrite unselected_none by (intros y Hy; by apply elem_of_nil in Hy)|].
    symmetry. apply filter_keep_all. intros y _. apply not_elem_of_nil.
  - rewrite Forall_forall in Hx.
    assert (in_range x d = true) as Hxr by (apply Hr; by left).
    pose proof Hxr as Hxr'. apply in_range_spec in Hxr'.
    assert (removeStroke x d
            = with_strokes (QVector.removeAt x (m_strokes d))
                (filter (fun i => i <> x) (m_selectedStrokes d)) d) as ->
      by (unfold removeStroke; by rewrite Hxr).
    set (d1 := with_strokes _ _ d).
    specialize (IH d1). cbv zeta in IH. destruct IH as [IHs IHsel].
    { intros y Hy. specialize (Hx y Hy).
      assert (in_range y d = true) as Hy' by (apply Hr; by right).
      apply in_range_spec in Hy'. apply in_range_spec. unfold d1. simpl.
      unfold QVector.removeAt. destruct (Z.ltb_spec x 0); [lia|].
      rewrite length_delete by (apply lookup_lt_is_Some; lia). lia. }
    split.
    + rewrite IHs. unfold d1. simpl. unfold QVector.removeAt.
      destruct (Z.ltb_spec x 0); [lia|].
      rewrite unselected_delete; [| lia |].
      * simpl. by rewrite Z2Nat.id by lia.
      * intros y Hy. specialize (Hx y Hy). lia.
    + rewrite IHsel. unfold d1. simpl. rewrite list_filter_filter.
      apply list_filter_iff. intros y. rewrite elem_of_cons. tauto.
Qed.

Lemma descending_strict L :
  NoDup L -> StronglySorted descending L -> StronglySorted (fun a b => b < a) L.
Proof.
  intros Hnd Hs. induction Hs as [|x L HL IH Hx]; constructor.
  - apply IH. by apply NoDup_cons in Hnd as [_ ?].
  - apply NoDup_cons in Hnd as [Hnx _]. rewrite Forall_forall in Hx |- *.
    intros y Hy. specialize (Hx y Hy). unfold descending in Hx.
    assert (y <> x) by (intros ->; done). lia.
Qed.

#[local] Instance descending_total : Total descending.
Proof. intros a b. unfold descending. lia. Qed.

#[local] Instance descending_trans : Transitive descending.
Proof. intros a b c. unfold descending. lia. Qed.

(** X7: when the selection names distinct existing strokes,
    [deleteSelectedStrokes] removes exactly the selected strokes, keeps
    the others in their order, and leaves the selection empty. *)
Theorem deleteSelectedStrokes_removes_selection (d : DrawingData) :
  Samples.valid_selection d ->
  let d' := deleteSelectedStrokes d in
  m_strokes d' = Samples.unselected_strokes d /\ m_selectedStrokes d' = [].
Proof.
  intros [Hnd Hin]. cbv zeta. unfold deleteSelectedStrokes, sort_descending.
  set (L := merge_sort descending (m_selectedStrokes d)).
  assert (L ≡ₚ m_selectedStrokes d) as Hp by apply merge_sort_Permutation.
  assert (StronglySorted (fun a b => b < a) L) as Hs.
  { apply descending_strict; [by rewrite Hp|]. apply StronglySorted_merge_sort; apply _. }
  destruct (removeStroke_sequence L d Hs) as [Hstrokes Hsel].
  { intros y Hy. apply Hin. by rewrite <- Hp. }
  split.
  - rewrite Hstrokes. apply unselected_same_members. intros y. by rewrite Hp.
  - rewrite Hsel. apply filter_drop_all. intros y Hy Hn. apply Hn. by rewrite Hp.
Qed.

Lemma deleteSelectedStrokes_removes_selection_witness :
  timestamp <$> m_strokes (deleteSelectedStrokes Samples.three_strokes) = [101].
Proof.
  refine (eq_trans
    (f_equal (fmap timestamp)
       (proj1 (deleteSelectedStrokes_removes_selection Samples.three_strokes _)))
    eq_refl).
  split.
  - apply NoDup_cons. split; [|apply NoDup_singleton].
    intros H%list_elem_of_singleton. discriminate.
  - intros i Hi. repeat (apply elem_of_cons in Hi as [->|Hi]); try done.
    by apply elem_of_nil in Hi.
Defined.

End StrokeFacts.

(** ** Selection and bulk operations on a page *)

Section BulkFacts.
Import Qt Page.
Local Open Scope Z_scope.
Context (std_sort : (nat -> nat -> bool) -> list nat -> list nat).

Lemma iter_quiet_slot (s : Obj.Signal) (n : nat) (p : Page) :
  (forall q, slot std_sort s q = q) -> Nat.iter n (slot std_sort s) p = p.
Proof. intros H. induction n as [|n IH]; simpl; [done|]. by rewrite IH, H. Qed.

(** A method that emits no [layerChanged] only changes the object. *)
Lemma call_quiet (a : nat) (m : Obj.Method) (p : Page) (o : Obj.Object) :
  store p !! a = Some o ->
  (forall s, s ∈ (m o).2 -> forall q, slot std_sort s q = q) ->
  call std_sort a m p
  = mkPage (<[a := (m o).1]> (store p)) (m_objects p) (connections p).
Proof.
  intros Ho Hq. unfold call. rewrite Ho.
  destruct (m o) as [o' sigs]. simpl in *.
  generalize (mkPage (<[a:=o']> (store p)) (m_objects p) (connections p)).
  induction sigs as [|s sigs IH]; intros q; simpl; [done|].
  rewrite iter_quiet_slot by (apply Hq; by left).
  apply IH. intros s' Hs'. apply Hq. by right.
Qed.

Lemma setSelected_result b o : (Obj.setSelected b o).1 = Obj.with_selected b o.
Proof.
  unfold Obj.setSelected. case_decide as H; [done|]. simpl.
  assert (Obj.m_selected o = b) as <- by (destruct (decide (Obj.m_selected o = b)); [done | contradiction]).
  by destruct o.
Qed.

Lemma setSelected_quiet b o s :
  s ∈ (Obj.setSelected b o).2 -> forall q, slot std_sort s q = q.
Proof.
  unfold Obj.setSelected. case_decide; simpl.
  - intros ->%list_elem_of_singleton. done.
  - intros H'. by apply elem_of_nil in H'.
Qed.

Lemma moveBy_quiet d o s :
  s ∈ (Obj.moveBy d o).2 -> forall q, slot std_sort s q = q.
Proof.
  unfold Obj.moveBy, Obj.setBounds. case_decide; simpl.
  - intros ->%list_elem_of_singleton. done.
  - intros H'. by apply elem_of_nil in H'.
Qed.

(** The store after a method without [layerChanged] has run on the
    objects of [l] that pass a test which the method does not change. *)
Lemma guarded_calls_store (guard : Obj.Object -> bool) (m : Obj.Method)
  (l : list nat) (p : Page) :
  (forall o s, s ∈ (m o).2 -> forall q, slot std_sort s q = q) ->
  (forall o, guard (m o).1 = guard o) ->
  let test p a := match store p !! a with Some o => guard o | None => false end in
  let p' := fold_left (fun p a => if test p a then call std_sort a m p else p) l p in
  m_objects p' = m_objects p /\ connections p' = connections p /\
  (forall a, test p' a = test p a) /\
  (forall a, a ∉ l \/ test p a = false -> store p' !! a = store p !! a) /\
  (forall a o, NoDup l -> a ∈ l -> store p !! a = Some o -> guard o = true ->
     store p' !! a = Some (m o).1).
Proof.
  intros Hq Hg test. revert p. induction l as [|x l IH]; intros p; simpl.
  - repeat split; try done. intros a o _ Ha. by apply elem_of_nil in Ha.
  - set (p1 := if test p x then call std_sort x m p else p).
    assert (m_objects p1 = m_objects p /\ connections p1 = connections p /\
            (forall a, store p1 !! a =
               if decide (a = x) then
                 (if test p x then (fun o => (m o).1) <$> store p !! x
                  else store p !! x)
               else store p !! a)) as (Ho1 & Hc1 & Hs1).
    { unfold p1, test. destruct (store p !! x) as [o|] eqn:Ex.
      - destruct (guard o) eqn:Eg.
        + rewrite (call_quiet x m p o Ex) by (intros; by eapply Hq).
          simpl. repeat split. intros a. destruct (decide (a = x)) as [->|Hne].
          * by rewrite lookup_insert_eq.
          * by rewrite lookup_insert_ne.
        + repeat split. intros a. by destruct (decide (a = x)) as [->|].
      - repeat split. intros a. by destruct (decide (a = x)) as [->|]. }
    assert (forall a, test p1 a = test p a) as Ht1.
    { intros a. unfold test. rewrite Hs1. destruct (decide (a = x)) as [->|]; [|done].
      fold (test p x). destruct (test p x) eqn:Et; [|done].
      unfold test in Et. destruct (store p !! x) as [o|]; simpl; [|done].
      by rewrite Hg. }
    specialize (IH p1). cbv zeta in IH.
    destruct IH as (IHo & IHc & IHt & IHs & IHm).
    split; [congruence|]. split; [congruence|].
    split; [intros a; by rewrite IHt, Ht1|]. split.
    + intros a Ha. rewrite IHs.
      * rewrite Hs1. destruct (decide (a = x)) as [->|]; [|done].
        destruct Ha as [Ha|Ha]; [exfalso; apply Ha; by left|]. by rewrite Ha.
      * destruct Ha as [Ha|Ha]; [left; by apply not_elem_of_cons in Ha as [_ ?]|].
        right. by rewrite Ht1.
    + intros a o Hnd Ha Hoa Hgo. apply NoDup_cons in Hnd as [Hx Hnd].
      apply elem_of_cons in Ha as [->|Ha].
      * rewrite IHs by (by left). rewrite Hs1.
        destruct (decide (x = x)); [|done].
        assert (test p x = true) as -> by (unfold test; by rewrite Hoa).
        by rewrite Hoa.
      * apply IHm; [done | done | | done].
        rewrite Hs1. destruct (decide (a = x)) as [->|]; [done | done].
Qed.

Lemma isSelected_with_selected b (p : Page) a :
  isSelected
    (mkPage ((fun o => Obj.with_selected b o) <$> store p) (m_objects p) (connections p)) a
  = match store p !! a with Some _ => b | None => false end.
Proof. unfold isSelected. simpl. rewrite lookup_fmap. by destruct (store p !! a). Qed.

(** The same for a method that every listed object receives. *)
Lemma repeated_calls_store (m : Obj.Method) (l : list nat) (p : Page) :
  (forall o s, s ∈ (m o).2 -> forall q, slot std_sort s q = q) ->
  (forall o, (m (m o).1).1 = (m o).1) ->
  let p' := fold_left (fun p a => call std_sort a m p) l p in
  m_objects p' = m_objects p /\ connections p' = connections p /\
  (forall a, store p' !! a =
     if decide (a ∈ l) then (fun o => (m o).1) <$> store p !! a else store p !! a).
Proof.
  intros Hq Hi. revert p. induction l as [|x l IH]; intros p; simpl.
  - split; [done|]. split; [done|]. intros a.
    destruct (decide (a ∈ [])) as [H|]; [|done]. by apply elem_of_nil in H.
  - set (p1 := call std_sort x m p).
    assert (m_objects p1 = m_objects p /\ connections p1 = connections p /\
            (forall a, store p1 !! a =
               if decide (a = x) then (fun o => (m o).1) <$> store p !! x
               else store p !! a)) as (Ho1 & Hc1 & Hs1).
    { unfold p1. destruct (store p !! x) as [o|] eqn:Ex.
      - rewrite (call_quiet x m p o Ex) by (intros; by eapply Hq).
        simpl. repeat split. intros a. destruct (decide (a = x)) as [->|Hne].
        + by rewrite lookup_insert_eq.
        + by rewrite lookup_insert_ne.
      - unfold call. rewrite Ex. repeat split.
        intros a. by destruct (decide (a = x)) as [->|]. }
    specialize (IH p1). cbv zeta in IH. destruct IH as (IHo & IHc & IHs).
    split; [congruence|]. split; [congruence|].
    intros a. rewrite IHs, Hs1.
    destruct (decide (a = x)) as [->|Hne].
    + destruct (decide (x ∈ x :: l)) as [_|Hn]; [|exfalso; apply Hn; by left].
      destruct (decide (x ∈ l)); [|done].
      destruct (store p !! x) as [o|]; simpl; [|done]. by rewrite Hi.
    + destruct (decide (a ∈ l)) as [Hl|Hl];
        destruct (decide (a ∈ x :: l)) as [Hl'|Hl']; try done.
      * exfalso. apply Hl'. by right.
      * exfalso. apply elem_of_cons in Hl' as [?|?]; done.
Qed.

(** X8: after [clearSelection] no object of the page is selected; the
    objects, their order and their layers are as before. *)
Theorem clearSelection_deselects_all (p : Page) :
  let p' := clearSelection std_sort p in
  selectedObjects p' = [] /\ m_objects p' = m_objects p /\ layers p' = layers p.
Proof.
  cbv zeta. unfold clearSelection.
  destruct (repeated_calls_store (Obj.setSelected false) (m_objects p) p)
    as (Ho & _ & Hs).
  { intros o s. apply setSelected_quiet. }
  { intros o. by rewrite !setSelected_result. }
  split; [|split; [done|]].
  - unfold selectedObjects. rewrite Ho. apply filter_drop_all.
    intros a Ha. unfold isSelected. rewrite Hs.
    destruct (decide (a ∈ m_objects p)); [|done].
    destruct (store p !! a) as [o|]; simpl; [|done].
    by rewrite setSelected_result.
  - unfold layers. rewrite Ho. apply map_ext. intros a. unfold layer_of.
    rewrite Hs. destruct (decide (a ∈ m_objects p)); [|done].
    destruct (store p !! a) as [o|]; simpl; [|done].
    by rewrite setSelected_result.
Qed.

(** X9: after [selectAll] an object of the page is selected exactly when
    it is visible or was selected before, so that invisible objects keep
    their selection state; the order of the objects is unchanged. *)
Theorem selectAll_selects_visible (p : Page) :
  let p' := selectAll std_sort p in
  m_objects p' = m_objects p /\
  forall a, a ∈ m_objects p ->
    isSelected p' a = isVisible p a || isSelected p a.
Proof.
  cbv zeta. unfold selectAll.
  pose proof (guarded_calls_store Obj.m_visible (Obj.setSelected true)
                (m_objects p) p) as H.
  destruct H as (Ho & _ & _ & Hs & _).
  { intros o s. apply setSelected_quiet. }
  { intros o. by rewrite setSelected_result. }
  split; [exact Ho|]. intros a Ha.
  destruct (isVisible p a) eqn:Ev; simpl.
  - (* every call on a visible object selects it *)
    clear Hs Ho.
    assert (forall l q, a ∈ l -> isVisible q a = true ->
              isSelected
                (fold_left (fun p a => if isVisible p a
                                        then call std_sort a (Obj.setSelected true) p
                                        else p) l q) a = true) as Hsel.
    { induction l as [|x l IH]; intros q Hl Hv; [by apply elem_of_nil in Hl|].
      simpl. set (q1 := if isVisible q x then _ else q).
      assert (forall b, isVisible q1 b = isVisible q b) as Hv1.
      { intros b. unfold q1. destruct (isVisible q x) eqn:Ex; [|done].
        unfold isVisible in Ex |- *. destruct (store q !! x) as [o|] eqn:Eo; [|done].
        rewrite (call_quiet x _ q o Eo) by (intros s; apply setSelected_quiet).
        simpl. destruct (decide (b = x)) as [->|Hne].
        - rewrite lookup_insert_eq, Eo. by rewrite setSelected_result.
        - by rewrite lookup_insert_ne. }
      destruct (decide (a ∈ l)) as [Hal|Hal]; [apply IH; [done | by rewrite Hv1]|].
      apply elem_of_cons in Hl as [->|?]; [|done].
      pose proof (guarded_calls_store Obj.m_visible (Obj.setSelected true) l q1) as H.
      destruct H as (_ & _ & _ & Hs & _).
      { intros o s. apply setSelected_quiet. }
      { intros o. by rewrite setSelected_result. }
      unfold isSelected. rewrite Hs by (by left).
      unfold q1. rewrite Hv. unfold isVisible in Hv.
      destruct (store q !! x) as [o|] eqn:Eo; [|done].
      rewrite (call_quiet x _ q o Eo) by (intros s; apply setSelected_quiet).
      simpl. rewrite lookup_insert_eq. by rewrite setSelected_result. }
    by apply Hsel.
  - unfold isSelected. rewrite Hs; [done|]. right. exact Ev.
Qed.

(** X10: [moveSelectedObjects] leaves every unselected object as it is
    and changes neither the order of the objects nor any selection
    flag; a selected object that the page holds once is moved by the
    offset. *)
Theorem moveSelectedObjects_moves_selection (delta : QPoint) (p : Page) :
  let p' := moveSelectedObjects std_sort delta p in
  m_objects p' = m_objects p /\
  (forall a, isSelected p' a = isSelected p a) /\
  (forall a, isSelected p a = false -> store p' !! a = store p !! a) /\
  (forall a o, NoDup (m_objects p) -> a ∈ m_objects p ->
     store p !! a = Some o -> Obj.m_selected o = true ->
     store p' !! a = Some (Obj.moveBy delta o).1).
Proof.
  cbv zeta. unfold moveSelectedObjects.
  pose proof (guarded_calls_store Obj.m_selected (Obj.moveBy delta)
                (m_objects p) p) as H.
  destruct H as (Ho & _ & Ht & Hs & Hm).
  { intros o s. apply moveBy_quiet. }
  { intros o. unfold Obj.moveBy, Obj.setBounds. by case_decide. }
  split; [exact Ho|]. split; [exact Ht|]. split; [|exact Hm].
  intros a Ha. apply Hs. by right.
Qed.

Lemma deleteSelected_from_spec (p : Page) (i : nat) :
  (i <= length (m_objects p))%nat ->
  let p' := deleteSelected_from p i in
  store p' = store p /\
  m_objects p'
  = filter (fun a => isSelected p a = false) (take i (m_objects p))
    ++ drop i (m_objects p).
Proof.
  revert p. induction i as [|i IH]; intros p Hi; simpl.
  - by rewrite drop_0.
  - destruct (m_objects p !! i) as [a|] eqn:Ea;
      [|apply lookup_ge_None in Ea; lia].
    rewrite (take_S_r _ _ a Ea), filter_app.
    destruct (isSelected p a) eqn:Es.
    + set (p1 := removeObjectAt (Z.of_nat i) p).
      assert (store p1 = store p /\ m_objects p1 = delete i (m_objects p))
        as [Hs1 Ho1].
      { unfold p1, removeObjectAt, QVector.size, QVector.at_, QVector.removeAt.
        destruct (Z.leb_spec 0 (Z.of_nat i)); [|lia].
        destruct (Z.ltb_spec (Z.of_nat i) (Z.of_nat (length (m_objects p)))); [|lia].
        destruct (Z.ltb_spec (Z.of_nat i) 0); [lia|]. simpl.
        rewrite Nat2Z.id, Ea. simpl. done. }
      specialize (IH p1). cbv zeta in IH. destruct IH as [IHs IHo].
      { rewrite Ho1, length_delete by eauto. lia. }
      split; [congruence|]. rewrite IHo, Ho1, delete_take_drop.
      rewrite take_app_length' by (rewrite length_take_le; lia).
      rewrite drop_app_length' by (rewrite length_take_le; lia).
      rewrite (filter_cons_False _ a) by (by rewrite Es).
      rewrite filter_nil, app_nil_r. f_equal.
      apply list_filter_iff. intros b. unfold isSelected. by rewrite Hs1.
    + specialize (IH p). cbv zeta in IH. destruct IH as [IHs IHo]; [lia|].
      split; [done|]. rewrite IHo.
      rewrite (filter_cons_True _ a) by done.
      rewrite (drop_S _ _ _ Ea), filter_nil. by rewrite <- !app_assoc.
Qed.

Lemma sorted_filter_map (f : nat -> Z) (P : nat -> Prop)
  `{!forall x, Decision (P x)} (l : list nat) :
  StronglySorted Z.le (map f l) -> StronglySorted Z.le (map f (filter P l)).
Proof.
  induction l as [|x l IH]; intros Hs; [done|].
  apply StronglySorted_inv in Hs as [Hl Hx]. rewrite filter_cons.
  destruct (decide (P x)); [|by apply IH]. simpl. constructor; [by apply IH|].
  rewrite Forall_forall in Hx |- *. intros y Hy. apply Hx.
  apply list_elem_of_In, in_map_iff in Hy as (b & <- & Hb).
  apply list_elem_of_In, in_map_iff. exists b. split; [done|].
  apply list_elem_of_In. apply list_elem_of_In in Hb.
  by apply list_elem_of_filter in Hb as [_ ?].
Qed.

(** X11: [deleteSelectedObjects] removes exactly the selected objects
    from the page, keeps the others in their order (so a page in layer
    order stays in layer order), leaves no selected object behind and
    does not touch the objects themselves. *)
Theorem deleteSelectedObjects_removes_selection (p : Page) :
  let p' := deleteSelectedObjects p in
  m_objects p' = filter (fun a => isSelected p a = false) (m_objects p) /\
  store p' = store p /\ selectedObjects p' = [] /\
  (layer_sorted p -> layer_sorted p').
Proof.
  cbv zeta. unfold deleteSelectedObjects.
  destruct (deleteSelected_from_spec p (length (m_objects p))) as [Hs Ho]; [lia|].
  rewrite firstn_all, drop_all, app_nil_r in Ho.
  split; [exact Ho|]. split; [exact Hs|]. split.
  - unfold selectedObjects. rewrite Ho. apply filter_drop_all.
    intros a Ha. apply list_elem_of_filter in Ha as [Ha _].
    unfold isSelected in *. rewrite Hs. by rewrite Ha.
  - unfold layer_sorted, layers. rewrite Ho. intros Hsorted.
    assert (forall l, map (layer_of (deleteSelected_from p (length (m_objects p)))) l
                      = map (layer_of p) l) as ->.
    { intros l. apply map_ext. intros a. unfold layer_of. by rewrite Hs. }
    by apply sorted_filter_map.
Qed.

End BulkFacts.

(** ** Moves to the front and to the back *)

Section BoundaryMoves.
Import Qt Page.
Local Open Scope Z_scope.
Context (std_sort : (nat -> nat -> bool) -> list nat -> list nat).
Context `{!StdSort std_sort}.

Lemma iter_sort_store n q :
  store (Nat.iter n (sortObjectsByLayer std_sort) q) = store q.
Proof. induction n as [|n IH]; simpl; [done | exact IH]. Qed.

Lemma iter_sort_sorted n q :
  (0 < n)%nat -> layer_sorted (Nat.iter n (sortObjectsByLayer std_sort) q).
Proof.
  destruct n as [|n]; [lia|]. intros _. simpl. apply sortObjectsByLayer_sorted.
  exact _.
Qed.

Lemma connected_count a (l : list nat) :
  a ∈ l -> (0 < length (filter (fun c => c = a) l))%nat.
Proof.
  intros Ha. destruct (filter (fun c => c = a) l) as [|x r] eqn:E; simpl; [|lia].
  exfalso. apply (filter_nil_not_elem_of (fun c => c = a) l a E); done.
Qed.

(** What [object->setLayer(v)] does to a page that holds the connected
    object: nothing but the layer changes, and either the layer was [v]
    already and the order stays, or the page is re-sorted. *)
Lemma call_setLayer a v p o :
  store p !! a = Some o -> a ∈ connections p ->
  let p' := call std_sort a (Obj.setLayer v) p in
  layer_of p' a = v /\
  (forall b, b <> a -> layer_of p' b = layer_of p b) /\
  ((Obj.m_layer o = v /\ m_objects p' = m_objects p) \/ layer_sorted p').
Proof.
  intros Ho Hc. cbv zeta. unfold call. rewrite Ho. unfold Obj.setLayer.
  destruct (decide (Obj.m_layer o <> v)) as [Hne|Heq]; simpl.
  - set (q := mkPage _ _ _).
    change (slot std_sort (Obj.layerChanged v))
      with (sortObjectsByLayer std_sort).
    assert (forall b, layer_of (Nat.iter (length (filter (fun c => c = a) (connections p)))
                                  (sortObjectsByLayer std_sort) q) b = layer_of q b) as Hl.
    { intros b. unfold layer_of. by rewrite iter_sort_store. }
    split; [|split].
    + rewrite Hl. unfold layer_of, q. simpl. by rewrite lookup_insert_eq.
    + intros b Hb. rewrite Hl. unfold layer_of, q. simpl. by rewrite lookup_insert_ne.
    + right. apply iter_sort_sorted. by apply connected_count.
  - assert (Obj.m_layer o = v) as Hv
      by (destruct (decide (Obj.m_layer o = v)); [done | contradiction]).
    split; [|split].
    + unfold layer_of. simpl. by rewrite lookup_insert_eq.
    + intros b Hb. unfold layer_of. simpl. by rewrite lookup_insert_ne.
    + left. done.
Qed.

Lemma layers_ext (p q : Page) (l : list nat) :
  (forall b, layer_of p b = layer_of q b) -> map (layer_of p) l = map (layer_of q) l.
Proof. intros H. apply map_ext. exact H. Qed.

Lemma at_nat {A} (l : list A) (n : nat) : QVector.at_ l (Z.of_nat n) = l !! n.
Proof.
  unfold QVector.at_. destruct (Z.ltb_spec (Z.of_nat n) 0); [lia|].
  by rewrite Nat2Z.id.
Qed.

Lemma move_to_front (l : list nat) (n : nat) a :
  l !! n = Some a ->
  QVector.move (Z.of_nat n) 0 l = if decide (n = 0%nat) then l else a :: delete n l.
Proof.
  intros Hn. unfold QVector.move. rewrite at_nat, Hn.
  destruct (decide (n = 0%nat)) as [->|Hne]; [done|].
  destruct (Z.eqb_spec (Z.of_nat n) 0); [lia|].
  unfold QVector.insert_at, QVector.removeAt.
  destruct (Z.ltb_spec (Z.of_nat n) 0); [lia|]. simpl. by rewrite Nat2Z.id.
Qed.

Lemma move_to_back (l : list nat) (n : nat) a :
  l !! n = Some a ->
  QVector.move (Z.of_nat n) (QVector.size l - 1) l
  = if decide (S n = length l) then l else delete n l ++ [a].
Proof.
  intros Hn. unfold QVector.move, QVector.size. rewrite at_nat, Hn.
  apply lookup_lt_Some in Hn as Hlt.
  destruct (decide (S n = length l)) as [He|Hne].
  - destruct (Z.eqb_spec (Z.of_nat n) (Z.of_nat (length l) - 1)); [done | lia].
  - destruct (Z.eqb_spec (Z.of_nat n) (Z.of_nat (length l) - 1)); [lia|].
    unfold QVector.insert_at, QVector.removeAt.
    destruct (Z.ltb_spec (Z.of_nat n) 0); [lia|]. rewrite Nat2Z.id.
    assert (length (delete n l) = Z.to_nat (Z.of_nat (length l) - 1)) as Hlen
      by (rewrite length_delete by eauto; lia).
    rewrite <- Hlen. by rewrite firstn_all, drop_all.
Qed.

(** X12: on a page in layer order whose layers lie between 0 and the
    number of objects minus one, [sendToBack] and [bringToFront] of a
    connected object of the page keep the layer order, and give the
    object the layer 0 and the layer size - 1. *)
Theorem boundary_moves_keep_layer_order (a : nat) (p : Page) :
  layer_sorted p ->
  (forall b, b ∈ m_objects p ->
     0 <= layer_of p b <= QVector.size (m_objects p) - 1) ->
  a ∈ m_objects p -> a ∈ connections p -> is_Some (store p !! a) ->
  let back := sendToBack std_sort (Some a) p in
  let front := bringToFront std_sort (Some a) p in
  layer_sorted back /\ layer_of back a = 0 /\
  layer_sorted front /\ layer_of front a = QVector.size (m_objects p) - 1.
Proof.
  intros Hs Hb Ha Hc [o Ho]. cbv zeta.
  destruct (indexOf_from_spec 0 a (m_objects p)) as [[_ Hn]|(n & En & Hl & _)];
    [done|].
  assert (QVector.indexOf a (m_objects p) = Z.of_nat n) as Hi
    by (unfold QVector.indexOf; lia).
  apply lookup_lt_Some in Hl as Hlt.
  unfold sendToBack, bringToFront. rewrite Hi.
  destruct (Z.leb_spec 0 (Z.of_nat n)); [|lia].
  assert (forall l, QVector.size (m_objects (with_objects l p)) = QVector.size l)
    as Hsz by done.
  (* the object's layer against the others *)
  assert (Forall (fun x => 0 <= x) (layers p)) as Hlow.
  { unfold layers. rewrite Forall_forall. intros x Hx.
    apply list_elem_of_In, in_map_iff in Hx as (b & <- & Hin).
    apply list_elem_of_In in Hin. by apply Hb. }
  assert (Forall (fun x => x <= QVector.size (m_objects p) - 1) (layers p)) as Hhigh.
  { unfold layers. rewrite Forall_forall. intros x Hx.
    apply list_elem_of_In, in_map_iff in Hx as (b & <- & Hin).
    apply list_elem_of_In in Hin. by apply Hb. }
  split; [|split; [|split]].
  - set (p1 := with_objects (QVector.move (Z.of_nat n) 0 (m_objects p)) p).
    destruct (call_setLayer a 0 p1 o Ho Hc) as (Hla & Hlo & [[Hv Hobj]|Hsorted]);
      [|exact Hsorted].
    assert (forall b, layer_of (call std_sort a (Obj.setLayer 0) p1) b = layer_of p b)
      as Hsame.
    { intros b. destruct (decide (b = a)) as [->|Hne]; [|by rewrite Hlo].
      rewrite Hla. unfold layer_of. by rewrite Ho. }
    unfold layer_sorted, layers. rewrite Hobj, (layers_ext _ p _ Hsame).
    unfold p1. simpl. rewrite (move_to_front _ n a Hl).
    destruct (decide (n = 0%nat)); [exact Hs|]. simpl.
    assert (layer_of p a = 0) as -> by (unfold layer_of; by rewrite Ho).
    change (map (layer_of p) ?l) with (layer_of p <$> l).
    rewrite list_fmap_delete. constructor; [by apply sorted_delete|].
    rewrite Forall_forall in Hlow |- *. intros x Hx. apply Hlow.
    by apply (list_subseteq_delete n (layer_of p <$> m_objects p)).
  - set (p1 := with_objects (QVector.move (Z.of_nat n) 0 (m_objects p)) p).
    by destruct (call_setLayer a 0 p1 o Ho Hc) as (Hla & _).
  - set (p1 := with_objects (QVector.move (Z.of_nat n) (QVector.size (m_objects p) - 1)
                               (m_objects p)) p).
    assert (QVector.size (m_objects p1) = QVector.size (m_objects p)) as Hsize.
    { unfold p1. simpl. rewrite (move_to_back _ n a Hl). unfold QVector.size.
      destruct (decide (S n = length (m_objects p))); [done|].
      rewrite length_app, length_delete by eauto. simpl. lia. }
    rewrite Hsize.
    destruct (call_setLayer a (QVector.size (m_objects p) - 1) p1 o Ho Hc)
      as (Hla & Hlo & [[Hv Hobj]|Hsorted]); [|exact Hsorted].
    assert (forall b, layer_of (call std_sort a
                                  (Obj.setLayer (QVector.size (m_objects p) - 1)) p1) b
                      = layer_of p b) as Hsame.
    { intros b. destruct (decide (b = a)) as [->|Hne]; [|by rewrite Hlo].
      rewrite Hla. unfold layer_of. by rewrite Ho. }
    unfold layer_sorted, layers. rewrite Hobj, (layers_ext _ p _ Hsame).
    unfold p1. simpl. rewrite (move_to_back _ n a Hl).
    destruct (decide (S n = length (m_objects p))); [exact Hs|].
    rewrite map_app. simpl.
    assert (layer_of p a = QVector.size (m_objects p) - 1) as ->
      by (unfold layer_of; by rewrite Ho).
    change (map (layer_of p) ?l) with (layer_of p <$> l).
    rewrite list_fmap_delete. apply StronglySorted_app_2.
    + intros x1 x2 Hx1 Hx2. apply list_elem_of_singleton in Hx2 as ->.
      rewrite Forall_forall in Hhigh. apply Hhigh.
      by apply (list_subseteq_delete n (layer_of p <$> m_objects p)).
    + by apply sorted_delete.
    + repeat constructor.
  - set (p1 := with_objects (QVector.move (Z.of_nat n) (QVector.size (m_objects p) - 1)
                               (m_objects p)) p).
    assert (QVector.size (m_objects p1) = QVector.size (m_objects p)) as Hsize.
    { unfold p1. simpl. rewrite (move_to_back _ n a Hl). unfold QVector.size.
      destruct (decide (S n = length (m_objects p))); [done|].
      rewrite length_app, length_delete by eauto. simpl. lia. }
    rewrite Hsize.
    by destruct (call_setLayer a (QVector.size (m_objects p) - 1) p1 o Ho Hc)
      as (Hla & _).
Qed.

End BoundaryMoves.

Lemma boundary_moves_keep_layer_order_witness :
  let back := Page.sendToBack Page.insertion_sort (Some 3%nat) Samples.page_indexed in
  let front := Page.bringToFront Page.insertion_sort (Some 3%nat) Samples.page_indexed in
  Page.layer_sorted back /\ Page.layer_of back 3%nat = 0%Z /\
  Page.layer_sorted front /\
  Page.layer_of front 3%nat
  = (QVector.size (Page.m_objects Samples.page_indexed) - 1)%Z.
Proof.
  apply (boundary_moves_keep_layer_order Page.insertion_sort
           (StdSort0 := insertion_sort_StdSort) 3%nat Samples.page_indexed).
  - repeat constructor; vm_compute; discriminate.
  - intros b Hin. repeat (apply elem_of_cons in Hin as [->|Hin]);
      [vm_compute; split; discriminate.. | by apply elem_of_nil in Hin].
  - by do 2 right; left.
  - by left.
  - by eexists.
Defined.

(** ** The page collection and the tags of a document *)

Section MoreDocumentFacts.
Import Document.
Local Open Scope Z_scope.

Lemma markAsModified_tags now d : m_tags (markAsModified now d) = m_tags d.
Proof. unfold markAsModified, setModified. by destruct (decide _). Qed.

Lemma markAsModified_date now d : m_modifiedDate (markAsModified now d) = now.
Proof. unfold markAsModified, setModified. by destruct (decide _). Qed.

Lemma markAsModified_valid now d :
  Samples.current_page_valid d -> Samples.current_page_valid (markAsModified now d).
Proof.
  unfold Samples.current_page_valid.
  by rewrite markAsModified_current, markAsModified_pages.
Qed.

Lemma insert_at_elem (a b : nat) i l :
  b ∈ QVector.insert_at i a l <-> b = a \/ b ∈ l.
Proof.
  unfold QVector.insert_at. rewrite elem_of_app, elem_of_cons.
  rewrite <- (take_drop (Z.to_nat i) l) at 3. rewrite elem_of_app. tauto.
Qed.

Lemma insertPage_valid now i a d :
  Samples.current_page_valid d ->
  Samples.current_page_valid (insertPage now i (Some a) d).
Proof.
  intros Hv. unfold insertPage. cbv zeta. apply markAsModified_valid.
  unfold Samples.current_page_valid in *. simpl.
  destruct (m_currentPage d) as [c|] eqn:Hc.
  - simpl. rewrite Hc. apply insert_at_elem. by right.
  - rewrite setCurrentPage_current, setCurrentPage_pages. simpl.
    apply insert_at_elem. by left.
Qed.

Lemma addPage_valid now a d :
  Samples.current_page_valid d -> Samples.current_page_valid (addPage now (Some a) d).
Proof.
  intros Hv. unfold addPage. cbv zeta. apply markAsModified_valid.
  unfold Samples.current_page_valid in *. simpl.
  destruct (m_currentPage d) as [c|] eqn:Hc.
  - simpl. rewrite Hc. apply elem_of_app. by left.
  - rewrite setCurrentPage_current, setCurrentPage_pages. simpl.
    apply elem_of_app. right. by apply list_elem_of_singleton.
Qed.

Lemma removePage_valid now a d :
  Samples.current_page_valid d ->
  Samples.current_page_valid (removePage now (Some a) d).
Proof.
  intros Hv. unfold removePage. cbv zeta.
  destruct (indexOf_from_spec 0 a (m_pages d)) as [[Hi Hn]|(n & En & Hl & Hfirst)].
  - unfold QVector.indexOf. rewrite Hi. simpl. exact Hv.
  - assert (QVector.indexOf a (m_pages d) = Z.of_nat n) as ->
      by (unfold QVector.indexOf; lia).
    destruct (Z.leb_spec 0 (Z.of_nat n)); [|lia].
    apply markAsModified_valid. rewrite removeAt_nat.
    apply lookup_lt_Some in Hl as Hlt.
    unfold Samples.current_page_valid in *. simpl.
    destruct (decide (m_currentPage d = Some a)) as [Hc|Hc].
    + destruct (delete n (m_pages d)) as [|x rest] eqn:Hdel.
      * by rewrite setCurrentPage_current, setCurrentPage_pages.
      * unfold setCurrentPageAt.
        rewrite setCurrentPage_current, setCurrentPage_pages. simpl.
        assert (length (x :: rest) = (length (m_pages d) - 1)%nat) as Hlen
          by (rewrite <- Hdel, length_delete by eauto; lia).
        set (q := with_pages (x :: rest) d).
        assert (Z.max 0 (Z.of_nat n - 1) = Z.of_nat (Nat.pred n)) as -> by lia.
        assert (Nat.pred n < length (m_pages q))%nat as Hin
          by (unfold q; simpl in *; lia).
        rewrite (pageAt_nat _ q Hin).
        change (m_pages q) with (x :: rest) in *.
        destruct ((x :: rest) !! Nat.pred n) as [c|] eqn:Hq.
        -- by apply list_elem_of_lookup_2 in Hq.
        -- apply lookup_ge_None in Hq. lia.
    + simpl. destruct (m_currentPage d) as [c|] eqn:Hcur.
      * apply list_elem_of_lookup in Hv as [m Hm].
        assert (m <> n) by (intros ->; congruence).
        apply (list_elem_of_lookup_2 _ (if decide (m < n)%nat then m else Nat.pred m)).
        destruct (decide (m < n)%nat).
        -- by rewrite list_lookup_delete_lt.
        -- rewrite list_lookup_delete_ge by lia.
           replace (S (Nat.pred m)) with m by lia. done.
      * rewrite Hv in Hl. by rewrite lookup_nil in Hl.
Qed.

Lemma move_perm (l : list nat) i j : QVector.move i j l ≡ₚ l.
Proof.
  unfold QVector.move, QVector.at_.
  destruct (Z.ltb_spec i 0); [done|].
  destruct (l !! Z.to_nat i) as [x|] eqn:Hx; [|done].
  destruct (i =? j); [done|].
  unfold QVector.insert_at, QVector.removeAt.
  destruct (Z.ltb_spec i 0); [lia|].
  rewrite <- Permutation_middle, take_drop.
  symmetry. by apply delete_Permutation.
Qed.

Lemma movePage_valid now i j d :
  Samples.current_page_valid d -> Samples.current_page_valid (movePage now i j d).
Proof.
  intros Hv. unfold movePage. destruct (_ && _); [|exact Hv].
  apply markAsModified_valid. unfold Samples.current_page_valid in *. simpl.
  destruct (m_currentPage d) as [c|].
  - by rewrite move_perm.
  - rewrite Hv. unfold QVector.move, QVector.at_.
    destruct (i <? 0); [done|]. by rewrite lookup_nil.
Qed.

(** X13: the current page stays a page of the document through every
    sequence of additions, insertions, removals, moves and clearings of
    pages, and the document is left without a current page only when it
    has no page. *)
Theorem current_page_stays_in_collection
  (now : Z) (cs : list PageCommand) (d : Document) :
  Samples.current_page_valid d ->
  Samples.current_page_valid (perform_all now cs d).
Proof.
  revert d. induction cs as [|c cs IH]; intros d Hv; [exact Hv|].
  unfold perform_all. simpl. apply IH. destruct c; simpl.
  - by apply addPage_valid.
  - by apply insertPage_valid.
  - by apply removePage_valid.
  - unfold removePageAt. destruct (_ && _); [|exact Hv].
    destruct (QVector.at_ (m_pages d) index); [by apply removePage_valid | exact Hv].
  - by apply movePage_valid.
  - unfold clearPages. apply markAsModified_valid.
    unfold Samples.current_page_valid.
    by rewrite setCurrentPage_current, setCurrentPage_pages.
Qed.

Lemma current_page_stays_in_collection_witness :
  Samples.current_page_valid (perform_all 2 Samples.page_session Samples.two_pages).
Proof.
  apply current_page_stays_in_collection.
  unfold Samples.current_page_valid. vm_compute. by left.
Defined.

Lemma insert_at_lookup (a : nat) (n : nat) l :
  (n <= length l)%nat ->
  QVector.insert_at (Z.of_nat n) a l !! n = Some a /\
  delete n (QVector.insert_at (Z.of_nat n) a l) = l.
Proof.
  intros Hn. unfold QVector.insert_at. rewrite Nat2Z.id.
  assert (length (take n l) = n) as Hlen by (rewrite length_take; lia).
  split.
  - rewrite lookup_app_r by lia. rewrite Hlen, Nat.sub_diag. done.
  - rewrite delete_take_drop.
    rewrite <- Hlen at 1. rewrite take_app_length.
    replace (S n) with (length (take n l) + 1)%nat by lia.
    rewrite drop_app_add'; [|done]. simpl. by rewrite drop_0, take_drop.
Qed.

(** X14: [insertPage] puts the page at the requested index brought into
    the range from 0 to the number of pages, and leaves the other pages
    in their order: taking the page out again gives the old
    collection. *)
Theorem insertPage_places_page (now index : Z) (a : PagePtr) (d : Document) :
  let i := qBound 0 index (QVector.size (m_pages d)) in
  let d' := insertPage now index (Some a) d in
  0 <= i <= QVector.size (m_pages d) /\
  pageAt i d' = Some a /\
  QVector.removeAt i (m_pages d') = m_pages d /\
  (0 <= index <= QVector.size (m_pages d) -> i = index).
Proof.
  cbv zeta. unfold qBound, QVector.size.
  set (i := Z.max 0 (Z.min (Z.of_nat (length (m_pages d))) index)).
  assert (0 <= i <= Z.of_nat (length (m_pages d))) as Hi by (unfold i; lia).
  assert (i = Z.of_nat (Z.to_nat i)) as Hnat by lia.
  destruct (insert_at_lookup a (Z.to_nat i) (m_pages d) ltac:(lia)) as [Hl Hd].
  rewrite <- Hnat in Hl, Hd.
  assert (m_pages (insertPage now index (Some a) d)
          = QVector.insert_at i a (m_pages d)) as Hp.
  { unfold insertPage. cbv zeta. rewrite markAsModified_pages. simpl.
    destruct (m_currentPage d); [done|]. by rewrite setCurrentPage_pages. }
  split; [exact Hi|]. split; [|split].
  - rewrite Hnat. rewrite pageAt_nat.
    + by rewrite Hp.
    + rewrite Hp. apply lookup_lt_Some with a. exact Hl.
  - rewrite Hp. rewrite Hnat at 1. by rewrite removeAt_nat.
  - unfold i. lia.
Qed.

Lemma move_lookup (l : list nat) (i j : nat) x :
  l !! i = Some x -> (j < length l)%nat ->
  QVector.move (Z.of_nat i) (Z.of_nat j) l !! j = Some x.
Proof.
  intros Hx Hj. unfold QVector.move, QVector.at_.
  destruct (Z.ltb_spec (Z.of_nat i) 0); [lia|]. rewrite Nat2Z.id, Hx.
  destruct (Z.eqb_spec (Z.of_nat i) (Z.of_nat j)) as [E|E].
  - by replace j with i by lia.
  - rewrite removeAt_nat.
    apply (insert_at_lookup x j (delete i l)).
    rewrite length_delete by eauto. lia.
Qed.

(** X15: [movePage] with two different valid indices puts the page of
    index [fromIndex] at index [toIndex], keeps the pages the same up to
    their order and the current page as it is, and marks the document as
    modified; with any other pair of indices it changes nothing. *)
Theorem movePage_moves_page (now fromIndex toIndex : Z) (d : Document) :
  let d' := movePage now fromIndex toIndex d in
  let valid i := 0 <= i < QVector.size (m_pages d) in
  (valid fromIndex /\ valid toIndex /\ fromIndex <> toIndex ->
     pageAt toIndex d' = pageAt fromIndex d /\
     m_pages d' ≡ₚ m_pages d /\
     m_currentPage d' = m_currentPage d /\
     m_modified d' = true) /\
  (~ (valid fromIndex /\ valid toIndex /\ fromIndex <> toIndex) -> d' = d).
Proof.
  cbv zeta. unfold movePage, QVector.size. split.
  - intros (Hf & Ht & Hne).
    destruct (Z.leb_spec 0 fromIndex); [|lia].
    destruct (Z.ltb_spec fromIndex (Z.of_nat (length (m_pages d)))); [|lia].
    destruct (Z.leb_spec 0 toIndex); [|lia].
    destruct (Z.ltb_spec toIndex (Z.of_nat (length (m_pages d)))); [|lia].
    destruct (Z.eqb_spec fromIndex toIndex); [done|]. simpl.
    rewrite markAsModified_pages, markAsModified_current, markAsModified_modified.
    simpl. split; [|split; [apply move_perm | done]].
    set (q := markAsModified _ _).
    assert (m_pages q = QVector.move fromIndex toIndex (m_pages d)) as Hq
      by (unfold q; by rewrite markAsModified_pages).
    replace fromIndex with (Z.of_nat (Z.to_nat fromIndex)) in * by lia.
    replace toIndex with (Z.of_nat (Z.to_nat toIndex)) in * by lia.
    rewrite (pageAt_nat _ d) by lia.
    rewrite (pageAt_nat _ q) by (rewrite Hq, move_perm; lia).
    rewrite Hq.
    destruct (m_pages d !! Z.to_nat fromIndex) as [x|] eqn:Hx.
    + apply move_lookup; [done | lia].
    + apply lookup_ge_None in Hx. lia.
  - intros Hn.
    destruct (Z.leb_spec 0 fromIndex); [|done].
    destruct (Z.ltb_spec fromIndex (Z.of_nat (length (m_pages d)))); [|done].
    destruct (Z.leb_spec 0 toIndex); [|done].
    destruct (Z.ltb_spec toIndex (Z.of_nat (length (m_pages d)))); [|done].
    destruct (Z.eqb_spec fromIndex toIndex); [done|]. exfalso. apply Hn. lia.
Qed.

Lemma find_page_spec heap id ps :
  match find_page heap id ps with
  | Some a =>
      exists n, ps !! n = Some a /\ page_id <$> heap !! a = Some id /\
        forall m b, (m < n)%nat -> ps !! m = Some b ->
                    page_id <$> heap !! b <> Some id
  | None => forall b, b ∈ ps -> page_id <$> heap !! b <> Some id
  end.
Proof.
  induction ps as [|a rest IH]; simpl.
  - intros b Hb. by apply elem_of_nil in Hb.
  - assert (forall pg, heap !! a = Some pg -> String.eqb (page_id pg) id = false ->
              page_id <$> heap !! a <> Some id) as Hno.
    { intros pg Hpg Hne. rewrite Hpg. simpl. intros [= E].
      apply String.eqb_neq in Hne. contradiction. }
    assert (page_id <$> heap !! a <> Some id ->
            match find_page heap id rest with
            | Some a0 =>
                exists n, (a :: rest) !! n = Some a0 /\
                  page_id <$> heap !! a0 = Some id /\
                  forall m b, (m < n)%nat -> (a :: rest) !! m = Some b ->
                              page_id <$> heap !! b <> Some id
            | None => forall b, b ∈ a :: rest -> page_id <$> heap !! b <> Some id
            end) as Hskip.
    { intros Ha. destruct (find_page heap id rest) as [c|].
      - destruct IH as (n & Hn & Hid & Hfirst). exists (S n).
        split; [done|]. split; [done|]. intros [|m] b Hm Hb.
        + simpl in Hb. by injection Hb as <-.
        + apply (Hfirst m); [lia | done].
      - intros b Hb. apply elem_of_cons in Hb as [->|Hb]; [done | by apply IH]. }
    destruct (heap !! a) as [pg|] eqn:Hpg.
    + destruct (String.eqb (page_id pg) id) eqn:E.
      * exists 0%nat. split; [done|]. split.
        -- rewrite Hpg. simpl. apply String.eqb_eq in E. by rewrite E.
        -- intros m b Hm. lia.
      * apply Hskip. by apply (Hno pg).
    + apply Hskip. done.
Qed.

(** X16: a page made by [createNewPage] is found by [pageById] under its
    id, when the address is fresh and no page of the document carries
    the id yet; [pageIndex] gives it the last index. *)
Theorem created_page_is_found (now : Z) (title : string) (ptr : PagePtr)
  (page_uuid : string) (heap : gmap nat PageObj) (d : Document) :
  heap !! ptr = None ->
  ptr ∉ m_pages d ->
  (forall b, b ∈ m_pages d -> page_id <$> heap !! b <> Some page_uuid) ->
  let r := createNewPage now title ptr page_uuid heap d in
  pageById r.1 page_uuid r.2 = Some ptr /\
  pageIndex ptr r.2 = QVector.size (m_pages d) /\
  pageAt (pageIndex ptr r.2) r.2 = Some ptr.
Proof.
  intros Hfresh Hnew Hids. cbv zeta. unfold createNewPage. cbv zeta.
  cbn [fst snd].
  set (page := mkPageObj _ _).
  assert (m_pages (addPage now (Some ptr) d) = m_pages d ++ [ptr]) as Hp.
  { unfold addPage. cbv zeta. rewrite markAsModified_pages. simpl.
    destruct (m_currentPage d); [done|]. by rewrite setCurrentPage_pages. }
  assert (pageIndex ptr (addPage now (Some ptr) d) = QVector.size (m_pages d)) as Hidx.
  { unfold pageIndex. rewrite Hp.
    destruct (indexOf_from_spec 0 ptr (m_pages d ++ [ptr]))
      as [[_ Hn]|(n & En & Hl & Hfirst)].
    - exfalso. apply Hn. apply elem_of_app. right. by apply list_elem_of_singleton.
    - unfold QVector.indexOf, QVector.size. rewrite En.
      destruct (decide (n < length (m_pages d))%nat) as [Hlt|Hge].
      + rewrite lookup_app_l in Hl by done. exfalso. apply Hnew.
        by apply list_elem_of_lookup_2 in Hl.
      + apply lookup_lt_Some in Hl. rewrite length_app in Hl. simpl in Hl. lia. }
  split; [|split].
  - unfold pageById. rewrite Hp.
    pose proof (find_page_spec (<[ptr:=page]> heap) page_uuid (m_pages d ++ [ptr])) as Hs.
    destruct (find_page _ _ _) as [c|].
    + destruct Hs as (n & Hn & Hid & _).
      destruct (decide (c = ptr)) as [->|Hne]; [done|].
      rewrite lookup_insert_ne in Hid by done.
      exfalso. apply (Hids c); [|done].
      apply list_elem_of_lookup_2 in Hn. apply elem_of_app in Hn as [Hn|Hn]; [done|].
      by apply list_elem_of_singleton in Hn.
    + exfalso. apply (Hs ptr).
      * apply elem_of_app. right. by apply list_elem_of_singleton.
      * by rewrite lookup_insert_eq.
  - exact Hidx.
  - rewrite Hidx. unfold QVector.size.
    rewrite pageAt_nat by (rewrite Hp, length_app; simpl; lia).
    rewrite Hp, lookup_app_r by lia. by rewrite Nat.sub_diag.
Qed.

Lemma created_page_is_found_witness :
  let r := createNewPage 3 "Notes" 12%nat "page-3"
             {[10%nat := mkPageObj "Page 1" "page-1"]} Samples.two_pages in
  pageById r.1 "page-3" r.2 = Some 12%nat /\
  pageIndex 12%nat r.2 = QVector.size (m_pages Samples.two_pages) /\
  pageAt (pageIndex 12%nat r.2) r.2 = Some 12%nat.
Proof.
  apply created_page_is_found.
  - done.
  - vm_compute. intros Hin.
    repeat (apply elem_of_cons in Hin as [Hin|Hin]; [discriminate|]).
    by apply elem_of_nil in Hin.
  - intros b Hin. vm_compute in Hin.
    apply elem_of_cons in Hin as [->|Hin]; [by vm_compute|].
    apply elem_of_cons in Hin as [->|Hin]; [by vm_compute|].
    by apply elem_of_nil in Hin.
Defined.

(** X17: what [hasTag] answers after [addTag] and [removeTag]: the tag
    added is there, the tag removed is gone, and every other tag is as
    before. *)
Theorem tags_after_addTag_removeTag (now : Z) (tag t : string) (d : Document) :
  hasTag t (addTag now tag d) = (String.eqb t tag || hasTag t d) /\
  hasTag t (removeTag now tag d) = (negb (String.eqb t tag) && hasTag t d).
Proof.
  unfold hasTag. split.
  - unfold addTag. destruct (decide (tag ∈ m_tags d)) as [Hin|Hout].
    + destruct (String.eqb_spec t tag) as [->|Hne]; simpl; [|done].
      by rewrite bool_decide_eq_true_2.
    + rewrite markAsModified_tags. simpl.
      destruct (String.eqb_spec t tag) as [->|Hne]; simpl.
      * apply bool_decide_eq_true_2. apply elem_of_app. right.
        by apply list_elem_of_singleton.
      * apply bool_decide_ext. rewrite elem_of_app, list_elem_of_singleton. tauto.
  - assert (m_tags (removeTag now tag d) = filter (fun x => x <> tag) (m_tags d)) as ->.
    { unfold removeTag. cbv zeta. destruct (_ <? _); [|done].
      by rewrite markAsModified_tags. }
    destruct (String.eqb_spec t tag) as [->|Hne]; simpl.
    + apply bool_decide_eq_false_2. rewrite list_elem_of_filter. tauto.
    + apply bool_decide_ext. rewrite list_elem_of_filter. tauto.
Qed.

Lemma with_tags_same d : with_tags (m_tags d) d = d.
Proof. by destruct d. Qed.

Lemma filter_length_same {A} (P : A -> Prop) `{!forall x, Decision (P x)} (l : list A) :
  length (filter P l) = length l -> filter P l = l.
Proof.
  induction l as [|x l IH]; [done|]. intros Hlen.
  destruct (decide (P x)) as [Hx|Hx].
  - rewrite filter_cons_True in * by done. simpl in Hlen. f_equal. apply IH. lia.
  - rewrite filter_cons_False in Hlen by done. simpl in Hlen.
    pose proof (length_filter P l). lia.
Qed.

(** X18: [addTag] and [removeTag] touch the document exactly when the tag
    list changes: adding a tag that is there, or removing one that is
    not, returns the document as it was, modification flag and date
    included; otherwise the document is marked as modified at the time
    of the call.  Neither introduces a duplicate tag. *)
Theorem tag_edits_mark_changes (now : Z) (tag : string) (d : Document) :
  (hasTag tag d = true ->
     addTag now tag d = d /\
     m_modified (removeTag now tag d) = true /\
     m_modifiedDate (removeTag now tag d) = now) /\
  (hasTag tag d = false ->
     removeTag now tag d = d /\
     m_modified (addTag now tag d) = true /\
     m_modifiedDate (addTag now tag d) = now) /\
  (NoDup (m_tags d) ->
     NoDup (m_tags (addTag now tag d)) /\ NoDup (m_tags (removeTag now tag d))).
Proof.
  unfold hasTag. split; [|split].
  - intros Hin. apply bool_decide_eq_true_1 in Hin.
    unfold addTag, removeTag. cbv zeta.
    destruct (decide (tag ∈ m_tags d)); [|contradiction].
    split; [done|].
    assert (length (filter (fun t => t <> tag) (m_tags d)) < length (m_tags d))%nat as Hlt.
    { pose proof (length_filter (fun t => t <> tag) (m_tags d)) as Hle.
      destruct (decide (length (filter (fun t => t <> tag) (m_tags d))
                        = length (m_tags d))) as [E|E]; [|lia].
      apply filter_length_same in E. exfalso.
      rewrite <- E in Hin. apply list_elem_of_filter in Hin. tauto. }
    destruct (Z.ltb_spec 0 (Z.of_nat (length (m_tags d))
               - Z.of_nat (length (filter (fun t => t <> tag) (m_tags d))))); [|lia].
    by rewrite markAsModified_modified, markAsModified_date.
  - intros Hout. apply bool_decide_eq_false_1 in Hout.
    unfold addTag, removeTag. cbv zeta.
    destruct (decide (tag ∈ m_tags d)); [contradiction|].
    rewrite markAsModified_modified, markAsModified_date.
    split; [|done].
    rewrite (filter_keep_all (fun t => t <> tag) (m_tags d))
      by (intros x Hx ->; contradiction).
    rewrite Z.sub_diag. simpl. apply with_tags_same.
  - intros Hnd. split.
    + unfold addTag. destruct (decide (tag ∈ m_tags d)); [done|].
      rewrite markAsModified_tags. simpl. apply NoDup_app.
      split; [done|]. split; [|apply NoDup_singleton].
      intros x Hx Hx'. apply list_elem_of_singleton in Hx' as ->. contradiction.
    + assert (m_tags (removeTag now tag d) = filter (fun x => x <> tag) (m_tags d)) as ->.
      { unfold removeTag. cbv zeta. destruct (_ <? _); [|done].
        by rewrite markAsModified_tags. }
      by apply NoDup_filter.
Qed.

End MoreDocumentFacts.

(** ** Saving, loading and deleting documents *)

Section MoreStorageFacts.
Import Document Storage.
Local Open Scope Z_scope.
Context (heap : gmap nat PageObj).
Context (documentToBlob : Document -> string) (pageToBlob : PageObj -> string).

(** The page rows written for a list of page objects. *)
Lemma upsert_pages_documents documentId pgs t :
  documents (fold_left (fun t pg => upsert_page pageToBlob documentId pg t) pgs t)
  = documents t.
Proof. revert t. induction pgs as [|pg pgs IH]; intros t; simpl; [done|]. by rewrite IH. Qed.

Lemma upsert_pages_other documentId pgs t k :
  (forall pg, pg ∈ pgs -> page_id pg <> k) ->
  pages (fold_left (fun t pg => upsert_page pageToBlob documentId pg t) pgs t) !! k
  = pages t !! k.
Proof.
  revert t. induction pgs as [|pg pgs IH]; intros t Hk; simpl; [done|].
  rewrite IH by (intros pg' Hin; apply Hk; by right).
  simpl. apply lookup_insert_ne. apply Hk. by left.
Qed.

Lemma upsert_pages_kept documentId pgs t k :
  is_Some (pages t !! k) ->
  is_Some (pages (fold_left (fun t pg => upsert_page pageToBlob documentId pg t)
                    pgs t) !! k).
Proof.
  revert t. induction pgs as [|pg pgs IH]; intros t Hk; simpl; [done|].
  apply IH. simpl. destruct (decide (page_id pg = k)) as [->|Hne].
  - rewrite lookup_insert_eq. eauto.
  - by rewrite lookup_insert_ne.
Qed.


Lemma savePages_result documentId ps s t s' :
  pending (m_database s) = Some t ->
  savePages heap pageToBlob documentId ps s = (true, s') ->
  exists pgs,
    Forall2 (fun a pg => heap !! a = Some pg) ps pgs /\
    m_initialized s' = m_initialized s /\ emitted s' = emitted s /\
    committed (m_database s') = committed (m_database s) /\
    pending (m_database s')
    = Some (fold_left (fun t pg => upsert_page pageToBlob documentId pg t) pgs t).
Proof.
  revert s t. induction ps as [|a ps IH]; intros s t Hp Hs; simpl in Hs.
  - injection Hs as <-. exists []. by repeat split.
  - unfold savePage in Hs. destruct (m_initialized s) eqn:Hi; simpl in Hs; [|done].
    destruct (heap !! a) as [pg|] eqn:Ha; simpl in Hs; [|done].
    unfold exec in Hs. rewrite Hp in Hs.
    destruct (faults (m_database s)) as [|[|] rest] eqn:Hf; simpl in Hs; [|done|].
    + eapply IH in Hs; [|reflexivity].
      destruct Hs as (pgs & Hall & Hi' & He' & Hc' & Hp').
      exists (pg :: pgs). split; [by constructor|]. simpl in *.
      repeat split; congruence.
    + eapply IH in Hs; [|reflexivity].
      destruct Hs as (pgs & Hall & Hi' & He' & Hc' & Hp').
      exists (pg :: pgs). split; [by constructor|]. simpl in *.
      repeat split; congruence.
Qed.

Lemma savePages_initialized documentId ps s :
  m_initialized (savePages heap pageToBlob documentId ps s).2 = m_initialized s.
Proof.
  revert s. induction ps as [|a ps IH]; intros s; simpl; [done|].
  unfold savePage. destruct (m_initialized s) eqn:Hi; simpl; [|done].
  destruct (heap !! a) as [pg|]; simpl; [|done].
  destruct (exec _ _) as [[|] db]; [|done]. by rewrite IH.
Qed.

Lemma commit_point (l : list bool) (n : nat) : head (drop n (tail l)) = l !! S n.
Proof.
  destruct l as [|b l]; simpl; [by rewrite drop_nil|].
  rewrite head_lookup, lookup_drop. f_equal. lia.
Qed.

(** The outcomes of [saveDocument] on a store without an open
    transaction: a failed write rolls back; otherwise the result is
    [true] whatever the [COMMIT], statement number one plus the number
    of pages, answers. *)
Lemma saveDocument_outcome (d : Document) (s : Storage) :
  pending (m_database s) = None ->
  let r := saveDocument heap documentToBlob pageToBlob (Some d) s in
  m_initialized r.2 = m_initialized s /\
  ((r.1 = false /\ stored r.2 = stored s /\ pending (m_database r.2) = None) \/
   (r.1 = true /\ m_initialized s = true /\
    emitted r.2 = emitted s ++ [documentSaved (m_id d)] /\
    exists pgs,
      Forall2 (fun a pg => heap !! a = Some pg) (m_pages d) pgs /\
      if decide (faults (m_database s) !! S (length (m_pages d)) = Some true)
      then stored r.2 = stored s
      else pending (m_database r.2) = None /\
           stored r.2
           = fold_left (fun t pg => upsert_page pageToBlob (m_id d) pg t) pgs
               (upsert_document documentToBlob d (stored s)))).
Proof.
  intros Hp. cbv zeta. unfold saveDocument, stored.
  destruct (m_initialized s) eqn:Hi; simpl negb; cbv iota;
    [|simpl; split; [done|]; left; by repeat split].
  unfold beginTransaction, transaction. rewrite Hp. cbn [snd].
  set (s1 := with_database _ s).
  assert (pending (m_database s1) = Some (committed (m_database s))) as Hp1 by done.
  pose proof (exec_in_transaction (upsert_document documentToBlob d)
                (m_database s1) _ Hp1) as He.
  assert (forall db, (exec (upsert_document documentToBlob d) (m_database s1)) = (true, db) ->
            pending db = Some (upsert_document documentToBlob d (committed (m_database s))))
    as Hok.
  { intros db. unfold exec. rewrite Hp1.
    destruct (faults (m_database s1)) as [|[|] ?]; intros [= <-]; done. }
  destruct (exec _ (m_database s1)) as [ok db] eqn:Ex.
  destruct He as (Hc & [t' Hp'] & Hfl & _).
  destruct ok; simpl negb; cbv iota.
  - specialize (Hok db eq_refl).
    pose proof (savePages_in_transaction heap pageToBlob (m_id d) (m_pages d)
                  (with_database db s1) _ Hok) as Hin.
    pose proof (savePages_initialized (m_id d) (m_pages d) (with_database db s1)) as Hi2.
    destruct (savePages _ _ _ _ _) as [[|] s2] eqn:Hs; simpl negb; cbv iota.
    + destruct (savePages_result (m_id d) (m_pages d) (with_database db s1) _ s2 Hok Hs)
        as (pgs & Hall & Hi' & He' & Hc' & Hp2).
      destruct Hin as (_ & _ & Hrest). destruct (Hrest eq_refl) as [Hf2 _].
      assert (head (faults (m_database s2))
              = faults (m_database s) !! S (length (m_pages d))) as Hhead.
      { rewrite Hf2. simpl. rewrite Hfl. apply commit_point. }
      unfold commitTransaction, commit. rewrite Hp2. simpl in *.
      split; [destruct (faults (m_database s2)) as [|[|] ?]; simpl; congruence|].
      right. split; [done|]. split; [done|].
      split; [destruct (faults (m_database s2)) as [|[|] ?]; simpl; by rewrite He'|].
      exists pgs. split; [done|].
      destruct (faults (m_database s2)) as [|[|] rest]; simpl in *;
        destruct (decide (faults (m_database s) !! S (length (m_pages d)) = Some true))
          as [E|E]; try congruence; try done.
    + destruct Hin as (Hc2 & [t2 Hp2] & _).
      unfold rollbackTransaction, rollback. rewrite Hp2. simpl in *.
      split; [congruence|]. left. split; [done|]. split; [congruence | done].
  - unfold rollbackTransaction, rollback. simpl. rewrite Hp'. simpl.
    split; [done|]. left. split; [done|]. split; [exact Hc | done].
Qed.


Lemma heap_pages_elem (ps : list PagePtr) (pgs : list PageObj) pg :
  Forall2 (fun a pg => heap !! a = Some pg) ps pgs -> pg ∈ pgs ->
  exists a, a ∈ ps /\ heap !! a = Some pg.
Proof.
  intros H. induction H as [|a pg' ps pgs Ha _ IH]; intros Hin.
  - by apply elem_of_nil in Hin.
  - apply elem_of_cons in Hin as [->|Hin].
    + exists a. split; [by left | done].
    + destruct (IH Hin) as (b & Hb & Hpg). exists b. split; [by right | done].
Qed.

(** X19: a document saved with success, its [COMMIT] included, loads
    back as what the parser makes of its serialization; the load emits no
    signal and leaves the store as it is. *)
Theorem saved_document_loads_back (documentFromBlob : string -> option Document)
  (d : Document) (s : Storage) :
  pending (m_database s) = None ->
  m_id d <> EmptyString ->
  (saveDocument heap documentToBlob pageToBlob (Some d) s).1 = true ->
  faults (m_database s) !! S (length (m_pages d)) <> Some true ->
  let s' := (saveDocument heap documentToBlob pageToBlob (Some d) s).2 in
  loadDocument documentFromBlob false (m_id d) s'
  = (documentFromBlob (documentToBlob d), s').
Proof.
  intros Hp Hid Hok Hcommit. cbv zeta.
  destruct (saveDocument_outcome d s Hp) as (Hi' & [[Hf _]|(_ & Hi & _ & pgs & _ & Hst)]);
    [congruence|].
  destruct (decide _) as [E|_] in Hst; [contradiction|]. destruct Hst as [Hp' Hst].
  unfold loadDocument. rewrite Hi', Hi. simpl negb.
  destruct (String.eqb_spec (m_id d) EmptyString) as [E|_]; [contradiction|].
  simpl orb. cbv iota. unfold visible. rewrite Hp'.
  unfold stored in Hst. rewrite Hst, upsert_pages_documents. simpl.
  by rewrite lookup_insert_eq.
Qed.

(** X20: [saveDocument] never removes a row: whether it succeeds or
    not, every document row and page row stored before is still stored
    afterwards, the rows of other documents are as they were, and so are
    the page rows whose id no page of the document carries. *)
Theorem saveDocument_keeps_rows (d : Document) (s : Storage) :
  pending (m_database s) = None ->
  let s' := (saveDocument heap documentToBlob pageToBlob (Some d) s).2 in
  (forall id, is_Some (documents (stored s) !! id) ->
              is_Some (documents (stored s') !! id)) /\
  (forall pid, is_Some (pages (stored s) !! pid) ->
               is_Some (pages (stored s') !! pid)) /\
  (forall id, id <> m_id d ->
              documents (stored s') !! id = documents (stored s) !! id) /\
  (forall pid,
     (forall a pg, a ∈ m_pages d -> heap !! a = Some pg -> page_id pg <> pid) ->
     pages (stored s') !! pid = pages (stored s) !! pid).
Proof.
  intros Hp. cbv zeta.
  destruct (saveDocument_outcome d s Hp)
    as (_ & [(_ & Hst & _)|(_ & _ & _ & pgs & Hall & Hst)]).
  - by rewrite Hst.
  - destruct (decide _) as [_|_] in Hst; [by rewrite Hst|].
    destruct Hst as [_ Hst]. rewrite Hst.
    split; [|split; [|split]].
    + intros id His. rewrite upsert_pages_documents. simpl.
      destruct (decide (m_id d = id)) as [->|Hne].
      * rewrite lookup_insert_eq. eauto.
      * by rewrite lookup_insert_ne.
    + intros pid His. by apply upsert_pages_kept.
    + intros id Hne. rewrite upsert_pages_documents. simpl.
      by rewrite lookup_insert_ne.
    + intros pid Hno. rewrite upsert_pages_other; [done|].
      intros pg Hin. destruct (heap_pages_elem _ _ _ Hall Hin) as (a & Ha & Hpg).
      by apply (Hno a).
Qed.



Lemma savePages_succeeds documentId ps s t :
  m_initialized s = true ->
  pending (m_database s) = Some t ->
  Forall (fun a => is_Some (heap !! a)) ps ->
  (forall k, (k < length ps)%nat -> faults (m_database s) !! k <> Some true) ->
  (savePages heap pageToBlob documentId ps s).1 = true.
Proof.
  revert s t. induction ps as [|a ps IH]; intros s t Hi Hp Hall Hno; simpl; [done|].
  inversion Hall as [|? ? [pg Hpg] Hall']; subst.
  unfold savePage. rewrite Hi. simpl. rewrite Hpg. simpl.
  unfold exec. rewrite Hp.
  pose proof (Hno 0%nat ltac:(simpl; lia)) as H0.
  destruct (faults (m_database s)) as [|[|] rest] eqn:Hf; [|by simpl in H0|].
  - eapply IH; [done | reflexivity | done |]. intros k Hk. simpl.
    by rewrite lookup_nil.
  - eapply IH; [done | reflexivity | done |]. intros k Hk. simpl.
    apply (Hno (S k)). simpl. lia.
Qed.

(** X27: [saveDocument] does not look at the outcome of the [COMMIT]:
    when the document row and every page row are written and the
    [COMMIT] then fails, it still returns [true] and emits
    [documentSaved], although the stored rows are those from before the
    call. *)
Theorem saveDocument_ignores_failed_commit (d : Document) (s : Storage) :
  m_initialized s = true ->
  pending (m_database s) = None ->
  Forall (fun a => is_Some (heap !! a)) (m_pages d) ->
  (forall k, (k <= length (m_pages d))%nat -> faults (m_database s) !! k <> Some true) ->
  faults (m_database s) !! S (length (m_pages d)) = Some true ->
  let r := saveDocument heap documentToBlob pageToBlob (Some d) s in
  r.1 = true /\
  emitted r.2 = emitted s ++ [documentSaved (m_id d)] /\
  stored r.2 = stored s.
Proof.
  intros Hi Hp Hall Hno Hfail. cbv zeta.
  assert ((saveDocument heap documentToBlob pageToBlob (Some d) s).1 = true) as Hok.
  { unfold saveDocument. rewrite Hi. simpl negb. cbv iota.
    unfold beginTransaction, transaction. rewrite Hp. cbn [snd].
    unfold exec at 1. cbn [m_database with_database pending faults committed].
    pose proof (Hno 0%nat ltac:(lia)) as H0.
    destruct (faults (m_database s)) as [|[|] rest] eqn:Hf; [|by simpl in H0|];
      simpl negb; cbv iota.
    - match goal with |- context [savePages ?h ?b ?i ?ps ?s0] =>
        pose proof (savePages_succeeds i ps s0 _ Hi ltac:(reflexivity) Hall) as Hs;
        destruct (savePages h b i ps s0) as [ok s2] end.
      simpl in Hs. rewrite Hs; [done|]. intros k Hk. simpl. by rewrite lookup_nil.
    - match goal with |- context [savePages ?h ?b ?i ?ps ?s0] =>
        pose proof (savePages_succeeds i ps s0 _ Hi ltac:(reflexivity) Hall) as Hs;
        destruct (savePages h b i ps s0) as [ok s2] end.
      simpl in Hs. rewrite Hs; [done|]. intros k Hk. simpl.
      apply (Hno (S k)). lia. }
  destruct (saveDocument_outcome d s Hp)
    as (_ & [[Hf _]|(_ & _ & Hem & pgs & _ & Hst)]); [congruence|].
  destruct (decide _) as [_|E] in Hst; [done | contradiction].
Qed.

End MoreStorageFacts.

Lemma saved_document_loads_back_witness :
  Storage.loadDocument (fun blob => Some (Document.setTitle 9 blob Samples.two_pages))
    false "doc" Samples.saved_store
  = (Some Samples.two_pages, Samples.saved_store).
Proof.
  apply (saved_document_loads_back Samples.two_pages_heap Samples.title_blob
           Samples.id_blob
           (fun blob => Some (Document.setTitle 9 blob Samples.two_pages))
           Samples.two_pages Samples.empty_store).
  - reflexivity.
  - discriminate.
  - vm_compute. reflexivity.
  - vm_compute. discriminate.
Defined.

Lemma saveDocument_keeps_rows_witness :
  let s' := (Storage.saveDocument Samples.two_pages_heap Samples.title_blob
               Samples.id_blob
               (Some (Document.removePageAt 9 1 Samples.two_pages))
               Samples.saved_store).2 in
  is_Some (Storage.pages (Storage.stored s') !! "page-2"%string).
Proof.
  apply (saveDocument_keeps_rows Samples.two_pages_heap Samples.title_blob
           Samples.id_blob (Document.removePageAt 9 1 Samples.two_pages)
           Samples.saved_store).
  - vm_compute. reflexivity.
  - vm_compute. eauto.
Defined.



Lemma saveDocument_ignores_failed_commit_witness :
  let r := Storage.saveDocument Samples.two_pages_heap Samples.title_blob
             Samples.id_blob (Some Samples.two_pages) Samples.busy_store in
  r.1 = true /\
  Storage.emitted r.2 = Storage.emitted Samples.busy_store ++ [Storage.documentSaved "doc"] /\
  Storage.stored r.2 = Storage.stored Samples.busy_store.
Proof.
  apply (saveDocument_ignores_failed_commit Samples.two_pages_heap Samples.title_blob
           Samples.id_blob Samples.two_pages Samples.busy_store).
  - reflexivity.
  - reflexivity.
  - repeat constructor; vm_compute; eauto.
  - intros k Hk. vm_compute in Hk.
    destruct k as [|[|[|k]]]; [vm_compute; discriminate.. | lia].
  - vm_compute. reflexivity.
Defined.

Section DeletionFacts.
Import Document Storage.
Local Open Scope Z_scope.

Lemma delete_pages_lookup documentId (t : Tables) pid :
  pages (delete_pages_of documentId t) !! pid
  = match pages t !! pid with
    | Some row =>
        if decide (row_document_id row = documentId) then None else Some row
    | None => None
    end.
Proof.
  unfold delete_pages_of. cbn [pages]. rewrite map_lookup_filter.
  destruct (pages t !! pid) as [row|]; simpl; [|done].
  destruct (decide (row_document_id row = documentId)) as [E|E].
  - rewrite option_guard_False; [done|]. simpl. tauto.
  - by rewrite option_guard_True.
Qed.

(** X23: [deleteDocument] is all or nothing on the stored rows.  When it
    returns [false] the stored rows are those stored before and no
    transaction is left open.  When it returns [true] and the [COMMIT],
    its third statement, went through, the document's row is gone
    together with exactly the page rows that belong to the document, and
    no transaction is left open.  The outcome of the [COMMIT] is not
    looked at: when it fails the result is still [true] and the stored
    rows are those stored before. *)
Theorem deleteDocument_all_or_nothing (documentId : string) (s : Storage) :
  pending (m_database s) = None ->
  let r := deleteDocument documentId s in
  (r.1 = false -> stored r.2 = stored s /\ pending (m_database r.2) = None) /\
  (r.1 = true -> faults (m_database s) !! 2%nat <> Some true ->
     pending (m_database r.2) = None /\
     documents (stored r.2) = delete documentId (documents (stored s)) /\
     forall pid,
       pages (stored r.2) !! pid
       = match pages (stored s) !! pid with
         | Some row =>
             if decide (row_document_id row = documentId) then None else Some row
         | None => None
         end) /\
  (r.1 = true -> faults (m_database s) !! 2%nat = Some true ->
     stored r.2 = stored s).
Proof.
  intros Hp. cbv zeta. unfold deleteDocument, stored.
  destruct (negb (m_initialized s) || String.eqb documentId EmptyString);
    [by repeat split|].
  unfold beginTransaction, transaction. rewrite Hp. cbn [snd].
  unfold exec. cbn [m_database with_database pending faults committed].
  destruct (faults (m_database s)) as [|[|] rest] eqn:Hf;
    cbn [negb tail m_database with_database pending faults committed fst snd].
  - unfold commitTransaction, commit. simpl.
    split; [done|]. split; [|done]. intros _ _. split; [done|]. split; [done|].
    intros pid. apply (delete_pages_lookup documentId (committed (m_database s))).
  - unfold rollbackTransaction, rollback. simpl. by repeat split.
  - destruct rest as [|[|] rest'];
      cbn [negb tail m_database with_database pending faults committed fst snd].
    + unfold commitTransaction, commit. simpl.
      split; [done|]. split; [|done]. intros _ _. split; [done|]. split; [done|].
      intros pid. apply (delete_pages_lookup documentId (committed (m_database s))).
    + unfold rollbackTransaction, rollback. simpl. by repeat split.
    + unfold commitTransaction, commit. simpl.
      destruct rest' as [|[|] rest'']; simpl.
      * split; [done|]. split; [|done]. intros _ _. split; [done|]. split; [done|].
        intros pid. apply (delete_pages_lookup documentId (committed (m_database s))).
      * split; [done|]. split; [intros _ H; by contradiction H | done].
      * split; [done|]. split; [|done]. intros _ _. split; [done|]. split; [done|].
        intros pid. apply (delete_pages_lookup documentId (committed (m_database s))).
Qed.

End DeletionFacts.

Lemma deleteDocument_all_or_nothing_witness :
  let r := Storage.deleteDocument "doc" Samples.saved_store in
  (r.1 = false -> Storage.stored r.2 = Storage.stored Samples.saved_store /\
     Storage.pending (Storage.m_database r.2) = None) /\
  (r.1 = true ->
   Storage.faults (Storage.m_database Samples.saved_store) !! 2%nat <> Some true ->
     Storage.pending (Storage.m_database r.2) = None /\
     Storage.documents (Storage.stored r.2)
     = delete "doc" (Storage.documents (Storage.stored Samples.saved_store)) /\
     forall pid,
       Storage.pages (Storage.stored r.2) !! pid
       = match Storage.pages (Storage.stored Samples.saved_store) !! pid with
         | Some row =>
             if decide (Storage.row_document_id row = "doc") then None else Some row
         | None => None
         end) /\
  (r.1 = true ->
   Storage.faults (Storage.m_database Samples.saved_store) !! 2%nat = Some true ->
     Storage.stored r.2 = Storage.stored Samples.saved_store).
Proof.
  apply (deleteDocument_all_or_nothing "doc" Samples.saved_store).
  vm_compute. reflexivity.
Defined.

(** ** Strokes in JSON, and cancelled strokes *)

Section StrokeJsonFacts.
Import Qt Obj.
Local Open Scope Z_scope.
Context (qt : QtLib).

(** X24: a stroke written by [strokeToJson] and read back by
    [strokeFromJson] keeps its path, pen, mode and timestamp, when Qt
    reads back the path and the pen colour it wrote and the mode is one
    of the named modes; its brush is not written and comes back as the
    default brush. *)
Theorem stroke_json_drops_brush (s : Stroke) :
  fromSvgPath qt (toSvgPath qt (path s)) = path s ->
  colorFromName qt (colorName qt (pen_color (pen s))) = pen_color (pen s) ->
  mode_of_int (mode_to_int (mode s)) = mode s ->
  strokeFromJson qt (strokeToJson qt s)
  = mkStroke (path s) (pen s) default_brush (mode s) (timestamp s).
Proof.
  intros Hpath Hcolor Hmode. unfold strokeFromJson, strokeToJson, penFromJson, penToJson.
  cbn [Json.get Json.set Json.set_field Json.lookup_field Json.toObject Json.toString
       Json.toInt Json.toDouble Json.toLongLong String.eqb Ascii.eqb Bool.eqb
       brush empty_stroke].
  rewrite Hpath, Hcolor, Hmode. by destruct (pen s).
Qed.

End StrokeJsonFacts.

Lemma stroke_json_drops_brush_witness :
  let s := Obj.mkStroke [] (Obj.mkPen Obj.black 2%float 1 32 128) (Obj.mkBrush 1)
             Obj.HighlighterMode 5 in
  Obj.strokeFromJson Samples.plain_qt (Obj.strokeToJson Samples.plain_qt s)
  = Obj.mkStroke (Obj.path s) (Obj.pen s) Obj.default_brush (Obj.mode s)
      (Obj.timestamp s).
Proof.
  apply (stroke_json_drops_brush Samples.plain_qt); reflexivity.
Defined.

Section CaptureFacts.
Import Qt Obj.
Local Open Scope Z_scope.

Lemma addPointToStroke_keeps point d :
  m_drawing d = true ->
  exists stroke pts,
    addPointToStroke point d = with_capture stroke true pts d.
Proof.
  intros Hd. unfold addPointToStroke. rewrite Hd. simpl.
  destruct (is_eraser (m_currentMode d)); eexists _, _; unfold with_capture; simpl;
    by rewrite ?Hd.
Qed.

Lemma capture_keeps now start pts d :
  m_drawing d = false ->
  exists stroke sp, capture now start pts d = with_capture stroke true sp d.
Proof.
  intros Hd. unfold capture.
  assert (exists stroke sp, startStroke now start d = with_capture stroke true sp d)
    as (st & sp & ->) by (unfold startStroke; rewrite Hd; eauto).
  revert st sp. induction pts as [|p pts IH]; intros st sp; simpl; [eauto|].
  destruct (addPointToStroke_keeps p (with_capture st true sp d) eq_refl)
    as (st' & sp' & ->).
  apply IH.
Qed.

(** X25: a stroke that is cancelled leaves no trace: after
    [startStroke], any number of [addPointToStroke] and [cancelStroke],
    the strokes, the selection, the mode, the pen and the brush are as
    before, and the capture state is that of an idle object. *)
Theorem cancelStroke_discards_capture
  (now : Z) (start : QPoint) (pts : list QPoint) (d : DrawingData) :
  m_drawing d = false ->
  cancelStroke (capture now start pts d) = with_capture empty_stroke false [] d.
Proof.
  intros Hd. destruct (capture_keeps now start pts d Hd) as (st & sp & ->).
  reflexivity.
Qed.

End CaptureFacts.

Lemma cancelStroke_discards_capture_witness :
  Obj.cancelStroke (Obj.capture 7 Samples.pen_start Samples.pen_moves Samples.fresh_canvas)
  = Samples.fresh_canvas.
Proof.
  exact (cancelStroke_discards_capture 7 Samples.pen_start Samples.pen_moves
           Samples.fresh_canvas eq_refl).
Defined.

(** ** Duplicated strokes *)

Section DuplicateFacts.
Import Qt Obj Drawing.
Local Open Scope Z_scope.

Lemma addStroke_all (l : list Stroke) (d : DrawingData) :
  let d' := fold_left (fun d s => (addStroke s d).1) l d in
  m_strokes d' = m_strokes d ++ l /\ m_selectedStrokes d' = m_selectedStrokes d.
Proof.
  revert d. induction l as [|s l IH]; intros d; cbn [fold_left].
  - by rewrite app_nil_r.
  - destruct (IH (addStroke s d).1) as [Hs Hsel]. cbv zeta in Hs, Hsel.
    rewrite Hs, Hsel. simpl. by rewrite <- app_assoc.
Qed.

Lemma selected_copies (d : DrawingData) (sel : list Z) :
  (forall i, i ∈ sel -> in_range i d = true) ->
  Forall2 (fun i s => QVector.at_ (m_strokes d) i = Some s) sel
    (omap (fun index => if in_range index d then QVector.at_ (m_strokes d) index
                        else None) sel).
Proof.
  induction sel as [|i sel IH]; intros Hin; simpl; [constructor|].
  assert (in_range i d = true) as Hi by (apply Hin; by left).
  rewrite Hi.
  assert (exists s, QVector.at_ (m_strokes d) i = Some s) as [s Hs].
  { unfold in_range, QVector.size in Hi. apply andb_prop in Hi as [H0 H1].
    apply Z.leb_le in H0. apply Z.ltb_lt in H1. unfold QVector.at_.
    destruct (Z.ltb_spec i 0); [lia|].
    destruct (m_strokes d !! Z.to_nat i) as [s|] eqn:E; [eauto|].
    apply lookup_ge_None in E. lia. }
  rewrite Hs. constructor; [done|]. apply IH. intros j Hj. apply Hin. by right.
Qed.

(** X26: when the selection names existing strokes,
    [duplicateSelectedStrokes] keeps the strokes there are, appends one
    copy of each selected stroke in the order of the selection, and
    leaves the selection on the originals. *)
Theorem duplicateSelectedStrokes_appends_copies (d : DrawingData) :
  Samples.valid_selection d ->
  let d' := duplicateSelectedStrokes d in
  m_selectedStrokes d' = m_selectedStrokes d /\
  take (length (m_strokes d)) (m_strokes d') = m_strokes d /\
  Forall2 (fun i s => QVector.at_ (m_strokes d) i = Some s)
    (m_selectedStrokes d) (drop (length (m_strokes d)) (m_strokes d')).
Proof.
  intros [_ Hin]. cbv zeta. unfold duplicateSelectedStrokes. cbv zeta.
  destruct (addStroke_all
              (omap (fun index => if in_range index d
                                  then QVector.at_ (m_strokes d) index else None)
                 (m_selectedStrokes d)) d) as [Hs Hsel].
  cbv zeta in Hs, Hsel. rewrite Hs, Hsel.
  split; [done|]. split.
  - by rewrite take_app_length.
  - rewrite drop_app_length. by apply selected_copies.
Qed.

End DuplicateFacts.

Lemma duplicateSelectedStrokes_appends_copies_witness :
  let d := Samples.three_strokes in
  let d' := Drawing.duplicateSelectedStrokes d in
  Obj.m_selectedStrokes d' = Obj.m_selectedStrokes d /\
  take (length (Obj.m_strokes d)) (Obj.m_strokes d') = Obj.m_strokes d /\
  Forall2 (fun i s => QVector.at_ (Obj.m_strokes d) i = Some s)
    (Obj.m_selectedStrokes d) (drop (length (Obj.m_strokes d)) (Obj.m_strokes d')).
Proof.
  apply (duplicateSelectedStrokes_appends_copies Samples.three_strokes).
  split.
  - apply NoDup_cons. split; [|apply NoDup_singleton].
    intros H%list_elem_of_singleton. discriminate.
  - intros i Hi. repeat (apply elem_of_cons in Hi as [->|Hi]); try done.
    by apply elem_of_nil in Hi.
Defined.
